(** * Base DeFi utilities: yield, impermanent-loss and risk analytics

    A shallow embedding of the analytics functions of the repository and the
    properties its specification states about them.

    Two number systems occur in the sources and are kept apart here:

    - [bignumber.js] decimals (class [YieldCalculator]): arbitrary-precision
      decimals.  Addition, subtraction, multiplication and integer powers are
      exact; division and square root are rounded to [DECIMAL_PLACES = 20]
      digits with [ROUND_HALF_UP], the library's defaults, which the sources
      never change.  They are modelled by rationals ([Q]) and are executable.

    - JavaScript numbers (classes [BaseYieldCalculator], [BaseRiskAssessment]).
      They are IEEE 754 doubles, and they are read in three ways:

      - [Number]: real numbers extended with [Infinity], [-Infinity] and
        [NaN], with exact operations.  The control flow of comparisons
        with [NaN] and of divisions by zero is kept; rounding and the sign
        of zero are left out.  The properties stated on this reading are
        those that do not rest on an operation being exact: orders,
        bounds with a margin, control flow.  Where a magnitude could
        overflow, the statement bounds it.

      - [Double]: the same operations, each followed by a rounding that is
        a parameter.  Properties are proved from the standard model of
        floating-point arithmetic, a relative error of at most [u] in the
        normal range, and so hold for doubles.

      - [Binary64]: the kernel's primitive floats, that is doubles
        themselves, to run a function on given inputs. *)

From Stdlib Require Import ZArith QArith Qabs Qpower Qround Reals Lra Lia Psatz String List.
From Stdlib Require Import Sorted Ascii Floats.
From stdpp Require Import gmap strings.
Import ListNotations.

(** ** Completions of a call *)

Inductive exn : Type :=
| ValidationError (message : string)
| CalculationError (message : string)
| Error (message : string).

Inductive completion (A : Type) : Type :=
| Normal (v : A)
| Throw (e : exn).
Arguments Normal {A} v.
Arguments Throw {A} e.

Definition bind {A B : Type} (c : completion A) (k : A -> completion B) : completion B :=
  match c with
  | Normal v => k v
  | Throw e => Throw e
  end.

Notation "'let*' x ':=' c 'in' k" := (bind c (fun x => k))
  (at level 10, x name, c at level 100, k at level 200).

(** [arr.forEach(f)] for a callback that updates the variables [S] it closes over. *)
Fixpoint forEach {A S : Type} (f : S -> A -> completion S) (arr : list A) (s : S) : completion S :=
  match arr with
  | [] => Normal s
  | a :: rest => let* s' := f s a in forEach f rest s'
  end.

(** ** bignumber.js *)

Module BigNumber.
Open Scope Q_scope.

Definition t : Type := Q.

Definition DECIMAL_PLACES : positive := 20.

(** [ROUNDING_MODE = 4] ([ROUND_HALF_UP]): to the nearest multiple of
    [10^-dp], ties away from zero. *)
Definition round_half_up (dp : positive) (q : Q) : Q :=
  let s := Pos.pow 10 dp in
  let n := (Z.abs (Qnum q) * Zpos s)%Z in
  let d := Zpos (Qden q) in
  ((Z.sgn (Qnum q) * ((2 * n + d) / (2 * d)))%Z # s).

Definition plus (x y : t) : t := x + y.
Definition minus (x y : t) : t := x - y.
Definition multipliedBy (x y : t) : t := x * y.
(** The divisors in the functions below are non-zero constants or
    frequencies of type [positive]. *)
Definition dividedBy (x y : t) : t := round_half_up DECIMAL_PLACES (x / y).
(** [POW_PRECISION = 0]: integer powers are not rounded. *)
Definition pow (x : t) (n : positive) : t := Qpower_positive x n.
Definition abs (x : t) : t := Qabs x.
Definition isGreaterThan (x y : t) : bool :=
  if Qlt_le_dec y x then true else false.
Definition isZero (x : t) : bool := Qeq_bool x 0.

(** Correctly rounded square root of a non-negative decimal:
    [m] is the integer square root of [x * 10^(2 dp)], rounded up when
    [x * 10^(2 dp) >= (m + 1/2)^2]. *)
Definition sqrt (x : t) : t :=
  let s := Pos.pow 10 DECIMAL_PLACES in
  let n := (Qnum x * Zpos s * Zpos s)%Z in
  let d := Zpos (Qden x) in
  let m := Z.sqrt (n / d) in
  let up := (((2 * m + 1) * (2 * m + 1) * d) <=? 4 * n)%Z in
  ((if up then m + 1 else m)%Z # s).

Definition ofPos (p : positive) : t := inject_Z (Zpos p).
End BigNumber.

(** ** class YieldCalculator (bignumber.js arithmetic) *)

Module YieldCalculator.
Import BigNumber.
Open Scope Q_scope.

(** [config.defaultCompoundFrequency], the frequency [calculateAPY] takes
    when its second argument is omitted. *)
Definition defaultCompoundFrequency : positive := 365.

(** [calculateAPY(apr, compoundFrequency)]; the frequency is a positive
    integer, and no statement of the function throws. *)
Definition calculateAPY (apr : Q) (compoundFrequency : positive) : completion t :=
  let aprDecimal := dividedBy apr 100 in
  let compoundRate := dividedBy aprDecimal (ofPos compoundFrequency) in
  let apy := minus (pow (plus compoundRate 1) compoundFrequency) 1 in
  Normal (multipliedBy apy 100).

Definition getCompoundingStrategy (frequency : positive) : string :=
  match frequency with
  | 1%positive => "Annual compounding - Low gas, lower yield"
  | 4%positive => "Quarterly compounding - Balanced approach"
  | 12%positive => "Monthly compounding - Good for medium amounts"
  | 52%positive => "Weekly compounding - Higher gas, better yield"
  | 365%positive => "Daily compounding - Highest gas, maximum yield"
  | _ => "Custom frequency"
  end%string.

Definition frequencies : list positive := [1; 4; 12; 52; 365]%positive.

(** The [netYield] computed by the callback for one frequency. *)
Definition netYield (apr gasCost principal : Q) (freq : positive) : completion t :=
  let* apy := calculateAPY apr freq in
  let grossYield := multipliedBy principal (dividedBy apy 100) in
  let totalGasCost := multipliedBy gasCost (ofPos freq) in
  Normal (minus grossYield totalGasCost).

(** Body of the [forEach] callback; the state is [(optimalFreq, maxNetYield)]. *)
Definition compounding_step (apr gasCost principal : Q)
    (st : positive * t) (freq : positive) : completion (positive * t) :=
  let* ny := netYield apr gasCost principal freq in
  if isGreaterThan ny (snd st) then Normal (freq, ny) else Normal st.

Record compounding := {
  optimalFrequency : positive;
  maxNetYield : t;
  recommendedStrategy : string
}.

(** [calculateOptimalCompounding(apr, gasCost, principal)] *)
Definition calculateOptimalCompounding (apr gasCost principal : Q) : completion compounding :=
  let* st := forEach (compounding_step apr gasCost principal) frequencies (1%positive, 0) in
  Normal {| optimalFrequency := fst st;
            maxNetYield := snd st;
            recommendedStrategy := getCompoundingStrategy (fst st) |}.

(** [estimateImpermanentLoss(poolData)]; [priceRatio = None] is an absent
    field, and [!priceRatio] also holds for a ratio of zero. *)
Definition estimateImpermanentLoss (priceRatio : option Q) : t :=
  match priceRatio with
  | None => 0
  | Some ratio =>
      if isZero ratio then 0
      else multipliedBy (abs (minus (dividedBy (multipliedBy 2 (sqrt ratio)) (plus ratio 1)) 1)) 100
  end.

(** The fields of [poolData] the pool functions read; [timeframe] is
    destructured and never used. *)
Record PoolData := {
  token0Amount : Q;
  token1Amount : Q;
  token0Price : Q;
  token1Price : Q;
  poolFees : Q;
  tradingVolume : Q;
  priceRatio : option Q
}.

(** [feeAPY = None] stands for the results of a division by a total value
    of zero, which bignumber.js renders as Infinity or NaN. *)
Record PoolYield := {
  totalValue : t;
  dailyFees : t;
  annualFees : t;
  feeAPY : option t;
  estimatedImpermanentLoss : t
}.

(** [calculatePoolYield(poolData)] *)
Definition calculatePoolYield (poolData : PoolData) : PoolYield :=
  let totalValue :=
    plus (multipliedBy (token0Amount poolData) (token0Price poolData))
         (multipliedBy (token1Amount poolData) (token1Price poolData)) in
  let dailyFees := dividedBy (multipliedBy (tradingVolume poolData) (poolFees poolData)) 365 in
  let annualFees := multipliedBy dailyFees 365 in
  {| totalValue := totalValue;
     dailyFees := dailyFees;
     annualFees := annualFees;
     feeAPY :=
       if isZero totalValue then None
       else Some (multipliedBy (dividedBy annualFees totalValue) 100);
     estimatedImpermanentLoss := estimateImpermanentLoss (priceRatio poolData) |}.
End YieldCalculator.

(** ** JavaScript numbers *)

Module Number.
Open Scope R_scope.

Inductive num : Type :=
| Fin (x : R)
| PInf
| NInf
| NaN.

Definition Rltb (x y : R) : bool := if Rlt_dec x y then true else false.
Definition Rleb (x y : R) : bool := if Rle_dec x y then true else false.
Definition Reqb (x y : R) : bool := if Req_dec_T x y then true else false.

Definition inf (positive_sign : bool) : num := if positive_sign then PInf else NInf.

(** An infinity of sign [s] times (or a zero divisor under) the real [y]. *)
Definition scale_inf (s : bool) (y : R) : num :=
  if Rltb 0 y then inf s else if Rltb y 0 then inf (negb s) else NaN.

Definition neg (a : num) : num :=
  match a with
  | Fin x => Fin (- x)
  | PInf => NInf
  | NInf => PInf
  | NaN => NaN
  end.

Definition add (a b : num) : num :=
  match a, b with
  | Fin x, Fin y => Fin (x + y)
  | NaN, _ | _, NaN => NaN
  | PInf, NInf | NInf, PInf => NaN
  | PInf, _ | _, PInf => PInf
  | NInf, _ | _, NInf => NInf
  end.

Definition sub (a b : num) : num := add a (neg b).

Definition mul (a b : num) : num :=
  match a, b with
  | Fin x, Fin y => Fin (x * y)
  | NaN, _ | _, NaN => NaN
  | PInf, Fin y | Fin y, PInf => scale_inf true y
  | NInf, Fin y | Fin y, NInf => scale_inf false y
  | PInf, PInf | NInf, NInf => PInf
  | PInf, NInf | NInf, PInf => NInf
  end.

Definition div (a b : num) : num :=
  match a, b with
  | Fin x, Fin y => if Reqb y 0 then scale_inf true x else Fin (x / y)
  | NaN, _ | _, NaN => NaN
  | Fin _, (PInf | NInf) => Fin 0
  | PInf, Fin y => if Rltb y 0 then NInf else PInf
  | NInf, Fin y => if Rltb y 0 then PInf else NInf
  | _, _ => NaN
  end.

(** [a < b]; every comparison with [NaN] is false. *)
Definition lt (a b : num) : bool :=
  match a, b with
  | Fin x, Fin y => Rltb x y
  | NaN, _ | _, NaN => false
  | NInf, (Fin _ | PInf) | Fin _, PInf => true
  | _, _ => false
  end.

(** [a <= b] *)
Definition le (a b : num) : bool :=
  match a, b with
  | Fin x, Fin y => Rleb x y
  | NaN, _ | _, NaN => false
  | NInf, _ | _, PInf => true
  | _, _ => false
  end.

Definition gt (a b : num) : bool := lt b a.
Definition ge (a b : num) : bool := le b a.

(** [a === b] *)
Definition strict_eq (a b : num) : bool :=
  match a, b with
  | Fin x, Fin y => Reqb x y
  | PInf, PInf | NInf, NInf => true
  | _, _ => false
  end.

(** [Math.min(a, b)] *)
Definition min (a b : num) : num :=
  match a, b with
  | NaN, _ | _, NaN => NaN
  | _, _ => if lt b a then b else a
  end.

(** [Math.abs] *)
Definition abs (a : num) : num :=
  match a with
  | Fin x => Fin (Rabs x)
  | PInf | NInf => PInf
  | NaN => NaN
  end.

(** [Math.sqrt] *)
Definition sqrt (a : num) : num :=
  match a with
  | Fin x => if Rltb x 0 then NaN else Fin (R_sqrt.sqrt x)
  | PInf => PInf
  | NInf | NaN => NaN
  end.

(** [Math.pow(a, 2)] *)
Definition pow2 (a : num) : num := mul a a.

(** Truthiness of a number: [0] and [NaN] are falsy. *)
Definition truthy (a : num) : bool :=
  match a with
  | Fin x => negb (Reqb x 0)
  | PInf | NInf => true
  | NaN => false
  end.

(** [a || d] where [a] is a possibly absent ([undefined]) numeric field. *)
Definition or_default (a : option num) (d : num) : num :=
  match a with
  | Some x => if truthy x then x else d
  | None => d
  end.

(** A parameter with a default value: only [undefined] selects the default. *)
Definition param (a : option num) (d : num) : num :=
  match a with
  | Some x => x
  | None => d
  end.

(** Strings built from numbers.  [Number.prototype.toFixed] and the
    conversion of a number to a string are built-ins of the language; the
    strings they produce are kept symbolic. *)
Inductive text : Type :=
| Lit (s : string)
| Fixed (digits : nat) (x : num)
| NumStr (x : num)
| Cat (a b : text).

(** A field that holds a number on one path and a string on another. *)
Inductive value : Type :=
| VNum (x : num)
| VText (s : text).

(** The number [x.toFixed(digits)] denotes: [x] rounded to [digits]
    decimals, ties away from zero. *)
Definition fixed_value (digits : nat) (x : num) : num :=
  match x with
  | Fin r =>
      let s := 10 ^ digits in
      let n := IZR (Int_part (Rabs r * s + / 2)) in
      Fin (if Rltb r 0 then - (n / s) else n / s)
  | other => other
  end.

(** [parseFloat(x.toFixed(digits))] and [parseFloat(x.toFixed(digits) + '%')] *)
Definition parseFloat_fixed (s : text) : num :=
  match s with
  | Fixed d x => fixed_value d x
  | Cat (Fixed d x) _ => fixed_value d x
  | _ => NaN
  end.
End Number.

(** ** Portfolios *)

(** A position of a portfolio; [volatility = None] is an absent field. *)
Record Position := {
  asset : string;
  amount : Number.num;
  price : Number.num;
  volatility : option Number.num
}.

(** [positions = None] is a portfolio object without that field. *)
Record Portfolio := { positions : option (list Position) }.

(** [portfolio.positions || []] *)
Definition positions_or_empty (portfolio : Portfolio) : list Position :=
  match positions portfolio with
  | Some ps => ps
  | None => []
  end.

(** ** class BaseYieldCalculator (JavaScript numbers) *)

Module BaseYieldCalculator.
Import Number.
Open Scope R_scope.
Open Scope string_scope.

(** *** calculateImpermanentLoss *)

Record ImpermanentLoss := {
  priceChange : text;
  impermanentLoss : text;
  lossPercentage : text;
  recommendation : string
}.

Definition calculateImpermanentLoss (initialPrice currentPrice : num) : ImpermanentLoss :=
  let priceRatio := div currentPrice initialPrice in
  let impermanentLoss :=
    sub (div (mul (Fin 2) (sqrt priceRatio)) (add (Fin 1) priceRatio)) (Fin 1) in
  let lossPercentage := abs (mul impermanentLoss (Fin 100)) in
  {| priceChange := Fixed 2 (mul (sub priceRatio (Fin 1)) (Fin 100));
     impermanentLoss := Fixed 2 (mul impermanentLoss (Fin 100));
     lossPercentage := Fixed 2 lossPercentage;
     recommendation :=
       if gt lossPercentage (Fin 5) then "Consider rebalancing" else "Position stable" |}.

(** *** calculateVaR *)

Record VaR := {
  totalValue : text;
  portfolioVolatility : text;
  dailyVaR : text;
  periodVaR : text;
  confidenceLevel : text;
  timeHorizon : text;
  riskLevel : string
}.

(** Body of the [forEach] callback; the state is
    [(totalValue, portfolioVolatility)]. *)
Definition var_step (st : num * num) (position : Position) : num * num :=
  let positionValue := mul (amount position) (price position) in
  let totalValue := add (fst st) positionValue in
  (totalValue,
   add (snd st)
       (mul (pow2 (or_default (volatility position) (Fin 0.3)))
            (pow2 (div positionValue totalValue)))).

Definition zScore (confidenceLevel : num) : num :=
  if strict_eq confidenceLevel (Fin 0.95) then Fin 1.645
  else if strict_eq confidenceLevel (Fin 0.99) then Fin 2.326
  else Fin 1.96.

(** [calculateVaR(portfolio, confidenceLevel = 0.95, timeHorizon = 1)];
    no statement of the function throws. *)
Definition calculateVaR (portfolio : Portfolio) (confidenceLevel timeHorizon : option num)
    : completion VaR :=
  let confidenceLevel := param confidenceLevel (Fin 0.95) in
  let timeHorizon := param timeHorizon (Fin 1) in
  let st := fold_left var_step (positions_or_empty portfolio) (Fin 0, Fin 0) in
  let totalValue := fst st in
  let portfolioVolatility := sqrt (snd st) in
  let dailyVaR := mul (mul totalValue portfolioVolatility) (zScore confidenceLevel) in
  let periodVaR := mul dailyVaR (sqrt timeHorizon) in
  Normal
    {| totalValue := Fixed 2 totalValue;
       portfolioVolatility := Cat (Fixed 2 (mul portfolioVolatility (Fin 100))) (Lit "%");
       dailyVaR := Fixed 2 dailyVaR;
       periodVaR := Fixed 2 periodVaR;
       confidenceLevel := Cat (NumStr (mul confidenceLevel (Fin 100))) (Lit "%");
       timeHorizon := Cat (NumStr timeHorizon) (Lit " days");
       riskLevel :=
         if gt (div dailyVaR totalValue) (Fin 0.05) then "High"
         else if gt (div dailyVaR totalValue) (Fin 0.02) then "Medium"
         else "Low" |}.

(** *** calculateMaxDrawdown *)

(** The variables of the scan. *)
Record drawdown_scan := {
  peak : num;
  maxDrawdown : num;
  drawdownStart : nat;
  drawdownEnd : nat;
  currentDrawdownStart : nat
}.

(** Body of the [for] loop at index [i], where [p = priceHistory[i]]. *)
Definition drawdown_step (st : drawdown_scan) (i : nat) (p : num) : drawdown_scan :=
  if gt p (peak st) then
    {| peak := p; maxDrawdown := maxDrawdown st;
       drawdownStart := drawdownStart st; drawdownEnd := drawdownEnd st;
       currentDrawdownStart := i |}
  else
    let drawdown := div (sub (peak st) p) (peak st) in
    if gt drawdown (maxDrawdown st) then
      {| peak := peak st; maxDrawdown := drawdown;
         drawdownStart := currentDrawdownStart st; drawdownEnd := i;
         currentDrawdownStart := currentDrawdownStart st |}
    else st.

Fixpoint drawdown_loop (st : drawdown_scan) (i : nat) (rest : list num) : drawdown_scan :=
  match rest with
  | [] => st
  | p :: rest' => drawdown_loop (drawdown_step st i p) (S i) rest'
  end.

Record Drawdown := {
  dd_maxDrawdown : value;
  drawdownPeriod : Z;
  peakValue : option text;
  troughValue : option text;
  recovery : string
}.

(** [calculateMaxDrawdown(priceHistory)]; [None] is a null or undefined
    argument. *)
Definition calculateMaxDrawdown (priceHistory : option (list num)) : Drawdown :=
  match priceHistory with
  | None | Some [] | Some [_] =>
      {| dd_maxDrawdown := VNum (Fin 0); drawdownPeriod := 0;
         peakValue := None; troughValue := None; recovery := "N/A" |}
  | Some ((first :: rest) as prices) =>
      let st := drawdown_loop
                  {| peak := first; maxDrawdown := Fin 0; drawdownStart := 0;
                     drawdownEnd := 0; currentDrawdownStart := 0 |} 1 rest in
      {| dd_maxDrawdown := VText (Cat (Fixed 2 (mul (maxDrawdown st) (Fin 100))) (Lit "%"));
         drawdownPeriod := Z.of_nat (drawdownEnd st) - Z.of_nat (drawdownStart st);
         peakValue := Some (Fixed 2 (peak st));
         troughValue :=
           Some (match nth_error prices (drawdownEnd st) with
                 | Some p => Fixed 2 p
                 | None => Lit "N/A"
                 end);
         recovery :=
           if gt (maxDrawdown st) (Fin 0) then "Monitoring required"
           else "No significant drawdown" |}
  end.

(** *** optimizeYieldStrategy *)

(** A strategy object.  [riskAdjustedReturn] and [score] are absent
    ([None]) on the objects a caller builds. *)
Record Strategy := {
  name : string;
  apy : num;
  risk : num;
  liquidity : num;
  riskAdjustedReturn : option num;
  score : option num
}.

(** The [constraints] argument; [None] is an absent field, replaced by the
    default of the destructuring pattern. *)
Record Constraints := {
  maxRisk : option num;
  minYield : option num;
  maxAllocationPerStrategy : option num;
  totalCapital : option num
}.

(** Objects live in a store and arrays hold their locations: the array
    built by [filter] shares its objects with the caller's array. *)
Abbreviation loc := nat.
Abbreviation store := (gmap nat Strategy).

(** The predicate of [strategies.filter]. *)
Definition meets_constraints (minYield maxRisk : num) (s : Strategy) : bool :=
  ge (apy s) minYield && le (risk s) maxRisk.

Definition validStrategies (h : store) (minYield maxRisk : num)
    (strategies : list loc) : list loc :=
  List.filter (fun l => match h !! l with
                        | Some s => meets_constraints minYield maxRisk s
                        | None => false
                        end) strategies.

(** Body of the [forEach] callback: two assignments to fields of the
    strategy object. *)
Definition set_scores (s : Strategy) : Strategy :=
  let rar := div (apy s) (or_default (Some (risk s)) (Fin 0.1)) in
  {| name := name s; apy := apy s; risk := risk s; liquidity := liquidity s;
     riskAdjustedReturn := Some rar;
     score := Some (mul rar (add (Fin 1) (div (liquidity s) (Fin 100)))) |}.

Definition score_strategies (h : store) (valid : list loc) : store :=
  fold_left (fun h l => alter set_scores l h) valid h.

(** [x.score] read as a number; an absent field is [undefined], which
    arithmetic turns into [NaN]. *)
Definition score_of (h : store) (l : loc) : num :=
  match h !! l with
  | Some s => match score s with Some x => x | None => NaN end
  | None => NaN
  end.

(** The comparator [(a, b) => b.score - a.score]. *)
Definition by_score (h : store) (a b : loc) : num := sub (score_of h b) (score_of h a).

(** [Array.prototype.sort] is stable: [b] moves before [a] only where the
    comparator is positive.  Stable insertion sort; every stable sort gives
    the same array for a consistent comparator. *)
Fixpoint insert_by_score (h : store) (a : loc) (sorted : list loc) : list loc :=
  match sorted with
  | [] => [a]
  | b :: rest =>
      if gt (by_score h a b) (Fin 0) then b :: insert_by_score h a rest
      else a :: sorted
  end.

Definition sort_by_score (h : store) (arr : list loc) : list loc :=
  fold_right (insert_by_score h) [] arr.

Record Allocation := {
  strategy : string;
  allocation : num;
  percentage : text;
  expectedReturn : text;
  allocation_risk : num;
  allocation_apy : text
}.

(** The variables of the allocation loop. *)
Record allocating := {
  allocations : list Allocation;
  remainingCapital : num;
  totalAllocatedRisk : num
}.

(** One iteration of the [for ... of] loop, after the [break] test. *)
Definition allocate_step (totalCapital maxAllocationPerStrategy : num)
    (st : allocating) (s : Strategy) : allocating :=
  let maxAllocation :=
    min (min (remainingCapital st) (mul totalCapital maxAllocationPerStrategy))
        (mul totalCapital (Fin 0.8)) in
  let allocation := min maxAllocation (mul (remainingCapital st) (Fin 0.3)) in
  if gt allocation (Fin 1000) then
    {| allocations :=
         allocations st ++
         [ {| strategy := name s;
              allocation := allocation;
              percentage :=
                Cat (Fixed 1 (mul (div allocation totalCapital) (Fin 100))) (Lit "%");
              expectedReturn := Fixed 2 (div (mul allocation (apy s)) (Fin 100));
              allocation_risk := risk s;
              allocation_apy := Cat (NumStr (apy s)) (Lit "%") |} ];
       remainingCapital := sub (remainingCapital st) allocation;
       totalAllocatedRisk :=
         add (totalAllocatedRisk st) (mul (div allocation totalCapital) (risk s)) |}
  else st.

Fixpoint allocate (totalCapital maxAllocationPerStrategy : num)
    (valid : list Strategy) (st : allocating) : allocating :=
  match valid with
  | [] => st
  | s :: rest =>
      if le (remainingCapital st) (Fin 0) then st
      else allocate totalCapital maxAllocationPerStrategy rest
             (allocate_step totalCapital maxAllocationPerStrategy st s)
  end.

Record PortfolioMetrics := {
  totalAllocated : text;
  remainingCash : text;
  weightedAPY : text;
  portfolioRisk : text;
  diversificationScore : string;
  metrics_riskLevel : string
}.

(** The object returned: [{ error }] or [{ allocations, portfolioMetrics,
    recommendations }]; the recommendation texts are left out. *)
Inductive Optimization : Type :=
| NoStrategies (error : string)
| Optimized (allocations : list Allocation) (portfolioMetrics : PortfolioMetrics).

Definition portfolio_metrics (totalCapital : num) (st : allocating) : PortfolioMetrics :=
  let totalAllocated := sub totalCapital (remainingCapital st) in
  let weightedAPY :=
    fold_left (fun sum alloc =>
                 add sum (mul (div (parseFloat_fixed (expectedReturn alloc)) totalAllocated)
                              (Fin 100)))
              (allocations st) (Fin 0) in
  {| totalAllocated := Fixed 2 totalAllocated;
     remainingCash := Fixed 2 (remainingCapital st);
     weightedAPY := Cat (Fixed 2 weightedAPY) (Lit "%");
     portfolioRisk := Cat (Fixed 2 (mul (totalAllocatedRisk st) (Fin 100))) (Lit "%");
     diversificationScore :=
       if (3 <=? length (allocations st))%nat then "Good" else "Needs improvement";
     metrics_riskLevel :=
       if lt (totalAllocatedRisk st) (Fin 0.15) then "Conservative"
       else if lt (totalAllocatedRisk st) (Fin 0.25) then "Moderate"
       else "Aggressive" |}.

(** [optimizeYieldStrategy(strategies, constraints = {})]: the store after
    the call and the object returned. *)
Definition optimizeYieldStrategy (h : store) (strategies : list loc) (constraints : Constraints)
    : store * Optimization :=
  let maxRisk := param (maxRisk constraints) (Fin 0.3) in
  let minYield := param (minYield constraints) (Fin 5) in
  let maxAllocationPerStrategy := param (maxAllocationPerStrategy constraints) (Fin 0.4) in
  let totalCapital := param (totalCapital constraints) (Fin 100000) in
  let valid := validStrategies h minYield maxRisk strategies in
  match valid with
  | [] => (h, NoStrategies "No strategies meet the specified constraints")
  | _ :: _ =>
      let h' := score_strategies h valid in
      let sorted := sort_by_score h' valid in
      let st := allocate totalCapital maxAllocationPerStrategy
                  (omap (fun l => h' !! l) sorted)
                  {| allocations := []; remainingCapital := totalCapital;
                     totalAllocatedRisk := Fin 0 |} in
      (h', Optimized (allocations st) (portfolio_metrics totalCapital st))
  end.

(** *** calculateAdvancedImpermanentLoss *)

Record PoolData := {
  token0Amount : num;
  token1Amount : num;
  token0Price : num;
  token1Price : num
}.

Record Scenario := {
  scenario_name : string;
  token0Change : num;
  token1Change : num
}.

Definition default_scenarios : list Scenario :=
  [ {| scenario_name := "Conservative"; token0Change := Fin 0.1; token1Change := Fin (-0.05) |};
    {| scenario_name := "Moderate"; token0Change := Fin 0.25; token1Change := Fin (-0.15) |};
    {| scenario_name := "Aggressive"; token0Change := Fin 0.5; token1Change := Fin (-0.3) |};
    {| scenario_name := "Extreme"; token0Change := Fin 1; token1Change := Fin (-0.5) |} ].

(** The constants of the [map] callback for one scenario. *)
Record scenario_locals := {
  newToken0Price : num;
  newToken1Price : num;
  newRatio : num;
  priceRatioChange : num;
  scenario_impermanentLoss : num;
  k : num;
  newToken0Amount : num;
  newToken1Amount : num;
  poolValue : num;
  holdValue : num
}.

Definition simulate (poolData : PoolData) (scenario : Scenario) : scenario_locals :=
  let initialRatio := div (token0Price poolData) (token1Price poolData) in
  let newToken0Price := mul (token0Price poolData) (add (Fin 1) (token0Change scenario)) in
  let newToken1Price := mul (token1Price poolData) (add (Fin 1) (token1Change scenario)) in
  let newRatio := div newToken0Price newToken1Price in
  let priceRatioChange := div newRatio initialRatio in
  let impermanentLoss :=
    sub (div (mul (Fin 2) (sqrt priceRatioChange)) (add (Fin 1) priceRatioChange)) (Fin 1) in
  let k := mul (token0Amount poolData) (token1Amount poolData) in
  let newToken0Amount := sqrt (mul k newRatio) in
  let newToken1Amount := div k newToken0Amount in
  {| newToken0Price := newToken0Price;
     newToken1Price := newToken1Price;
     newRatio := newRatio;
     priceRatioChange := priceRatioChange;
     scenario_impermanentLoss := impermanentLoss;
     k := k;
     newToken0Amount := newToken0Amount;
     newToken1Amount := newToken1Amount;
     poolValue := add (mul newToken0Amount newToken0Price) (mul newToken1Amount newToken1Price);
     holdValue := add (mul (token0Amount poolData) newToken0Price)
                      (mul (token1Amount poolData) newToken1Price) |}.

Record ScenarioResult := {
  scenario : string;
  result_impermanentLoss : text;
  result_poolValue : text;
  result_holdValue : text;
  difference : text;
  result_token0Price : text;
  result_token1Price : text;
  severity : string
}.

Definition scenario_result (poolData : PoolData) (scenario : Scenario) : ScenarioResult :=
  let v := simulate poolData scenario in
  let loss := abs (scenario_impermanentLoss v) in
  {| scenario := scenario_name scenario;
     result_impermanentLoss := Cat (Fixed 2 (mul loss (Fin 100))) (Lit "%");
     result_poolValue := Fixed 2 (poolValue v);
     result_holdValue := Fixed 2 (holdValue v);
     difference := Fixed 2 (sub (poolValue v) (holdValue v));
     result_token0Price := Fixed 4 (newToken0Price v);
     result_token1Price := Fixed 4 (newToken1Price v);
     severity :=
       if gt loss (Fin 0.2) then "High" else if gt loss (Fin 0.1) then "Medium" else "Low" |}.

Record RiskAssessment := {
  overallRisk : string;
  highRiskScenarios : nat;
  mediumRiskScenarios : nat
}.

Definition assessImpermanentLossRisk (scenarios : list ScenarioResult) : RiskAssessment :=
  let highRiskScenarios :=
    length (List.filter (fun s => String.eqb (severity s) "High") scenarios) in
  let mediumRiskScenarios :=
    length (List.filter (fun s => String.eqb (severity s) "Medium") scenarios) in
  {| overallRisk :=
       if (2 <=? highRiskScenarios)%nat then "High"
       else if (1 <=? highRiskScenarios)%nat || (2 <=? mediumRiskScenarios)%nat then "Medium"
       else "Low";
     highRiskScenarios := highRiskScenarios;
     mediumRiskScenarios := mediumRiskScenarios |}.

Record AdvancedImpermanentLoss := {
  initialValue : text;
  scenarios : list ScenarioResult;
  riskAssessment : RiskAssessment
}.

(** [calculateAdvancedImpermanentLoss(poolData, priceScenarios = [])] *)
Definition calculateAdvancedImpermanentLoss (poolData : PoolData)
    (priceScenarios : list Scenario) : AdvancedImpermanentLoss :=
  let initialValue :=
    add (mul (token0Amount poolData) (token0Price poolData))
        (mul (token1Amount poolData) (token1Price poolData)) in
  let scenarios :=
    match priceScenarios with
    | [] => default_scenarios
    | _ :: _ => priceScenarios
    end in
  let results := map (scenario_result poolData) scenarios in
  {| initialValue := Fixed 2 initialValue;
     scenarios := results;
     riskAssessment := assessImpermanentLossRisk results |}.

(** *** calculateLPYield *)

(** The property names every plain object inherits from [Object.prototype]
    (those of the language standard with the legacy accessors that Node.js
    provides). *)
Definition object_prototype_keys : list string :=
  [ "constructor"; "__defineGetter__"; "__defineSetter__"; "hasOwnProperty";
    "__lookupGetter__"; "__lookupSetter__"; "isPrototypeOf"; "propertyIsEnumerable";
    "toString"; "valueOf"; "__proto__"; "toLocaleString" ].

Record Protocol := { fee : num; baseMultiplier : num }.

(** [this.protocols], set by the constructor. *)
Definition protocols : list (string * Protocol) :=
  [ ("uniswap", {| fee := Fin 0.003; baseMultiplier := Fin 1.2 |});
    ("aerodrome", {| fee := Fin 0.002; baseMultiplier := Fin 1.5 |});
    ("baseswap", {| fee := Fin 0.0025; baseMultiplier := Fin 1.3 |}) ].

Fixpoint own_property {A : Type} (table : list (string * A)) (key : string) : option A :=
  match table with
  | [] => None
  | (k, v) :: rest => if String.eqb k key then Some v else own_property rest key
  end.

(** [this.protocols[protocol]]; [None] is [undefined].  An inherited
    property is an object without [fee] and [baseMultiplier]: both read as
    [undefined], which arithmetic turns into [NaN]. *)
Definition protocol_data (protocol : string) : option Protocol :=
  match own_property protocols protocol with
  | Some data => Some data
  | None =>
      if existsb (String.eqb protocol) object_prototype_keys
      then Some {| fee := NaN; baseMultiplier := NaN |}
      else None
  end.

Record LPYield := {
  lp_principal : num;
  lp_dailyEarnings : num;
  lp_monthlyEarnings : num;
  lp_annualEarnings : num;
  lp_apy : text;
  lp_protocol : string;
  baseOptimized : bool
}.

(** [calculateLPYield(principal, dailyVolume, protocol, poolTVL)] *)
Definition calculateLPYield (principal dailyVolume : num) (protocol : string) (poolTVL : num)
    : completion LPYield :=
  match protocol_data protocol with
  | None => Throw (Error "Unsupported protocol")
  | Some protocolData =>
      let dailyFees := mul dailyVolume (fee protocolData) in
      let userShare := div principal poolTVL in
      let dailyEarnings := mul dailyFees userShare in
      let baseBonus := mul dailyEarnings (baseMultiplier protocolData) in
      let annualEarnings := mul (add dailyEarnings baseBonus) (Fin 365) in
      let apy := mul (div annualEarnings principal) (Fin 100) in
      Normal {| lp_principal := principal;
                lp_dailyEarnings := add dailyEarnings baseBonus;
                lp_monthlyEarnings := mul (add dailyEarnings baseBonus) (Fin 30);
                lp_annualEarnings := annualEarnings;
                lp_apy := Fixed 2 apy;
                lp_protocol := protocol;
                baseOptimized := true |}
  end.

(** *** calculateSharpeRatio *)

(** [getSharpeInterpretation(ratio)] *)
Definition getSharpeInterpretation (ratio : num) : string :=
  if gt ratio (Fin 2) then "Outstanding risk-adjusted returns"
  else if gt ratio (Fin 1) then "Good risk-adjusted returns"
  else if gt ratio (Fin 0.5) then "Acceptable risk-adjusted returns"
  else if gt ratio (Fin 0) then "Below average risk-adjusted returns"
  else "Poor risk-adjusted returns - consider alternatives".

Record Sharpe := {
  sharpeRatio : text;
  excessReturn : text;
  sharpe_volatility : text;
  rating : string;
  interpretation : string
}.

(** [calculateSharpeRatio(returns, riskFreeRate = 2, volatility)] *)
Definition calculateSharpeRatio (returns : num) (riskFreeRate : option num) (volatility : num)
    : Sharpe :=
  let riskFreeRate := param riskFreeRate (Fin 2) in
  let excessReturn := sub returns riskFreeRate in
  let sharpeRatio := div excessReturn volatility in
  {| sharpeRatio := Fixed 3 sharpeRatio;
     excessReturn := Cat (Fixed 2 excessReturn) (Lit "%");
     sharpe_volatility := Cat (Fixed 2 volatility) (Lit "%");
     rating :=
       if gt sharpeRatio (Fin 2) then "Excellent"
       else if gt sharpeRatio (Fin 1) then "Good"
       else if gt sharpeRatio (Fin 0.5) then "Fair"
       else "Poor";
     interpretation := getSharpeInterpretation sharpeRatio |}.
End BaseYieldCalculator.

(** ** class BaseRiskAssessment (JavaScript numbers) *)

Module BaseRiskAssessment.
Import Number.
Open Scope R_scope.
Open Scope string_scope.

(** The table of [getAssetCorrelation]. *)
Definition correlations : list (string * num) :=
  [ ("ETH-BTC", Fin 0.7); ("USDC-USDT", Fin 0.95); ("ETH-USDC", Fin 0.1);
    ("BTC-USDC", Fin 0.05) ].

(** [table[key]]: [None] is [undefined]. *)
Fixpoint property (table : list (string * num)) (key : string) : option num :=
  match table with
  | [] => None
  | (k, v) :: rest => if String.eqb k key then Some v else property rest key
  end.

Definition getAssetCorrelation (asset1 asset2 : string) : num :=
  let key := asset1 ++ "-" ++ asset2 in
  let reverseKey := asset2 ++ "-" ++ asset1 in
  or_default (property correlations key)
             (or_default (property correlations reverseKey) (Fin 0.3)).

(** Body of the first [forEach] callback; the state is
    [(portfolioValue, portfolioVariance)]. *)
Definition variance_step (st : num * num) (position : Position) : num * num :=
  let positionValue := mul (amount position) (price position) in
  let portfolioValue := add (fst st) positionValue in
  let weight := div positionValue portfolioValue in
  let volatility := or_default (volatility position) (Fin 0.3) in
  (portfolioValue, add (snd st) (pow2 (mul weight volatility))).

(** The term added for the pair [(i, j)]. *)
Definition correlation_term (portfolioValue : num) (pi pj : Position) : num :=
  let weight_i := div (mul (amount pi) (price pi)) portfolioValue in
  let weight_j := div (mul (amount pj) (price pj)) portfolioValue in
  let vol_i := or_default (volatility pi) (Fin 0.3) in
  let vol_j := or_default (volatility pj) (Fin 0.3) in
  let correlation := getAssetCorrelation (asset pi) (asset pj) in
  mul (mul (mul (mul (mul (Fin 2) weight_i) weight_j) vol_i) vol_j) correlation.

(** The nested [for] loops over [i < j]. *)
Fixpoint correlation_effects (portfolioValue : num) (positions : list Position)
    (portfolioVariance : num) : num :=
  match positions with
  | [] => portfolioVariance
  | pi :: rest =>
      correlation_effects portfolioValue rest
        (fold_left (fun acc pj => add acc (correlation_term portfolioValue pi pj))
                   rest portfolioVariance)
  end.

(** [portfolioValue] and [portfolioVariance] when the loops are done. *)
Definition portfolio_value_and_variance (positions : list Position) : num * num :=
  let st := fold_left variance_step positions (Fin 0, Fin 0) in
  (fst st, correlation_effects (fst st) positions (snd st)).

Definition interpretVaR (varPercentage : text) : string :=
  let var_num := parseFloat_fixed varPercentage in
  if gt var_num (Fin 15) then "Very High Risk - Consider significant position reduction"
  else if gt var_num (Fin 10) then "High Risk - Monitor closely and consider hedging"
  else if gt var_num (Fin 5) then "Moderate Risk - Acceptable for most investors"
  else "Low Risk - Conservative portfolio".

Definition zScores : list (string * num) :=
  [ ("90", Fin 1.282); ("95", Fin 1.645); ("99", Fin 2.326) ].

Record VaRAmount := { var_amount : text; var_percentage : text }.

Record PortfolioVaR := {
  portfolioValue : text;
  volatility_percent : text;
  timeHorizon : text;
  var : list (string * VaRAmount);
  interpretation : string
}.

(** [calculatePortfolioVaR(portfolio, timeHorizon = 1)] *)
Definition calculatePortfolioVaR (portfolio : Portfolio) (timeHorizon : option num)
    : PortfolioVaR :=
  let timeHorizon := param timeHorizon (Fin 1) in
  let positions := positions_or_empty portfolio in
  let portfolioValue := fst (portfolio_value_and_variance positions) in
  let portfolioVariance := snd (portfolio_value_and_variance positions) in
  let portfolioVolatility := sqrt portfolioVariance in
  let dailyVolatility := div portfolioVolatility (sqrt (Fin 365)) in
  let periodVolatility := mul dailyVolatility (sqrt timeHorizon) in
  let varResults :=
    map (fun '(confidence, zScore) =>
           let var_amount := mul (mul portfolioValue periodVolatility) zScore in
           (confidence ++ "%",
            {| var_amount := Fixed 2 var_amount;
               var_percentage :=
                 Cat (Fixed 2 (mul (div var_amount portfolioValue) (Fin 100))) (Lit "%") |}))
        zScores in
  {| portfolioValue := Fixed 2 portfolioValue;
     volatility_percent := Cat (Fixed 2 (mul portfolioVolatility (Fin 100))) (Lit "%");
     timeHorizon := Cat (NumStr timeHorizon) (Lit " days");
     var := varResults;
     interpretation :=
       match varResults with
       | [_; (_, v95); _] => interpretVaR (var_percentage v95)
       | _ => interpretVaR (Lit "")
       end |}.

(** *** calculateConcentrationRisk *)

Record Concentration := {
  score : num;
  level : string;
  recommendation : string
}.

Definition calculateConcentrationRisk (portfolio : Portfolio) : Concentration :=
  let positions := positions_or_empty portfolio in
  let totalValue :=
    fold_left (fun sum pos => add sum (mul (amount pos) (price pos))) positions (Fin 0) in
  let herfindahlIndex :=
    fold_left (fun herfindahlIndex position =>
                 let weight := div (mul (amount position) (price position)) totalValue in
                 add herfindahlIndex (mul weight weight))
              positions (Fin 0) in
  {| score := herfindahlIndex;
     level :=
       if gt herfindahlIndex (Fin 0.5) then "High"
       else if gt herfindahlIndex (Fin 0.25) then "Medium"
       else "Low";
     recommendation :=
       if gt herfindahlIndex (Fin 0.5) then "Diversify portfolio"
       else "Concentration acceptable" |}.
End BaseRiskAssessment.

(** ** class BaseErrorHandler *)

Module ErrorHandler.
Import Number.
Open Scope string_scope.

(** *** validateInput *)

(** The values of the fields of [params]: primitive values.  [Undefined]
    is also what reading an absent field gives. *)
Inductive js_value : Type :=
| Undefined
| Null
| NumberValue (x : num)
| StringValue (s : string)
| BooleanValue (b : bool).

Definition typeof (v : js_value) : string :=
  match v with
  | Undefined => "undefined"
  | Null => "object"
  | NumberValue _ => "number"
  | StringValue _ => "string"
  | BooleanValue _ => "boolean"
  end.

(** What a custom validator returns: [true], or anything else; a result
    that is truthy is used as the message.  Validators are taken to return. *)
Inductive custom_result : Type :=
| Accepted
| Refused (message : option string).

(** The rules of one field of a schema; [None] is an absent rule. *)
Record Rules := {
  required : bool;
  type : option string;
  min : option num;
  max : option num;
  minLength : option num;
  maxLength : option num;
  validate : option (js_value -> custom_result)
}.

(** One message pushed on [errors]; the texts are built with template
    strings from the values recorded here. *)
Inductive violation : Type :=
| Required (field : string)
| WrongType (field expected actual : string)
| BelowMin (field : string) (min : num) (value : js_value)
| AboveMax (field : string) (max : num) (value : js_value)
| TooShort (field : string) (minLength : num)
| TooLong (field : string) (maxLength : num)
| FailedCustom (field : string) (message : option string).

(** The call returns nothing, or raises a [ValidationError] whose message
    joins the collected errors. *)
Inductive validation : Type :=
| Valid
| Invalid (errors : list violation).

Section Validation.
(** The conversion of a string to a number the comparison operators apply
    ([Number(s)]), a built-in of the language. *)
Variable string_to_number : string -> num.

(** The operand of [<] and [>] as a number. *)
Definition to_number (v : js_value) : num :=
  match v with
  | Undefined => NaN
  | Null => Fin 0
  | NumberValue x => x
  | StringValue s => string_to_number s
  | BooleanValue b => if b then Fin 1 else Fin 0
  end.

(** [value.length]: defined on strings only, [undefined] (hence [NaN] in a
    comparison) on numbers and booleans. *)
Definition length_of (v : js_value) : num :=
  match v with
  | StringValue s => Fin (INR (String.length s))
  | _ => NaN
  end.

Definition type_is (rules : Rules) (t : string) : bool :=
  match type rules with
  | Some t' => String.eqb t' t
  | None => false
  end.

(** The four checks made on a value that is present, in source order. *)
Definition type_errors (field : string) (rules : Rules) (value : js_value) : list violation :=
  match type rules with
  | Some t =>
      if negb (String.eqb t "") && negb (String.eqb (typeof value) t)
      then [WrongType field t (typeof value)] else []
  | None => []
  end.

Definition range_errors (field : string) (rules : Rules) (value : js_value) : list violation :=
  if type_is rules "number" then
    ((match min rules with
      | Some m => if lt (to_number value) m then [BelowMin field m value] else []
      | None => []
      end)
     ++ (match max rules with
         | Some m => if gt (to_number value) m then [AboveMax field m value] else []
         | None => []
         end))%list
  else [].

Definition length_errors (field : string) (rules : Rules) (value : js_value) : list violation :=
  if type_is rules "string" then
    ((match minLength rules with
      | Some n => if lt (length_of value) n then [TooShort field n] else []
      | None => []
      end)
     ++ (match maxLength rules with
         | Some n => if gt (length_of value) n then [TooLong field n] else []
         | None => []
         end))%list
  else [].

Definition custom_errors (field : string) (rules : Rules) (value : js_value) : list violation :=
  match validate rules with
  | Some f =>
      match f value with
      | Accepted => []
      | Refused message => [FailedCustom field message]
      end
  | None => []
  end.

(** The errors the callback pushes for one field. *)
Definition field_errors (field : string) (rules : Rules) (value : js_value) : list violation :=
  match value with
  | Undefined | Null => if required rules then [Required field] else []
  | _ =>
      (type_errors field rules value ++ range_errors field rules value
       ++ length_errors field rules value ++ custom_errors field rules value)%list
  end.

(** [validateInput(params, schema)]: [params] gives the value read for each
    field name, [schema] lists the fields in the order of [Object.keys].
    A field named like a property that objects inherit (['constructor'],
    ['toString'], ...) would read as a function on a plain [params] object;
    such schemas are outside [js_value]. *)
Definition validateInput (params : string -> js_value) (schema : list (string * Rules))
    : validation :=
  match flat_map (fun entry => field_errors (fst entry) (snd entry) (params (fst entry)))
                 schema with
  | [] => Valid
  | errors => Invalid errors
  end.
End Validation.

(** *** Error metrics *)

(** The fields of a processed error the metrics read. *)
Record ErrorInfo := {
  info_name : string;
  info_code : string
}.

(** [this.errorCounts] (a [Map]) and [this.errorHistory]. *)
Record metrics := {
  errorCounts : gmap string nat;
  errorHistory : list ErrorInfo
}.

(** The state the constructor sets. *)
Definition no_errors : metrics := {| errorCounts := ∅; errorHistory := [] |}.

Definition metrics_key (errorInfo : ErrorInfo) : string :=
  info_name errorInfo ++ "_" ++ info_code errorInfo.

(** [updateErrorMetrics(errorInfo)] *)
Definition updateErrorMetrics (st : metrics) (errorInfo : ErrorInfo) : metrics :=
  let key := metrics_key errorInfo in
  let count := default 0%nat (errorCounts st !! key) in
  let history := (errorHistory st ++ [errorInfo])%list in
  {| errorCounts := <[key := (count + 1)%nat]> (errorCounts st);
     errorHistory := if (100 <? length history)%nat then tail history else history |}.

(** *** retryOperation *)

(** A thrown value, as far as the retry loop looks at it.  JavaScript can
    throw any value: on [undefined] and [null] reading [message] raises a
    [TypeError]; on every other value the read gives its [message] property
    ([undefined] when it has none), which a template renders as text. *)
Inductive thrown : Type :=
| Nullish
| Thrown (message : string).

(** [error.message] can be read. *)
Definition has_message (e : thrown) : bool :=
  match e with
  | Nullish => false
  | Thrown _ => true
  end.

(** What one call of [operation] does. *)
Inductive outcome (A : Type) : Type :=
| Resolved (v : A)
| Rejected (e : thrown).
Arguments Resolved {A} v.
Arguments Rejected {A} e.

(** How [retryOperation] ends: with the result of the operation, with a
    [DeFiError] of code [RETRY_EXHAUSTED] carrying the last error and an
    attempt count, or with the [TypeError] of reading [message] on
    [undefined] or [null]: in the warning logged before a retry, or in the
    text of the final error (also when the loop body never ran, where the
    last error is still [undefined]). *)
Inductive retry_result (A : Type) : Type :=
| Returned (v : A)
| RetryExhausted (originalError : thrown) (attempts : Z)
| TypeError.
Arguments Returned {A} v.
Arguments RetryExhausted {A} originalError attempts.
Arguments TypeError {A}.

(** A run: the number of calls of [operation], the delays slept in order,
    and the end. *)
Record retry_run (A : Type) := {
  calls : nat;
  slept : list num;
  result : retry_result A
}.
Arguments calls {A} r.
Arguments slept {A} r.
Arguments result {A} r.

Section Retry.
Context {A : Type}.
(** [operation k] is what the call number [k] (from 0) of the operation does. *)
Variable operation : nat -> outcome A.
Variable retryCondition : thrown -> bool.
Variable baseDelay : num.
Variable exponentialBackoff : bool.
Variable maxRetries : Z.

Definition delay (attempt : nat) : num :=
  if exponentialBackoff then mul baseDelay (Fin (2 ^ attempt)) else baseDelay.

(** The end of the loop on [break]: the text of the [DeFiError] reads
    [lastError.message]. *)
Definition exhausted (attempt : nat) (slept : list num) (lastError : thrown) : retry_run A :=
  {| calls := S attempt; slept := slept;
     result := if has_message lastError then RetryExhausted lastError (maxRetries + 1)
               else TypeError |}.

(** The loop from [attempt], with [remaining = maxRetries - attempt].  The
    warning logged before a retry reads [error.message], before the sleep. *)
Fixpoint retry_loop (attempt remaining : nat) (slept : list num) : retry_run A :=
  match operation attempt with
  | Resolved v => {| calls := S attempt; slept := slept; result := Returned v |}
  | Rejected e =>
      match remaining with
      | O => exhausted attempt slept e
      | S remaining' =>
          if retryCondition e
          then if has_message e
               then retry_loop (S attempt) remaining' (slept ++ [delay attempt])%list
               else {| calls := S attempt; slept := slept; result := TypeError |}
          else exhausted attempt slept e
      end
  end.

(** [retryOperation(operation, options)] for an integer [maxRetries]. *)
Definition retryOperation : retry_run A :=
  if (maxRetries <? 0)%Z then {| calls := 0; slept := []; result := TypeError |}
  else retry_loop 0 (Z.to_nat maxRetries) [].
End Retry.
End ErrorHandler.

(** ** JavaScript numbers as doubles, with an unspecified rounding

    An operation of IEEE 754 arithmetic is the exact operation followed by
    a rounding of the real result to a double or an infinity.  Here the
    rounding is a parameter [round]; a property proved from an assumption
    about [round] holds in every arithmetic that meets the assumption. *)

Module Double.
Import Number.
Open Scope R_scope.

Section Rounding.
Variable round : R -> num.

Definition rounded (a : num) : num :=
  match a with
  | Fin x => round x
  | other => other
  end.

Definition add (a b : num) : num := rounded (Number.add a b).
Definition sub (a b : num) : num := rounded (Number.sub a b).
Definition mul (a b : num) : num := rounded (Number.mul a b).
Definition div (a b : num) : num := rounded (Number.div a b).
Definition sqrt (a : num) : num := rounded (Number.sqrt a).

(** A decimal literal of the source, such as [0.3], denotes the double
    nearest to it; integer literals of the sources are doubles themselves. *)
Definition literal (x : R) : num := round x.
End Rounding.

(** The standard model of floating-point arithmetic: a real result whose
    magnitude lies in the normal range [[lo, hi]] is rounded to a finite
    number [y] with a relative error of at most [u], [|y - x| <= u |y|].
    Binary64 with rounding to nearest meets it for [u = 2^-53],
    [lo = 2^-1022] and [hi] the largest double. *)
Definition standard_model (round : R -> num) (u lo hi : R) : Prop :=
  forall x, lo <= Rabs x <= hi ->
            exists y, round x = Fin y /\ Rabs (y - x) <= u * Rabs y.

(** An arithmetic of the standard model in which every result comes out
    too large by the factor [1 + u]. *)
Definition inflating (u : R) (x : R) : num := Fin (x * (1 + u)).

(** The unit roundoff of binary64, [2^-53]. *)
Definition u64 : R := / IZR (2 ^ 53).

(** The relative distance two roundings can put between a product and its
    exact value: [1 / (1 - u)^2 - 1], about [2 u]. *)
Definition two_roundings (u : R) : R := / (1 - u) * / (1 - u) - 1.
End Double.

(** ** class BaseYieldCalculator in the arithmetic of [Double]

    The functions below are those of [BaseYieldCalculator] above, read with
    rounded operations. *)

Module DoubleYieldCalculator.
Import Number BaseYieldCalculator.
Open Scope R_scope.
Open Scope string_scope.

Section Arithmetic.
Variable round : R -> num.

#[local] Abbreviation add := (Double.add round).
#[local] Abbreviation sub := (Double.sub round).
#[local] Abbreviation mul := (Double.mul round).
#[local] Abbreviation div := (Double.div round).
#[local] Abbreviation sqrt := (Double.sqrt round).
#[local] Abbreviation literal := (Double.literal round).

(** *** optimizeYieldStrategy *)

Definition set_scores (s : Strategy) : Strategy :=
  let rar := div (apy s)
                 (or_default (Some (risk s)) (literal 0.1)) in
  {| name := name s;
     apy := apy s;
     risk := risk s;
     liquidity := liquidity s;
     riskAdjustedReturn := Some rar;
     score :=
       Some (mul rar (add (Fin 1) (div (liquidity s) (Fin 100)))) |}.

Definition score_strategies (h : store) (valid : list loc)
    : store :=
  fold_left (fun h l => alter set_scores l h) valid h.

(** The comparator [(a, b) => b.score - a.score]. *)
Definition by_score (h : store) (a b : loc) : num :=
  sub (score_of h b) (score_of h a).

Fixpoint insert_by_score (h : store) (a : loc)
    (sorted : list loc) : list loc :=
  match sorted with
  | [] => [a]
  | b :: rest =>
      if gt (by_score h a b) (Fin 0) then b :: insert_by_score h a rest
      else a :: sorted
  end.

Definition sort_by_score (h : store) (arr : list loc)
    : list loc :=
  fold_right (insert_by_score h) [] arr.

(** One iteration of the [for ... of] loop, after the [break] test. *)
Definition allocate_step (totalCapital maxAllocationPerStrategy : num)
    (st : allocating) (s : Strategy)
    : allocating :=
  let maxAllocation :=
    min (min (remainingCapital st)
             (mul totalCapital maxAllocationPerStrategy))
        (mul totalCapital (literal 0.8)) in
  let allocation :=
    min maxAllocation (mul (remainingCapital st) (literal 0.3)) in
  if gt allocation (Fin 1000) then
    {| allocations :=
         allocations st ++
         [ {| strategy := name s;
              allocation := allocation;
              percentage :=
                Cat (Fixed 1 (mul (div allocation totalCapital) (Fin 100))) (Lit "%");
              expectedReturn :=
                Fixed 2 (div (mul allocation (apy s)) (Fin 100));
              allocation_risk := risk s;
              allocation_apy :=
                Cat (NumStr (apy s)) (Lit "%") |} ];
       remainingCapital :=
         sub (remainingCapital st) allocation;
       totalAllocatedRisk :=
         add (totalAllocatedRisk st)
             (mul (div allocation totalCapital) (risk s)) |}
  else st.

Fixpoint allocate (totalCapital maxAllocationPerStrategy : num)
    (valid : list Strategy) (st : allocating)
    : allocating :=
  match valid with
  | [] => st
  | s :: rest =>
      if le (remainingCapital st) (Fin 0) then st
      else allocate totalCapital maxAllocationPerStrategy rest
             (allocate_step totalCapital maxAllocationPerStrategy st s)
  end.

Definition portfolio_metrics (totalCapital : num) (st : allocating)
    : PortfolioMetrics :=
  let totalAllocated := sub totalCapital (remainingCapital st) in
  let weightedAPY :=
    fold_left (fun sum alloc =>
                 add sum (mul (div (parseFloat_fixed (expectedReturn alloc))
                                   totalAllocated)
                              (Fin 100)))
              (allocations st) (Fin 0) in
  {| totalAllocated := Fixed 2 totalAllocated;
     remainingCash := Fixed 2 (remainingCapital st);
     weightedAPY := Cat (Fixed 2 weightedAPY) (Lit "%");
     portfolioRisk :=
       Cat (Fixed 2 (mul (totalAllocatedRisk st) (Fin 100))) (Lit "%");
     diversificationScore :=
       if (3 <=? length (allocations st))%nat then "Good"
       else "Needs improvement";
     metrics_riskLevel :=
       if lt (totalAllocatedRisk st) (literal 0.15) then "Conservative"
       else if lt (totalAllocatedRisk st) (literal 0.25) then "Moderate"
       else "Aggressive" |}.

(** [optimizeYieldStrategy(strategies, constraints = {})] *)
Definition optimizeYieldStrategy (h : store)
    (strategies : list loc) (constraints : Constraints)
    : store * Optimization :=
  let maxRisk := param (maxRisk constraints) (literal 0.3) in
  let minYield := param (minYield constraints) (Fin 5) in
  let maxAllocationPerStrategy :=
    param (maxAllocationPerStrategy constraints) (literal 0.4) in
  let totalCapital := param (totalCapital constraints) (Fin 100000) in
  let valid := validStrategies h minYield maxRisk strategies in
  match valid with
  | [] => (h, NoStrategies "No strategies meet the specified constraints")
  | _ :: _ =>
      let h' := score_strategies h valid in
      let sorted := sort_by_score h' valid in
      let st := allocate totalCapital maxAllocationPerStrategy
                  (omap (fun l => h' !! l) sorted)
                  {| allocations := [];
                     remainingCapital := totalCapital;
                     totalAllocatedRisk := Fin 0 |} in
      (h', Optimized (allocations st)
             (portfolio_metrics totalCapital st))
  end.

(** *** calculateAdvancedImpermanentLoss *)

(** The constants of the [map] callback for one scenario. *)
Definition simulate (poolData : PoolData)
    (scenario : Scenario) : scenario_locals :=
  let initialRatio :=
    div (token0Price poolData) (token1Price poolData) in
  let newToken0Price :=
    mul (token0Price poolData)
        (add (Fin 1) (token0Change scenario)) in
  let newToken1Price :=
    mul (token1Price poolData)
        (add (Fin 1) (token1Change scenario)) in
  let newRatio := div newToken0Price newToken1Price in
  let priceRatioChange := div newRatio initialRatio in
  let impermanentLoss :=
    sub (div (mul (Fin 2) (sqrt priceRatioChange)) (add (Fin 1) priceRatioChange)) (Fin 1) in
  let k :=
    mul (token0Amount poolData) (token1Amount poolData) in
  let newToken0Amount := sqrt (mul k newRatio) in
  let newToken1Amount := div k newToken0Amount in
  {| newToken0Price := newToken0Price;
     newToken1Price := newToken1Price;
     newRatio := newRatio;
     priceRatioChange := priceRatioChange;
     scenario_impermanentLoss := impermanentLoss;
     k := k;
     newToken0Amount := newToken0Amount;
     newToken1Amount := newToken1Amount;
     poolValue :=
       add (mul newToken0Amount newToken0Price) (mul newToken1Amount newToken1Price);
     holdValue :=
       add (mul (token0Amount poolData) newToken0Price)
           (mul (token1Amount poolData) newToken1Price) |}.
End Arithmetic.
End DoubleYieldCalculator.

(** ** JavaScript numbers as IEEE 754 binary64

    The kernel's primitive floats: binary64 with rounding to nearest, ties
    to even, the arithmetic of JavaScript numbers.  The functions below are
    those of [BaseYieldCalculator], read with the operations of doubles, to
    run them on given inputs. *)

Module Binary64.
#[local] Set Warnings "-inexact-float".
Open Scope float_scope.

(** The rational number a finite double denotes. *)
Definition exact (x : float) : option Q :=
  match Prim2SF x with
  | S754_zero _ => Some 0%Q
  | S754_finite s m e =>
      let v := match e with
               | Z0 => inject_Z (Zpos m)
               | Zpos p => inject_Z (Zpos m * 2 ^ Zpos p)
               | Zneg p => Qmake (Zpos m) (2 ^ p)
               end in
      Some (if s then Qopp v else v)
  | S754_infinity _ | S754_nan => None
  end.

(** The number [x.toFixed(digits)] denotes: the decimal with [digits]
    decimals nearest to the exact value of [x], ties away from zero. *)
Definition toFixed (digits : positive) (x : float) : option Q :=
  option_map (BigNumber.round_half_up digits) (exact x).

(** [Math.min(a, b)] *)
Definition min (a b : float) : float :=
  if orb (PrimFloat.is_nan a) (PrimFloat.is_nan b) then nan
  else if b <? a then b else a.

(** [x || d] for a number [x]: zero and [NaN] are falsy. *)
Definition or_default (x d : float) : float :=
  if orb (x =? 0) (PrimFloat.is_nan x) then d else x.

(** *** calculateImpermanentLoss *)

Record ImpermanentLoss := {
  priceRatio : float;
  impermanentLoss : float;
  lossPercentage : float
}.

Definition calculateImpermanentLoss (initialPrice currentPrice : float) : ImpermanentLoss :=
  let priceRatio := currentPrice / initialPrice in
  let impermanentLoss := (2 * PrimFloat.sqrt priceRatio) / (1 + priceRatio) - 1 in
  {| priceRatio := priceRatio;
     impermanentLoss := impermanentLoss;
     lossPercentage := PrimFloat.abs (impermanentLoss * 100) |}.

(** *** optimizeYieldStrategy *)

Record Strategy := {
  name : string;
  apy : float;
  risk : float;
  liquidity : float;
  score : float
}.

Record Constraints := {
  maxRisk : float;
  minYield : float;
  maxAllocationPerStrategy : float;
  totalCapital : float
}.

Definition default_constraints : Constraints :=
  {| maxRisk := 0.3; minYield := 5; maxAllocationPerStrategy := 0.4; totalCapital := 100000 |}.

Definition set_scores (s : Strategy) : Strategy :=
  let rar := apy s / or_default (risk s) 0.1 in
  {| name := name s; apy := apy s; risk := risk s; liquidity := liquidity s;
     score := rar * (1 + liquidity s / 100) |}.

Fixpoint insert_by_score (a : Strategy) (sorted : list Strategy) : list Strategy :=
  match sorted with
  | [] => [a]
  | b :: rest =>
      if 0 <? score b - score a then b :: insert_by_score a rest
      else a :: sorted
  end.

Definition sort_by_score (arr : list Strategy) : list Strategy :=
  fold_right insert_by_score [] arr.

Record Allocation := {
  strategy : string;
  allocation : float;
  allocation_risk : float
}.

Record allocating := {
  allocations : list Allocation;
  remainingCapital : float
}.

Definition allocate_step (c : Constraints) (st : allocating) (s : Strategy) : allocating :=
  let maxAllocation :=
    min (min (remainingCapital st) (totalCapital c * maxAllocationPerStrategy c))
        (totalCapital c * 0.8) in
  let allocation := min maxAllocation (remainingCapital st * 0.3) in
  if 1000 <? allocation then
    {| allocations :=
         (allocations st ++
          [ {| strategy := name s; allocation := allocation; allocation_risk := risk s |} ])%list;
       remainingCapital := remainingCapital st - allocation |}
  else st.

Fixpoint allocate (c : Constraints) (valid : list Strategy) (st : allocating) : allocating :=
  match valid with
  | [] => st
  | s :: rest =>
      if remainingCapital st <=? 0 then st
      else allocate c rest (allocate_step c st s)
  end.

(** [optimizeYieldStrategy(strategies, constraints)]: the allocations and
    the capital that remains ([None] when no strategy passes the filter). *)
Definition optimizeYieldStrategy (strategies : list Strategy) (c : Constraints)
    : option allocating :=
  let valid :=
    List.filter (fun s => andb (minYield c <=? apy s) (risk s <=? maxRisk c)) strategies in
  match valid with
  | [] => None
  | _ :: _ =>
      Some (allocate c (sort_by_score (map set_scores valid))
              {| allocations := []; remainingCapital := totalCapital c |})
  end.

(** The sum of the allocated amounts as a rational number. *)
Definition exact_sum (amounts : list float) : option Q :=
  fold_left (fun sum x =>
               match sum, exact x with
               | Some s, Some v => Some (Qred (s + v))
               | _, _ => None
               end)
            amounts (Some 0%Q).

(** *** calculateAdvancedImpermanentLoss *)

Record PoolData := {
  token0Amount : float;
  token1Amount : float;
  token0Price : float;
  token1Price : float
}.

Record Scenario := {
  token0Change : float;
  token1Change : float
}.

Record scenario_locals := {
  newToken0Price : float;
  newToken1Price : float;
  newRatio : float;
  priceRatioChange : float;
  scenario_impermanentLoss : float;
  k : float;
  newToken0Amount : float;
  newToken1Amount : float;
  poolValue : float;
  holdValue : float
}.

Definition simulate (poolData : PoolData) (scenario : Scenario) : scenario_locals :=
  let initialRatio := token0Price poolData / token1Price poolData in
  let newToken0Price := token0Price poolData * (1 + token0Change scenario) in
  let newToken1Price := token1Price poolData * (1 + token1Change scenario) in
  let newRatio := newToken0Price / newToken1Price in
  let priceRatioChange := newRatio / initialRatio in
  let impermanentLoss :=
    (2 * PrimFloat.sqrt priceRatioChange) / (1 + priceRatioChange) - 1 in
  let k := token0Amount poolData * token1Amount poolData in
  let newToken0Amount := PrimFloat.sqrt (k * newRatio) in
  let newToken1Amount := k / newToken0Amount in
  {| newToken0Price := newToken0Price;
     newToken1Price := newToken1Price;
     newRatio := newRatio;
     priceRatioChange := priceRatioChange;
     scenario_impermanentLoss := impermanentLoss;
     k := k;
     newToken0Amount := newToken0Amount;
     newToken1Amount := newToken1Amount;
     poolValue := newToken0Amount * newToken0Price + newToken1Amount * newToken1Price;
     holdValue := token0Amount poolData * newToken0Price
                  + token1Amount poolData * newToken1Price |}.

(** [2^-53] and the distance [1 / (1 - 2^-53)^2 - 1] of two roundings, as
    rational numbers. *)
Definition u64 : Q := 1 # (2 ^ 53).
Definition two_roundings : Q := (/ (1 - u64) * / (1 - u64) - 1)%Q.
End Binary64.

(** ** The search of [calculateOptimalCompounding] as a plain fold *)

Module CompoundingSearch.
Import BigNumber YieldCalculator.
Open Scope Q_scope.

(** The value [calculateAPY] returns. *)
Definition apy_value (apr : Q) (n : positive) : Q :=
  multipliedBy (minus (pow (plus (dividedBy (dividedBy apr 100) (ofPos n)) 1) n) 1) 100.

(** [grossYield] in the callback: it does not depend on the gas cost. *)
Definition gross_value (apr principal : Q) (freq : positive) : Q :=
  multipliedBy principal (dividedBy (apy_value apr freq) 100).

(** [netYield] for an arbitrary gross yield per frequency. *)
Definition net_of (gross : positive -> Q) (gasCost : Q) (freq : positive) : Q :=
  minus (gross freq) (multipliedBy gasCost (ofPos freq)).

(** The value [netYield] returns. *)
Definition net_value (apr gasCost principal : Q) (freq : positive) : Q :=
  net_of (gross_value apr principal) gasCost freq.

(** The callback for an arbitrary net yield per frequency. *)
Definition step (net : positive -> Q) (st : positive * Q) (freq : positive) : positive * Q :=
  if isGreaterThan (net freq) (snd st) then (freq, net freq) else st.

Definition search (net : positive -> Q) (candidates : list positive) (st : positive * Q)
    : positive * Q :=
  fold_left (step net) candidates st.

(** What the search has found after the candidates [l]: nothing above zero,
    or the first candidate of greatest net yield. *)
Definition found (net : positive -> Q) (l : list positive) (st : positive * Q) : Prop :=
  (st = (1%positive, 0) /\ forall u, In u l -> net u <= 0)
  \/ (exists l1 l2,
        l = l1 ++ fst st :: l2 /\ snd st = net (fst st) /\ 0 < net (fst st) /\
        (forall u, In u l1 -> net u < net (fst st)) /\
        (forall u, In u l2 -> net u <= net (fst st))).
End CompoundingSearch.

(** ** Enclosures of the decimal computations

    [(1 + rate)^365] has several thousand digits.  The values below enclose
    it between decimals of [prec] digits, computed with the recursion of
    [Qpower_positive] and rounded outwards after every multiplication. *)

Module Enclosure.
Import BigNumber YieldCalculator CompoundingSearch.
Open Scope Q_scope.

Definition down (prec : positive) (q : Q) : Q :=
  Qfloor (q * inject_Z (Zpos (10 ^ prec))) # (10 ^ prec).

Definition up (prec : positive) (q : Q) : Q :=
  Qceiling (q * inject_Z (Zpos (10 ^ prec))) # (10 ^ prec).

Fixpoint pow_lower (prec : positive) (x : Q) (i : positive) : Q :=
  match i with
  | xH => x
  | xO i => let p := pow_lower prec x i in down prec (p * p)
  | xI i => let p := pow_lower prec x i in down prec (x * (p * p))
  end.

Fixpoint pow_upper (prec : positive) (x : Q) (i : positive) : Q :=
  match i with
  | xH => x
  | xO i => let p := pow_upper prec x i in up prec (p * p)
  | xI i => let p := pow_upper prec x i in up prec (x * (p * p))
  end.

(** Half a unit of the last decimal kept by [dividedBy]. *)
Definition half_ulp : Q := 1 # (2 * 10 ^ DECIMAL_PLACES).

(** [compoundRate] in [calculateAPY]. *)
Definition rate (apr : Q) (n : positive) : Q := dividedBy (dividedBy apr 100) (ofPos n).

Definition apy_lower (prec : positive) (apr : Q) (n : positive) : Q :=
  (pow_lower prec (rate apr n + 1) n - 1) * 100.

Definition apy_upper (prec : positive) (apr : Q) (n : positive) : Q :=
  (pow_upper prec (rate apr n + 1) n - 1) * 100.

Definition net_lower (prec : positive) (apr gasCost principal : Q) (freq : positive) : Q :=
  principal * (apy_lower prec apr freq / 100 - half_ulp) - gasCost * inject_Z (Zpos freq).

Definition net_upper (prec : positive) (apr gasCost principal : Q) (freq : positive) : Q :=
  principal * (apy_upper prec apr freq / 100 + half_ulp) - gasCost * inject_Z (Zpos freq).
End Enclosure.

(** ** Notions used to state the properties *)

Module Notions.
Import Number BaseYieldCalculator.

(** A series in which no price is below the one before it. *)
Fixpoint non_decreasing (prices : list num) : Prop :=
  match prices with
  | a :: rest =>
      match rest with
      | b :: _ => le a b = true /\ non_decreasing rest
      | [] => True
      end
  | [] => True
  end.

(** The allocations of the object the optimizer returns. *)
Definition allocations_of (r : Optimization) : list Allocation :=
  match r with
  | NoStrategies _ => []
  | Optimized allocations _ => allocations
  end.

(** The portfolio variance as the specification words it: weights
    [w_i = value_i / totalValue] over the total of all positions, the sum of
    [w_i^2 sigma_i^2], plus twice the sum over [i < j] of
    [w_i w_j sigma_i sigma_j rho_ij]; [sigma] is 0.3 where the volatility is
    unspecified. *)
Definition spec_total_value (positions : list Position) : num :=
  fold_left (fun sum p => add sum (mul (amount p) (price p))) positions (Fin 0).

Definition spec_weight (positions : list Position) (p : Position) : num :=
  div (mul (amount p) (price p)) (spec_total_value positions).

Definition spec_sigma (p : Position) : num := param (volatility p) (Fin 0.3).

Fixpoint spec_pair_sum (w : Position -> num) (positions : list Position) : num :=
  match positions with
  | [] => Fin 0
  | pi :: rest =>
      add (fold_left
             (fun sum pj =>
                add sum (mul (mul (mul (mul (w pi) (w pj)) (spec_sigma pi)) (spec_sigma pj))
                             (BaseRiskAssessment.getAssetCorrelation (asset pi) (asset pj))))
             rest (Fin 0))
          (spec_pair_sum w rest)
  end.

Definition spec_variance (positions : list Position) : num :=
  let w := spec_weight positions in
  add (fold_left (fun sum p => add sum (mul (pow2 (w p)) (pow2 (spec_sigma p))))
                 positions (Fin 0))
      (mul (Fin 2) (spec_pair_sum w positions)).

(** A strategy object without the two fields the optimizer writes. *)
Definition without_scores (s : Strategy) : Strategy :=
  {| name := name s; apy := apy s; risk := risk s; liquidity := liquidity s;
     riskAdjustedReturn := None; score := None |}.

(** The relative decline from a price [a] to a price [b]. *)
Definition decline (a b : R) : R := ((a - b) / a)%R.

(** [M] is the highest price of the series [pre]: the running peak of the
    scan once it has read [pre]. *)
Definition highest (pre : list R) (M : R) : Prop :=
  In M pre /\ forall a, In a pre -> (a <= M)%R.

(** [a] stands at an earlier index of the series than [b]. *)
Definition before (xs : list R) (a b : R) : Prop :=
  exists i j, (i < j)%nat /\ nth_error xs i = Some a /\ nth_error xs j = Some b.

(** The state of the drawdown scan after the prices [pre], all above zero. *)
Definition scanned (pre : list R) (st : drawdown_scan) : Prop :=
  exists M d,
    peak st = Fin M /\ maxDrawdown st = Fin d /\
    (0 < M)%R /\ nth_error pre (currentDrawdownStart st) = Some M /\
    (forall a, In a pre -> (a <= M)%R) /\
    (0 <= d < 1)%R /\
    (forall a b, before pre a b -> (decline a b <= d)%R) /\
    ((d = 0%R /\ drawdownStart st = 0%nat /\ drawdownEnd st = 0%nat) \/
     ((0 < d)%R /\ (drawdownStart st < drawdownEnd st)%nat /\
      exists a b, nth_error pre (drawdownStart st) = Some a /\
                  nth_error pre (drawdownEnd st) = Some b /\ decline a b = d)).

(** The object [calculateMaxDrawdown] builds from the final state of its scan. *)
Definition drawdown_result (prices : list num) (st : drawdown_scan) : Drawdown :=
  {| dd_maxDrawdown := VText (Cat (Fixed 2 (mul (maxDrawdown st) (Fin 100))) (Lit "%"));
     drawdownPeriod := Z.of_nat (drawdownEnd st) - Z.of_nat (drawdownStart st);
     peakValue := Some (Fixed 2 (peak st));
     troughValue :=
       Some (match nth_error prices (drawdownEnd st) with
             | Some p => Fixed 2 p
             | None => Lit "N/A"
             end);
     recovery :=
       if gt (maxDrawdown st) (Fin 0) then "Monitoring required"%string
       else "No significant drawdown"%string |}.

(** An allocated amount within the limits the loop applies to a total
    capital [t]: above the threshold of 1000, at most 30% of the capital and
    at most the share [m] of it allowed per strategy. *)
Definition bounded_allocation (t : R) (m : num) (a : Allocation) : Prop :=
  exists x, allocation a = Fin x /\ (1000 < x <= 0.3 * t)%R
            /\ le (Fin x) (mul (Fin t) m) = true.

(** The invariant of the allocation loop for a finite capital [t] above
    zero: every step leaves at least 70% of the remaining capital. *)
Definition keeps_cash (t : R) (m : num) (st : allocating) : Prop :=
  exists r, remainingCapital st = Fin r
            /\ (0.7 ^ length (allocations st) * t <= r <= t)%R
            /\ Forall (bounded_allocation t m) (allocations st).

(** The amount the allocation loop considers for one strategy when [r] of
    the total capital [t] remains. *)
Definition candidate (t : R) (m : num) (r : R) : num :=
  min (min (min (Fin r) (mul (Fin t) m)) (mul (Fin t) (Fin 0.8))) (mul (Fin r) (Fin 0.3)).

(** No allocation is above one listed before it. *)
Definition non_increasing (allocs : list Allocation) : Prop :=
  forall i j a b,
    (i < j)%nat -> nth_error allocs i = Some a -> nth_error allocs j = Some b ->
    le (allocation b) (allocation a) = true.

(** The invariant of the allocation loop behind [non_increasing]: no later
    candidate exceeds an amount already allocated. *)
Definition allocating_down (t : R) (m : num) (st : allocating) : Prop :=
  exists r,
    remainingCapital st = Fin r /\ (0 < r)%R
    /\ (forall a r' x', In a (allocations st) -> (r' <= r)%R -> candidate t m r' = Fin x' ->
        exists x, allocation a = Fin x /\ (x' <= x)%R)
    /\ non_increasing (allocations st).



(** A position whose amount and price are finite with a product above zero. *)
Definition valued (p : Position) : Prop :=
  exists a b, amount p = Fin a /\ price p = Fin b /\ (0 < a * b)%R.

(** [1e100]: magnitudes up to it keep every product and sum of the risk
    functions far from the overflow threshold of a double (about 1.8e308),
    and magnitudes down to [1e-100] keep them away from underflow. *)
Definition huge : R := IZR (10 ^ 100).

(** A position whose amount and price are finite with a product between
    [1e-100] and [1e100]. *)
Definition moderate (p : Position) : Prop :=
  exists a b, amount p = Fin a /\ price p = Fin b /\ (/ huge <= a * b <= huge)%R.

(** The volatility the risk functions use for a position
    ([position.volatility || 0.3]) is the finite number [s]. *)
Definition sigma (p : Position) (s : R) : Prop :=
  or_default (volatility p) (Fin 0.3) = Fin s.

(** The value [amount * price] of a position, where it is finite. *)
Definition value_of (p : Position) : R :=
  match mul (amount p) (price p) with
  | Fin v => v
  | _ => 0%R
  end.

Definition sum_of (xs : list R) : R := fold_right Rplus 0%R xs.

Definition sum_of_squares (xs : list R) : R := fold_right (fun x acc => (x * x + acc)%R) 0%R xs.

(** The invariant of the allocation loop in double arithmetic, for a
    finite capital [t] above zero and a relative rounding error of at most
    [u]: the amounts allocated and the capital that remains exceed [t] by
    at most one rounding error [u * t] for each subtraction made, and once
    something is allocated at least 2000 remains. *)
Definition allocated_within (u t : R) (st : allocating) : Prop :=
  exists r amounts,
    remainingCapital st = Fin r
    /\ map allocation (allocations st) = map Fin amounts
    /\ (0 < r <= t)%R
    /\ (sum_of amounts + r <= t + INR (length amounts) * (u * t))%R
    /\ (amounts <> [] -> 2000 <= r)%R.

(** A string without the separator of the correlation keys. *)
Fixpoint hyphen_free (s : string) : bool :=
  match s with
  | EmptyString => true
  | String c rest => negb (Ascii.eqb c "-"%char) && hyphen_free rest
  end.

(** The volatility used for a position is a finite number that is not negative. *)
Definition sigma_nonneg (p : Position) : Prop := exists s, sigma p s /\ (0 <= s)%R.

(** The volatility used for a position is a finite number of magnitude at
    most [1e100]. *)
Definition sigma_moderate (p : Position) : Prop :=
  exists s, sigma p s /\ (Rabs s <= huge)%R.

(** The amounts of a table of value-at-risk results, by confidence level. *)
Definition var_amounts (results : list (string * BaseRiskAssessment.VaRAmount))
    : list (string * text) :=
  map (fun entry => (fst entry, BaseRiskAssessment.var_amount (snd entry))) results.
End Notions.

(** * Properties *)

(** ** YieldCalculator *)

Module YieldCalculatorProperties.
Import BigNumber YieldCalculator CompoundingSearch Enclosure.
Open Scope Q_scope.

Lemma isGreaterThan_true (x y : Q) : isGreaterThan x y = true <-> y < x.
Proof.
  unfold isGreaterThan. destruct (Qlt_le_dec y x) as [H | H].
  - tauto.
  - split; [discriminate | intros H'; exfalso; apply (Qlt_not_le _ _ H' H)].
Qed.

Lemma isGreaterThan_false (x y : Q) : isGreaterThan x y = false <-> x <= y.
Proof.
  unfold isGreaterThan. destruct (Qlt_le_dec y x) as [H | H].
  - split; [discriminate | intros H'; exfalso; apply (Qlt_not_le _ _ H H')].
  - tauto.
Qed.

Lemma calculateAPY_value (apr : Q) (n : positive) :
  calculateAPY apr n = Normal (apy_value apr n).
Proof. reflexivity. Qed.

Lemma netYield_value (apr gasCost principal : Q) (freq : positive) :
  netYield apr gasCost principal freq = Normal (net_value apr gasCost principal freq).
Proof. reflexivity. Qed.

Lemma compounding_step_value (apr gasCost principal : Q) (st : positive * Q) (freq : positive) :
  compounding_step apr gasCost principal st freq
  = Normal (step (net_value apr gasCost principal) st freq).
Proof.
  unfold compounding_step, step. rewrite netYield_value. simpl.
  destruct (isGreaterThan _ _); reflexivity.
Qed.

Lemma forEach_compounding (apr gasCost principal : Q) (l : list positive) (st : positive * Q) :
  forEach (compounding_step apr gasCost principal) l st
  = Normal (search (net_value apr gasCost principal) l st).
Proof.
  revert st. induction l as [| f l IH]; intros st; simpl.
  - reflexivity.
  - rewrite compounding_step_value. simpl. apply IH.
Qed.

Lemma calculateOptimalCompounding_value (apr gasCost principal : Q) :
  calculateOptimalCompounding apr gasCost principal
  = Normal
      {| optimalFrequency :=
           fst (search (net_value apr gasCost principal) frequencies (1%positive, 0));
         maxNetYield :=
           snd (search (net_value apr gasCost principal) frequencies (1%positive, 0));
         recommendedStrategy :=
           getCompoundingStrategy
             (fst (search (net_value apr gasCost principal) frequencies (1%positive, 0))) |}.
Proof.
  unfold calculateOptimalCompounding. rewrite forEach_compounding. reflexivity.
Qed.

Lemma search_app (net : positive -> Q) (l : list positive) (f : positive) (st : positive * Q) :
  search net (l ++ [f]) st = step net (search net l st) f.
Proof. unfold search. rewrite fold_left_app. reflexivity. Qed.

(** The search keeps the first candidate of greatest net yield, unless no
    candidate has a net yield above zero. *)
Lemma search_found (net : positive -> Q) (l : list positive) :
  found net l (search net l (1%positive, 0)).
Proof.
  induction l as [| f l IH] using rev_ind.
  - left. split; [reflexivity | intros u []].
  - rewrite search_app. unfold step.
    remember (search net l (1%positive, 0)) as st eqn:Hsearch. clear Hsearch.
    destruct (isGreaterThan (net f) (snd st)) eqn:E.
    + apply isGreaterThan_true in E. right. exists l, []. simpl.
      destruct IH as [[Hst Hle] | (l1 & l2 & Hl & Hm & Hpos & Hbefore & Hafter)].
      * rewrite Hst in E. simpl in E.
        repeat split; auto; [| intros u []].
        intros u Hu. apply Qle_lt_trans with 0; auto.
      * rewrite Hm in E.
        repeat split; auto.
        -- apply Qlt_trans with (net (fst st)); auto.
        -- intros u Hu. rewrite Hl in Hu. apply in_app_or in Hu.
           destruct Hu as [Hu | [Hu | Hu]].
           ++ apply Qlt_trans with (net (fst st)); auto.
           ++ subst u. exact E.
           ++ apply Qle_lt_trans with (net (fst st)); auto.
        -- intros u [].
    + apply isGreaterThan_false in E.
      destruct IH as [[Hst Hle] | (l1 & l2 & Hl & Hm & Hpos & Hbefore & Hafter)].
      * left. split; [exact Hst |].
        rewrite Hst in E. simpl in E.
        intros u Hu. apply in_app_or in Hu. destruct Hu as [Hu | [Hu | []]]; auto.
        subst u. exact E.
      * right. exists l1, (l2 ++ [f]).
        rewrite Hm in E.
        repeat split; auto.
        -- rewrite Hl. rewrite <- app_assoc. reflexivity.
        -- intros u Hu. apply in_app_or in Hu. destruct Hu as [Hu | [Hu | []]]; auto.
           subst u. exact E.
Qed.

Lemma found_greatest (net : positive -> Q) (l : list positive) (st : positive * Q) (u : positive) :
  found net l st -> 0 < net (fst st) -> In u l -> net u <= net (fst st).
Proof.
  intros [[Hst Hle] | (l1 & l2 & Hl & Hm & Hpos & Hbefore & Hafter)] Hgt Hu.
  - apply Qle_trans with 0; [auto | apply Qlt_le_weak; exact Hgt].
  - rewrite Hl in Hu. apply in_app_or in Hu. destruct Hu as [Hu | [Hu | Hu]].
    + apply Qlt_le_weak; auto.
    + subst u. apply Qle_refl.
    + auto.
Qed.

(** Net yields that agree lead the search to the same frequency. *)
Lemma search_ext (net1 net2 : positive -> Q) (l : list positive) (st1 st2 : positive * Q) :
  (forall u, net1 u == net2 u) -> fst st1 = fst st2 -> snd st1 == snd st2 ->
  fst (search net1 l st1) = fst (search net2 l st2)
  /\ snd (search net1 l st1) == snd (search net2 l st2).
Proof.
  intros Hnet. revert st1 st2. induction l as [| f l IH]; intros st1 st2 Hf Hm; simpl.
  - split; assumption.
  - apply IH; unfold step.
    + destruct (isGreaterThan (net1 f) (snd st1)) eqn:E1;
        destruct (isGreaterThan (net2 f) (snd st2)) eqn:E2; simpl; auto.
      * apply isGreaterThan_true in E1. apply isGreaterThan_false in E2.
        rewrite Hnet, Hm in E1. exfalso. apply (Qlt_not_le _ _ E1 E2).
      * apply isGreaterThan_false in E1. apply isGreaterThan_true in E2.
        rewrite Hnet, Hm in E1. exfalso. apply (Qlt_not_le _ _ E2 E1).
    + destruct (isGreaterThan (net1 f) (snd st1)) eqn:E1;
        destruct (isGreaterThan (net2 f) (snd st2)) eqn:E2; simpl; auto.
      * apply isGreaterThan_true in E1. apply isGreaterThan_false in E2.
        rewrite Hnet, Hm in E1. exfalso. apply (Qlt_not_le _ _ E1 E2).
      * apply isGreaterThan_false in E1. apply isGreaterThan_true in E2.
        rewrite Hnet, Hm in E1. exfalso. apply (Qlt_not_le _ _ E2 E1).
Qed.

Lemma net_of_gas (gross : positive -> Q) (g1 g2 : Q) (f : positive) :
  net_of gross g2 f - net_of gross g1 f == (g1 - g2) * inject_Z (Zpos f).
Proof. unfold net_of, minus, multipliedBy, ofPos. ring. Qed.

Lemma ofPos_positive (f : positive) : 0 < inject_Z (Zpos f).
Proof. unfold Qlt. simpl. lia. Qed.

(** A higher gas cost never moves the search to a higher frequency, for any
    list of candidates and any gross yields. *)
Lemma search_antitone (gross : positive -> Q) (l : list positive) (g1 g2 : Q) :
  g2 <= g1 ->
  Pos.le (fst (search (net_of gross g1) l (1%positive, 0)))
         (fst (search (net_of gross g2) l (1%positive, 0))).
Proof.
  intros Hle. destruct (Qle_lt_or_eq _ _ Hle) as [Hlt | Heq].
  - pose proof (search_found (net_of gross g1) l) as F1.
    pose proof (search_found (net_of gross g2) l) as F2.
    remember (search (net_of gross g1) l (1%positive, 0)) as st1 eqn:E1. clear E1.
    remember (search (net_of gross g2) l (1%positive, 0)) as st2 eqn:E2. clear E2.
    destruct F1 as [[Hst1 _] | (l1 & l2 & Hl & Hm & Hpos & Hbefore & Hafter)].
    { rewrite Hst1. simpl. apply Pos.le_1_l. }
    assert (Hin1 : In (fst st1) l) by (rewrite Hl; apply in_or_app; right; left; reflexivity).
    assert (Hpos2 : 0 < net_of gross g2 (fst st1)).
    { pose proof (net_of_gas gross g1 g2 (fst st1)) as Hd.
      pose proof (ofPos_positive (fst st1)) as Hf. nra. }
    assert (Hin2 : In (fst st2) l /\ 0 < net_of gross g2 (fst st2)).
    { destruct F2 as [[Hst2 Hall] | (k1 & k2 & Hk & _ & Hp & _ & _)].
      - exfalso. apply (Qlt_not_le _ _ Hpos2). apply Hall. exact Hin1.
      - split; [rewrite Hk; apply in_or_app; right; left; reflexivity | exact Hp]. }
    destruct Hin2 as [Hin2 Hp2].
    pose proof (found_greatest _ _ _ (fst st1) F2 Hp2 Hin1) as Hge2.
    assert (F1 : found (net_of gross g1) l st1)
      by (right; exists l1, l2; repeat split; auto).
    pose proof (found_greatest _ _ _ (fst st2) F1 Hpos Hin2) as Hge1.
    apply Pos.le_nlt. intros Hcontra.
    assert (Hq : inject_Z (Zpos (fst st2)) < inject_Z (Zpos (fst st1))).
    { rewrite <- Zlt_Qlt. exact Hcontra. }
    unfold net_of, minus, multipliedBy, ofPos in Hge1, Hge2. nra.
  - assert (Hnet : forall u, net_of gross g1 u == net_of gross g2 u).
    { intros u. unfold net_of, minus, multipliedBy. rewrite Heq. reflexivity. }
    destruct (search_ext _ _ l (1%positive, 0) (1%positive, 0) Hnet eq_refl (Qeq_refl 0))
      as [Hf _].
    rewrite Hf. apply Pos.le_refl.
Qed.

(** *** Enclosures *)

Lemma round_half_up_enclosure (dp : positive) (q : Q) :
  q - (1 # (2 * 10 ^ dp)) <= round_half_up dp q
  /\ round_half_up dp q <= q + (1 # (2 * 10 ^ dp)).
Proof.
  destruct q as [N d]. unfold round_half_up. cbn [Qnum Qden].
  set (s := (10 ^ dp)%positive).
  set (n := (Z.abs N * Zpos s)%Z).
  assert (Hd : (0 < 2 * Zpos d)%Z) by lia.
  pose proof (Z.mul_div_le (2 * n + Zpos d) (2 * Zpos d) Hd) as H1.
  pose proof (Z.mul_succ_div_gt (2 * n + Zpos d) (2 * Zpos d) Hd) as H2.
  set (m := ((2 * n + Zpos d) / (2 * Zpos d))%Z) in *.
  unfold Qminus. unfold Qle, Qplus, Qopp. cbn [Qnum Qden].
  rewrite !Pos2Z.inj_mul.
  destruct (Z.abs_spec N) as [[HN Habs] | [HN Habs]]; subst n; rewrite Habs in *.
  - destruct (Z.sgn_spec N) as [[? Hs] | [[? Hs] | [? Hs]]]; rewrite Hs; try lia; split; nia.
  - destruct (Z.sgn_spec N) as [[? Hs] | [[? Hs] | [? Hs]]]; rewrite Hs; try lia; split; nia.
Qed.

Lemma dividedBy_enclosure (x y : Q) :
  x / y - half_ulp <= dividedBy x y /\ dividedBy x y <= x / y + half_ulp.
Proof. apply round_half_up_enclosure. Qed.

Lemma scale_positive (prec : positive) : 0 < inject_Z (Zpos (10 ^ prec)).
Proof. unfold Qlt. simpl. lia. Qed.

Lemma down_le (prec : positive) (q : Q) : down prec q <= q.
Proof.
  unfold down. rewrite Qmake_Qdiv.
  apply Qle_shift_div_r; [apply scale_positive | apply Qfloor_le].
Qed.

Lemma up_ge (prec : positive) (q : Q) : q <= up prec q.
Proof.
  unfold up. rewrite Qmake_Qdiv.
  apply Qle_shift_div_l; [apply scale_positive | apply Qle_ceiling].
Qed.

Lemma down_nonneg (prec : positive) (q : Q) : 0 <= q -> 0 <= down prec q.
Proof.
  intros Hq.
  assert (H : (Qfloor 0 <= Qfloor (q * inject_Z (Zpos (10 ^ prec))))%Z).
  { apply Qfloor_resp_le.
    apply Qmult_le_0_compat; [exact Hq | apply Qlt_le_weak, scale_positive]. }
  change (Qfloor 0) with 0%Z in H.
  unfold down, Qle. cbn [Qnum Qden]. lia.
Qed.

(** The outward-rounded powers enclose the exact power of [bignumber.js]. *)
Lemma pow_enclosure (prec : positive) (x : Q) (i : positive) :
  0 <= x ->
  0 <= pow_lower prec x i /\ pow_lower prec x i <= pow x i /\ pow x i <= pow_upper prec x i.
Proof.
  intros Hx. unfold pow, Qpower_positive.
  induction i as [i IH | i IH |]; cbn [pow_lower pow_upper Ring_theory.pow_pos].
  - destruct IH as (H0 & Hl & Hu).
    set (l := pow_lower prec x i) in *. set (u := pow_upper prec x i) in *.
    set (p := Ring_theory.pow_pos Qmult x i) in *.
    assert (Hll : 0 <= l * l) by (apply Qmult_le_0_compat; assumption).
    assert (Hlp : l * l <= p * p) by (apply Qmult_le_compat_nonneg; split; assumption).
    assert (Hp : 0 <= p) by (apply Qle_trans with l; assumption).
    assert (Hpu : p * p <= u * u) by (apply Qmult_le_compat_nonneg; split; assumption).
    assert (Hpp : 0 <= p * p) by (apply Qmult_le_0_compat; assumption).
    repeat split.
    + apply down_nonneg. apply Qmult_le_0_compat; assumption.
    + apply Qle_trans with (x * (l * l)); [apply down_le |].
      apply Qmult_le_compat_nonneg; split; try assumption; apply Qle_refl.
    + apply Qle_trans with (x * (u * u)); [| apply up_ge].
      apply Qmult_le_compat_nonneg; split; try assumption; apply Qle_refl.
  - destruct IH as (H0 & Hl & Hu).
    set (l := pow_lower prec x i) in *. set (u := pow_upper prec x i) in *.
    set (p := Ring_theory.pow_pos Qmult x i) in *.
    assert (Hp : 0 <= p) by (apply Qle_trans with l; assumption).
    repeat split.
    + apply down_nonneg. apply Qmult_le_0_compat; assumption.
    + apply Qle_trans with (l * l); [apply down_le |].
      apply Qmult_le_compat_nonneg; split; assumption.
    + apply Qle_trans with (u * u); [| apply up_ge].
      apply Qmult_le_compat_nonneg; split; assumption.
  - repeat split; try assumption; apply Qle_refl.
Qed.

Lemma apy_enclosure (prec : positive) (apr : Q) (n : positive) :
  0 <= rate apr n + 1 ->
  apy_lower prec apr n <= apy_value apr n /\ apy_value apr n <= apy_upper prec apr n.
Proof.
  intros Hbase.
  destruct (pow_enclosure prec (rate apr n + 1) n Hbase) as (_ & Hl & Hu).
  unfold apy_lower, apy_upper, apy_value, multipliedBy, minus, plus.
  fold (rate apr n).
  set (p := pow (rate apr n + 1) n) in *.
  set (l := pow_lower prec (rate apr n + 1) n) in *.
  set (u := pow_upper prec (rate apr n + 1) n) in *.
  split; lra.
Qed.

Lemma net_enclosure (prec : positive) (apr gasCost principal : Q) (freq : positive) :
  0 <= principal -> 0 <= rate apr freq + 1 ->
  net_lower prec apr gasCost principal freq <= net_value apr gasCost principal freq
  /\ net_value apr gasCost principal freq <= net_upper prec apr gasCost principal freq.
Proof.
  intros HP Hbase.
  destruct (apy_enclosure prec apr freq Hbase) as [Hl Hu].
  destruct (dividedBy_enclosure (apy_value apr freq) 100) as [Dl Du].
  unfold net_lower, net_upper, net_value, net_of, gross_value, multipliedBy, minus, ofPos.
  set (a := apy_value apr freq) in *.
  set (d := dividedBy a 100) in *.
  set (al := apy_lower prec apr freq) in *.
  set (au := apy_upper prec apr freq) in *.
  assert (Hdl : al / 100 - half_ulp <= d).
  { apply Qle_trans with (a / 100 - half_ulp); [| exact Dl].
    unfold Qdiv. assert (H : / 100 == 1 # 100) by reflexivity. rewrite H. lra. }
  assert (Hdu : d <= au / 100 + half_ulp).
  { apply Qle_trans with (a / 100 + half_ulp); [exact Du |].
    unfold Qdiv. assert (H : / 100 == 1 # 100) by reflexivity. rewrite H. lra. }
  set (lo := al / 100 - half_ulp) in *. set (hi := au / 100 + half_ulp) in *.
  split; nra.
Qed.

(** Comparisons of net yields decided on their enclosures, at 30 digits. *)
Lemma net_le_zero (apr gasCost principal : Q) (f : positive) :
  0 <= principal -> 0 <= rate apr f + 1 ->
  net_upper 30 apr gasCost principal f <= 0 ->
  net_value apr gasCost principal f <= 0.
Proof.
  intros HP Hf H. destruct (net_enclosure 30 apr gasCost principal f HP Hf) as [_ Hu].
  apply Qle_trans with (net_upper 30 apr gasCost principal f); assumption.
Qed.

Lemma net_lt_enclosed (apr gasCost principal : Q) (f f' : positive) :
  0 <= principal -> 0 <= rate apr f + 1 -> 0 <= rate apr f' + 1 ->
  net_upper 30 apr gasCost principal f < net_lower 30 apr gasCost principal f' ->
  net_value apr gasCost principal f < net_value apr gasCost principal f'.
Proof.
  intros HP Hf Hf' H.
  destruct (net_enclosure 30 apr gasCost principal f HP Hf) as [_ Hu].
  destruct (net_enclosure 30 apr gasCost principal f' HP Hf') as [Hl _].
  apply Qle_lt_trans with (net_upper 30 apr gasCost principal f); [exact Hu |].
  apply Qlt_le_trans with (net_lower 30 apr gasCost principal f'); assumption.
Qed.

Lemma step_keep (net : positive -> Q) (st : positive * Q) (f : positive) :
  net f <= snd st -> step net st f = st.
Proof. intros H. unfold step. apply isGreaterThan_false in H. rewrite H. reflexivity. Qed.

Lemma step_take (net : positive -> Q) (st : positive * Q) (f : positive) :
  snd st < net f -> step net st f = (f, net f).
Proof. intros H. unfold step. apply isGreaterThan_true in H. rewrite H. reflexivity. Qed.

(** Decides a closed comparison of small rationals by evaluation. *)
Ltac qdecide := vm_compute; solve [reflexivity | discriminate].

Lemma net_lt_zero (apr gasCost principal : Q) (f : positive) :
  0 <= principal -> 0 <= rate apr f + 1 ->
  net_upper 30 apr gasCost principal f < 0 ->
  net_value apr gasCost principal f < 0.
Proof.
  intros HP Hf H. destruct (net_enclosure 30 apr gasCost principal f HP Hf) as [_ Hu].
  apply Qle_lt_trans with (net_upper 30 apr gasCost principal f); assumption.
Qed.

Lemma net_gt_zero (apr gasCost principal : Q) (f : positive) :
  0 <= principal -> 0 <= rate apr f + 1 ->
  0 < net_lower 30 apr gasCost principal f ->
  0 < net_value apr gasCost principal f.
Proof.
  intros HP Hf H. destruct (net_enclosure 30 apr gasCost principal f HP Hf) as [Hl _].
  apply Qlt_le_trans with (net_lower 30 apr gasCost principal f); assumption.
Qed.

Lemma search_cons (net : positive -> Q) (f : positive) (l : list positive) (st : positive * Q) :
  search net (f :: l) st = search net l (step net st f).
Proof. reflexivity. Qed.

Lemma search_nil (net : positive -> Q) (st : positive * Q) : search net [] st = st.
Proof. reflexivity. Qed.

(** Decides a comparison of net yields on their enclosures. *)
Ltac net_compare :=
  cbn [snd];
  lazymatch goal with
  | |- net_value _ _ _ _ <= 0 => apply net_le_zero; qdecide
  | |- net_value _ _ _ _ < 0 => apply net_lt_zero; qdecide
  | |- 0 < net_value _ _ _ _ => apply net_gt_zero; qdecide
  | |- net_value _ _ _ _ < net_value _ _ _ _ => apply net_lt_enclosed; qdecide
  | |- net_value _ _ _ _ <= net_value _ _ _ _ =>
      apply Qlt_le_weak; apply net_lt_enclosed; qdecide
  end.

(** *** calculateOptimalCompounding *)

(** What [calculateOptimalCompounding] returns: frequency 1 with a net yield
    of zero when no candidate has a net yield above zero, and otherwise the
    first of the candidates [1, 4, 12, 52, 365] whose net yield is greatest. *)
Lemma calculateOptimalCompounding_found (apr gasCost principal : Q) :
  exists r,
    calculateOptimalCompounding apr gasCost principal = Normal r /\
    found (net_value apr gasCost principal) frequencies (optimalFrequency r, maxNetYield r).
Proof.
  rewrite calculateOptimalCompounding_value. eexists. split; [reflexivity |].
  cbn [optimalFrequency maxNetYield].
  rewrite <- surjective_pairing. apply search_found.
Qed.

(** C3 (the code departs from the claim).  For [apr = 500], a gas cost of
    650 per compounding and a principal of 100 every candidate frequency has
    a negative net yield; the greatest one is the net yield of frequency 4,
    yet the search returns frequency 1 together with a net yield of 0, the
    value [maxNetYield] was initialised with. *)
Theorem C3_no_positive_yield_returns_frequency_1 :
  exists r n1 n4 n12 n52 n365,
    calculateOptimalCompounding 500 650 100 = Normal r /\
    optimalFrequency r = 1%positive /\ maxNetYield r = 0 /\
    netYield 500 650 100 1 = Normal n1 /\
    netYield 500 650 100 4 = Normal n4 /\
    netYield 500 650 100 12 = Normal n12 /\
    netYield 500 650 100 52 = Normal n52 /\
    netYield 500 650 100 365 = Normal n365 /\
    n1 == -150 /\ n4 == -137.109375 /\
    n12 < n1 /\ n52 < n1 /\ n365 < n1 /\ n1 < n4 /\ n4 < 0.
Proof.
  rewrite calculateOptimalCompounding_value.
  assert (Hs : search (net_value 500 650 100) frequencies (1%positive, 0) = (1%positive, 0)).
  { unfold frequencies.
    do 5 (rewrite search_cons; rewrite step_keep by net_compare). apply search_nil. }
  rewrite Hs. rewrite !netYield_value.
  do 6 eexists.
  split; [reflexivity |]. cbn [optimalFrequency maxNetYield fst snd].
  do 2 (split; [reflexivity |]).
  do 5 (split; [reflexivity |]).
  split; [qdecide |]. split; [qdecide |].
  repeat apply conj; net_compare.
Qed.

(** C4.  For every APR and principal, a gas cost that is at least as high
    never gives a higher optimal compounding frequency. *)
Theorem C4_optimal_frequency_antitone_in_gas_cost (apr principal gasCost1 gasCost2 : Q) :
  gasCost2 <= gasCost1 ->
  exists r1 r2,
    calculateOptimalCompounding apr gasCost1 principal = Normal r1 /\
    calculateOptimalCompounding apr gasCost2 principal = Normal r2 /\
    Pos.le (optimalFrequency r1) (optimalFrequency r2).
Proof.
  intros Hle. rewrite !calculateOptimalCompounding_value.
  do 2 eexists. do 2 (split; [reflexivity |]).
  cbn [optimalFrequency]. unfold net_value.
  apply search_antitone. exact Hle.
Qed.

Lemma C4_witness :
  0.1 <= 50 /\
  exists r1 r2,
    calculateOptimalCompounding 10 50 1000 = Normal r1 /\
    calculateOptimalCompounding 10 0.1 1000 = Normal r2 /\
    Pos.le (optimalFrequency r1) (optimalFrequency r2).
Proof.
  assert (H : 0.1 <= 50) by (unfold Qle; simpl; lia).
  split; [exact H |].
  exact (C4_optimal_frequency_antitone_in_gas_cost 10 1000 50 0.1 H).
Defined.

(** The frequencies found in the example of the specification: 1 for a gas
    cost of 50 and 12 for a gas cost of 0.1. *)
Example optimal_compounding_example :
  exists r1 r2,
    calculateOptimalCompounding 10 50 1000 = Normal r1 /\
    calculateOptimalCompounding 10 0.1 1000 = Normal r2 /\
    optimalFrequency r1 = 1%positive /\ optimalFrequency r2 = 12%positive.
Proof.
  rewrite !calculateOptimalCompounding_value.
  do 2 eexists. do 2 (split; [reflexivity |]).
  cbn [optimalFrequency]. unfold frequencies. split.
  - rewrite search_cons; rewrite step_take by net_compare.
    do 4 (rewrite search_cons; rewrite step_keep by net_compare).
    rewrite search_nil. reflexivity.
  - do 3 (rewrite search_cons; rewrite step_take by net_compare).
    do 2 (rewrite search_cons; rewrite step_keep by net_compare).
    rewrite search_nil. reflexivity.
Qed.

(** *** calculateAPY *)

(** [calculateAPY] has no validation: it returns for every APR. *)
Lemma calculateAPY_never_throws (apr : Q) (n : positive) (e : exn) :
  calculateAPY apr n <> Throw e.
Proof. rewrite calculateAPY_value. discriminate. Qed.

(** For every APR, negative or not, the value is
    [((1 + apr/100/n)^n - 1) * 100] with both divisions rounded to 20
    decimals. *)
Lemma calculateAPY_formula (apr : Q) (n : positive) :
  calculateAPY apr n
  = Normal (((dividedBy (dividedBy apr 100) (inject_Z (Zpos n)) + 1) ^ Zpos n - 1) * 100).
Proof. reflexivity. Qed.

(** C7 (the code departs from the claim).  [calculateAPY(-5, 365)] raises
    nothing: it returns a negative yield of about -4.877. *)
Theorem C7_calculateAPY_negative_apr_returns :
  exists apy,
    calculateAPY (-5) 365 = Normal apy /\ -4.8774 < apy /\ apy < -4.8773.
Proof.
  rewrite calculateAPY_value. eexists. split; [reflexivity |].
  assert (Hbase : 0 <= rate (-5) 365 + 1) by qdecide.
  destruct (apy_enclosure 30 (-5) 365 Hbase) as [Hl Hu].
  split.
  - apply Qlt_le_trans with (apy_lower 30 (-5) 365); [qdecide | exact Hl].
  - apply Qle_lt_trans with (apy_upper 30 (-5) 365); [exact Hu | qdecide].
Qed.

(** The values the tests expect for an APR of 12. *)
Example calculateAPY_12 :
  exists daily monthly,
    calculateAPY 12 365 = Normal daily /\ calculateAPY 12 12 = Normal monthly /\
    12.746 < daily /\ daily < 12.748 /\ 12.682 < monthly /\ monthly < 12.684.
Proof.
  rewrite !calculateAPY_value. do 2 eexists. do 2 (split; [reflexivity |]).
  destruct (apy_enclosure 30 12 365) as [Hl Hu]; [qdecide |].
  destruct (apy_enclosure 30 12 12) as [Hl' Hu']; [qdecide |].
  repeat apply conj.
  - apply Qlt_le_trans with (apy_lower 30 12 365); [qdecide | exact Hl].
  - apply Qle_lt_trans with (apy_upper 30 12 365); [exact Hu | qdecide].
  - apply Qlt_le_trans with (apy_lower 30 12 12); [qdecide | exact Hl'].
  - apply Qle_lt_trans with (apy_upper 30 12 12); [exact Hu' | qdecide].
Qed.

Example calculateAPY_zero (n : positive) : exists apy, calculateAPY 0 n = Normal apy /\ apy == 0.
Proof.
  eexists. split; [reflexivity |].
  unfold multipliedBy, minus, pow, plus, dividedBy, ofPos.
  assert (H : round_half_up DECIMAL_PLACES
                (round_half_up DECIMAL_PLACES (0 / 100) / inject_Z (Zpos n)) == 0).
  { unfold round_half_up, DECIMAL_PLACES. simpl Qnum. simpl Qden.
    unfold Qeq. simpl. rewrite Z.div_small; lia. }
  rewrite H. rewrite Qplus_0_l.
  assert (H1 : Qpower_positive 1 n == 1) by (apply Qpower_positive_1).
  rewrite H1. ring.
Qed.

(** *** estimateImpermanentLoss *)

(** [estimateImpermanentLoss] is the same closed form in decimal arithmetic:
    no loss at a price ratio of 1, and 20 percent at the ratios 4 and 1/4. *)
Example estimateImpermanentLoss_examples :
  estimateImpermanentLoss None = 0
  /\ estimateImpermanentLoss (Some 1) == 0
  /\ estimateImpermanentLoss (Some 4) == 20
  /\ estimateImpermanentLoss (Some 0.25) == 20.
Proof. split; [reflexivity |]. repeat apply conj; qdecide. Qed.

End YieldCalculatorProperties.


(** Case analysis on the comparisons of reals a goal depends on. *)
Ltac real_cases :=
  unfold Number.Rltb, Number.Rleb, Number.Reqb in *;
  repeat match goal with
         | |- context [Rlt_dec ?a ?b] => destruct (Rlt_dec a b); try lra
         | |- context [Rle_dec ?a ?b] => destruct (Rle_dec a b); try lra
         | |- context [Req_dec_T ?a ?b] => destruct (Req_dec_T a b); try lra
         end.

(** ** JavaScript numbers *)

Module NumberProperties.
Import Number.
Open Scope R_scope.

Lemma Rltb_true (x y : R) : Rltb x y = true <-> x < y.
Proof. unfold Rltb. destruct (Rlt_dec x y); split; auto; discriminate. Qed.

Lemma Rltb_false (x y : R) : Rltb x y = false <-> y <= x.
Proof. unfold Rltb. destruct (Rlt_dec x y); split; auto; try discriminate; lra. Qed.

Lemma Rleb_true (x y : R) : Rleb x y = true <-> x <= y.
Proof. unfold Rleb. destruct (Rle_dec x y); split; auto; discriminate. Qed.

Lemma Rleb_false (x y : R) : Rleb x y = false <-> y < x.
Proof. unfold Rleb. destruct (Rle_dec x y); split; auto; try discriminate; lra. Qed.

Lemma Reqb_true (x y : R) : Reqb x y = true <-> x = y.
Proof. unfold Reqb. destruct (Req_dec_T x y); split; auto; discriminate. Qed.

Lemma Reqb_false (x y : R) : Reqb x y = false <-> x <> y.
Proof. unfold Reqb. destruct (Req_dec_T x y); split; auto; try discriminate; tauto. Qed.

Lemma Fin_eq (x y : R) : x = y -> Fin x = Fin y.
Proof. intros ->. reflexivity. Qed.

Lemma gt_nan_l (a : num) : gt NaN a = false.
Proof. destruct a; reflexivity. Qed.

Lemma gt_nan_r (a : num) : gt a NaN = false.
Proof. destruct a; reflexivity. Qed.

Lemma min_nan_l (a : num) : min NaN a = NaN.
Proof. reflexivity. Qed.

Lemma min_nan_r (a : num) : min a NaN = NaN.
Proof. destruct a; reflexivity. Qed.

Lemma div_fin (x y : R) : y <> 0 -> div (Fin x) (Fin y) = Fin (x / y).
Proof. intros Hy. simpl. apply Reqb_false in Hy. rewrite Hy. reflexivity. Qed.

Lemma div_zero_nan : div (Fin 0) (Fin 0) = NaN.
Proof. simpl. unfold scale_inf. real_cases; reflexivity || lra. Qed.

Lemma div_pos_zero (x : R) : 0 < x -> div (Fin x) (Fin 0) = PInf.
Proof. intros Hx. simpl. unfold scale_inf. real_cases; reflexivity || lra. Qed.

Lemma sqrt_fin (x : R) : 0 <= x -> sqrt (Fin x) = Fin (R_sqrt.sqrt x).
Proof. intros Hx. simpl. real_cases; reflexivity || lra. Qed.

Lemma mul_zero_inf : mul (Fin 0) PInf = NaN.
Proof. simpl. unfold scale_inf. real_cases; reflexivity || lra. Qed.
End NumberProperties.

(** ** BaseYieldCalculator *)

Module BaseYieldCalculatorProperties.
Import Number NumberProperties BaseYieldCalculator Notions.
Open Scope R_scope.

(** *** calculateMaxDrawdown *)

(** A price that is not below the running peak leaves the maximum drawdown
    at zero and becomes (or equals) the peak. *)
Lemma drawdown_step_non_decreasing (st : drawdown_scan) (i : nat) (p : num) :
  maxDrawdown st = Fin 0 -> le (peak st) p = true ->
  maxDrawdown (drawdown_step st i p) = Fin 0 /\ peak (drawdown_step st i p) = p.
Proof.
  intros Hmax Hle. unfold drawdown_step.
  destruct (gt p (peak st)) eqn:Hgt; simpl.
  - split; [exact Hmax | reflexivity].
  - destruct st as [pk md ds de cs]. simpl in *. subst md.
    destruct pk as [x | | |], p as [y | | |]; simpl in *; try discriminate.
    + apply Rleb_true in Hle. apply Rltb_false in Hgt.
      assert (x = y) by lra. subst y.
      assert (Hz : Rltb 0 ((x + - x) / x) = false).
      { apply Rltb_false. replace (x + - x) with 0 by ring. unfold Rdiv. lra. }
      unfold gt, lt, div, scale_inf.
      destruct (Reqb x 0) eqn:E0.
      * replace (x + - x) with 0 by ring.
        assert (H0 : Rltb 0 0 = false) by (apply Rltb_false; lra).
        rewrite H0. simpl. split; reflexivity.
      * rewrite Hz. simpl. split; reflexivity.
    + split; reflexivity.
    + split; reflexivity.
Qed.

Lemma drawdown_loop_non_decreasing (rest : list num) (st : drawdown_scan) (i : nat) :
  maxDrawdown st = Fin 0 -> non_decreasing (peak st :: rest) ->
  maxDrawdown (drawdown_loop st i rest) = Fin 0.
Proof.
  revert st i. induction rest as [| p rest IH]; intros st i Hmax Hmono; simpl.
  - exact Hmax.
  - destruct Hmono as [Hle Hrest].
    destruct (drawdown_step_non_decreasing st i p Hmax Hle) as [Hmax' Hpeak'].
    apply IH; [exact Hmax' |]. rewrite Hpeak'. exact Hrest.
Qed.

(** C10 (as amended).  For a series of fewer than two prices the maximum
    drawdown returned is the number 0; for a non-decreasing series of two
    prices or more it is not a number but the text [(0).toFixed(2) + '%'],
    that is ['0.00%']. *)
Theorem C10_max_drawdown_zero (prices : list num) :
  (length prices < 2)%nat \/ non_decreasing prices ->
  dd_maxDrawdown (calculateMaxDrawdown (Some prices))
  = if (length prices <? 2)%nat then VNum (Fin 0)
    else VText (Cat (Fixed 2 (Fin 0)) (Lit "%")).
Proof.
  intros H.
  destruct prices as [| first [| second rest]]; try reflexivity.
  destruct H as [H | H]; [simpl in H; lia |].
  change (length (first :: second :: rest) <? 2)%nat with false.
  cbn [calculateMaxDrawdown dd_maxDrawdown].
  rewrite drawdown_loop_non_decreasing; [| reflexivity | exact H].
  simpl. rewrite Rmult_0_l. reflexivity.
Qed.

Lemma C10_witness :
  dd_maxDrawdown (calculateMaxDrawdown (Some [Fin 100; Fin 110; Fin 110; Fin 120]))
  = VText (Cat (Fixed 2 (Fin 0)) (Lit "%")) /\
  dd_maxDrawdown (calculateMaxDrawdown (Some [Fin 100])) = VNum (Fin 0).
Proof.
  split.
  - apply (C10_max_drawdown_zero [Fin 100; Fin 110; Fin 110; Fin 120]).
    right. simpl. unfold Rleb.
    destruct (Rle_dec 100 110); [| lra]. destruct (Rle_dec 110 110); [| lra].
    destruct (Rle_dec 110 120); [| lra]. auto.
  - apply (C10_max_drawdown_zero [Fin 100]). left. simpl. lia.
Defined.

(** The claim as worded, a returned value of 0 for every non-decreasing
    series, fails on two prices already: the field holds a text, which is
    not the number 0 of the early return. *)
Lemma C10_non_decreasing_series_returns_text :
  non_decreasing [Fin 100; Fin 110]
  /\ dd_maxDrawdown (calculateMaxDrawdown (Some [Fin 100; Fin 110]))
     = VText (Cat (Fixed 2 (Fin 0)) (Lit "%"))
  /\ dd_maxDrawdown (calculateMaxDrawdown (Some [Fin 100; Fin 110])) <> VNum (Fin 0).
Proof.
  assert (Hmono : non_decreasing [Fin 100; Fin 110]).
  { cbn. unfold Rleb. destruct (Rle_dec 100 110); [auto | lra]. }
  split; [exact Hmono |].
  assert (H : dd_maxDrawdown (calculateMaxDrawdown (Some [Fin 100; Fin 110]))
              = VText (Cat (Fixed 2 (Fin 0)) (Lit "%"))).
  { cbn [calculateMaxDrawdown dd_maxDrawdown].
    rewrite drawdown_loop_non_decreasing; [| reflexivity | exact Hmono].
    simpl. rewrite Rmult_0_l. reflexivity. }
  split; [exact H |]. rewrite H. discriminate.
Qed.

(** A null or undefined history and the empty history give the number 0. *)
Example calculateMaxDrawdown_empty :
  dd_maxDrawdown (calculateMaxDrawdown None) = VNum (Fin 0) /\
  dd_maxDrawdown (calculateMaxDrawdown (Some [])) = VNum (Fin 0).
Proof. split; reflexivity. Qed.

Lemma drawdown_loop_cons (st : drawdown_scan) (i : nat) (p : num) (rest : list num) :
  drawdown_loop st i (p :: rest) = drawdown_loop (drawdown_step st i p) (S i) rest.
Proof. reflexivity. Qed.

(** The series of the test suite: the deepest drawdown runs from the peak
    120 at index 5 to the trough 80 at index 6. *)
Example calculateMaxDrawdown_test_suite :
  let r := calculateMaxDrawdown
             (Some [Fin 100; Fin 110; Fin 105; Fin 90; Fin 95; Fin 120; Fin 80; Fin 85]) in
  peakValue r = Some (Fixed 2 (Fin 120))
  /\ troughValue r = Some (Fixed 2 (Fin 80))
  /\ drawdownPeriod r = 1%Z
  /\ recovery r = "Monitoring required"%string.
Proof.
  cbn [calculateMaxDrawdown].
  repeat (rewrite drawdown_loop_cons; unfold drawdown_step;
          repeat (progress (cbn -[drawdown_loop]; real_cases))).
  cbn. real_cases. repeat split.
Qed.

(** *** calculateImpermanentLoss *)

Lemma calculateImpermanentLoss_loss (initial current : R) :
  initial <> 0 -> 0 <= current / initial ->
  lossPercentage (calculateImpermanentLoss (Fin initial) (Fin current))
  = Fixed 2 (Fin (Rabs ((2 * R_sqrt.sqrt (current / initial) / (1 + current / initial) + - 1)
                        * 100))).
Proof.
  intros Hi Hr. unfold calculateImpermanentLoss. cbn [lossPercentage].
  rewrite (div_fin _ _ Hi), (sqrt_fin _ Hr). cbn [mul add].
  rewrite div_fin by lra. reflexivity.
Qed.



(** *** calculateAdvancedImpermanentLoss *)

(** A scenario in which the price of token 0 falls to zero: the amounts
    re-derived are 0 and [Infinity], and their product is [NaN], not [k].
    No operation of this run rounds, so it is also the run of the program
    in double arithmetic. *)
Example price_collapse_breaks_product :
  let v := simulate
             {| token0Amount := Fin 1000; token1Amount := Fin 2000;
                token0Price := Fin 2500; token1Price := Fin 1 |}
             {| scenario_name := "Collapse"; token0Change := Fin (-1);
                token1Change := Fin 0 |} in
  newToken0Amount v = Fin 0 /\ newToken1Amount v = PInf
  /\ mul (newToken0Amount v) (newToken1Amount v) = NaN
  /\ mul (newToken0Amount v) (newToken1Amount v) <> k v.
Proof.
  intros v.
  assert (H0 : newToken0Amount v = Fin 0).
  { subst v. unfold simulate. cbn [newToken0Amount token0Amount token1Amount token0Price
      token1Price token0Change token1Change mul add].
    rewrite div_fin by lra. cbn [mul].
    replace (1000 * 2000 * (2500 * (1 + -1) / (1 * (1 + 0)))) with 0 by (field; lra).
    rewrite sqrt_fin by lra. rewrite sqrt_0. reflexivity. }
  assert (H1 : newToken1Amount v = PInf).
  { change (newToken1Amount v) with (div (k v) (newToken0Amount v)). rewrite H0.
    subst v. cbn [simulate k token0Amount token1Amount mul].
    apply div_pos_zero. lra. }
  rewrite H0, H1, mul_zero_inf.
  repeat split. subst v. cbn [simulate k token0Amount token1Amount mul]. discriminate.
Qed.

(** *** calculateVaR *)

(** [calculateVaR] has no validation: it returns for every portfolio. *)
Lemma calculateVaR_never_throws (portfolio : Portfolio) (c t : option num) (e : exn) :
  calculateVaR portfolio c t <> Throw e.
Proof. unfold calculateVaR. discriminate. Qed.

Lemma zScore_fin (c : num) : exists z, zScore c = Fin z.
Proof.
  unfold zScore. destruct (strict_eq c (Fin 0.95)); [eexists; reflexivity |].
  destruct (strict_eq c (Fin 0.99)); eexists; reflexivity.
Qed.

(** C8 (as amended).  On a portfolio without positions [calculateVaR]
    raises nothing: it returns a total value of 0, a volatility of 0, a daily
    VaR of 0 and the risk level "Low". *)
Theorem C8_empty_portfolio_returns_low_risk (portfolio : Portfolio) (c t : option num) :
  positions_or_empty portfolio = [] ->
  exists r,
    calculateVaR portfolio c t = Normal r
    /\ totalValue r = Fixed 2 (Fin 0)
    /\ portfolioVolatility r = Cat (Fixed 2 (Fin 0)) (Lit "%")
    /\ dailyVaR r = Fixed 2 (Fin 0)
    /\ riskLevel r = "Low"%string.
Proof.
  intros Hempty. unfold calculateVaR. rewrite Hempty. cbn [fold_left fst snd].
  eexists. split; [reflexivity |].
  cbn [totalValue portfolioVolatility dailyVaR riskLevel].
  rewrite sqrt_fin by lra. rewrite sqrt_0.
  destruct (zScore_fin (param c (Fin 0.95))) as [z Hz]. rewrite Hz.
  cbn [mul]. replace (0 * 0 * z) with 0 by ring. replace (0 * 100) with 0 by ring.
  rewrite div_zero_nan. rewrite !gt_nan_l.
  repeat split.
Qed.

Lemma C8_witness :
  positions_or_empty {| positions := Some [] |} = [] /\
  exists r,
    calculateVaR {| positions := Some [] |} (Some (Fin 0.95)) (Some (Fin 1)) = Normal r
    /\ totalValue r = Fixed 2 (Fin 0)
    /\ portfolioVolatility r = Cat (Fixed 2 (Fin 0)) (Lit "%")
    /\ dailyVaR r = Fixed 2 (Fin 0)
    /\ riskLevel r = "Low"%string.
Proof.
  split; [reflexivity |].
  apply (C8_empty_portfolio_returns_low_risk {| positions := Some [] |}). reflexivity.
Defined.

(** On the empty portfolio no exception is raised. *)
Lemma C8_empty_portfolio_raises_nothing :
  ~ exists e, calculateVaR {| positions := Some [] |} (Some (Fin 0.95)) (Some (Fin 1)) = Throw e.
Proof. intros [e He]. exact (calculateVaR_never_throws _ _ _ _ He). Qed.

(** *** optimizeYieldStrategy: the store *)

Lemma set_scores_idempotent (s : Strategy) : set_scores (set_scores s) = set_scores s.
Proof. reflexivity. Qed.

Lemma without_scores_set_scores (s : Strategy) :
  without_scores (set_scores s) = without_scores s.
Proof. reflexivity. Qed.

(** After the [forEach], the objects of the filtered array carry the two
    new fields and every other object is as before. *)
Lemma score_strategies_lookup (valid : list loc) (h : store) (l : loc) :
  score_strategies h valid !! l
  = if in_dec Nat.eq_dec l valid then set_scores <$> h !! l else h !! l.
Proof.
  unfold score_strategies. revert h.
  induction valid as [| a valid IH]; intros h; [reflexivity |].
  cbn [fold_left]. rewrite IH. rewrite lookup_alter.
  destruct (in_dec Nat.eq_dec l valid) as [Hin | Hnin];
    destruct (in_dec Nat.eq_dec l (a :: valid)) as [Hin' | Hnin'];
    destruct (decide (a = l)) as [-> | Hne]; try reflexivity;
    try (destruct (h !! l); reflexivity);
    exfalso; simpl in *; intuition congruence.
Qed.

Lemma optimizeYieldStrategy_store (h : store) (strategies : list loc) (c : Constraints) :
  fst (optimizeYieldStrategy h strategies c)
  = score_strategies h
      (validStrategies h (param (minYield c) (Fin 5)) (param (maxRisk c) (Fin 0.3)) strategies).
Proof.
  unfold optimizeYieldStrategy.
  destruct (validStrategies h _ _ strategies); reflexivity.
Qed.

(** C9 (as amended).  The optimizer creates and removes no strategy object
    and leaves [name], [apy], [risk] and [liquidity] of every object as they
    were; an object that fails the filter is unchanged, and an object that
    passes it has [riskAdjustedReturn] and [score] written. *)
Theorem C9_strategies_change_only_in_scores (h : store) (strategies : list loc)
    (c : Constraints) (l : loc) :
  let h' := fst (optimizeYieldStrategy h strategies c) in
  let valid := validStrategies h (param (minYield c) (Fin 5)) (param (maxRisk c) (Fin 0.3))
                 strategies in
  without_scores <$> h' !! l = without_scores <$> h !! l
  /\ (~ In l valid -> h' !! l = h !! l)
  /\ (In l valid -> h' !! l = set_scores <$> h !! l).
Proof.
  intros h' valid. subst h'. rewrite optimizeYieldStrategy_store. fold valid.
  rewrite score_strategies_lookup.
  destruct (in_dec Nat.eq_dec l valid) as [Hin | Hnin].
  - repeat split; try tauto. destruct (h !! l); reflexivity.
  - repeat split; tauto.
Qed.

(** The strategy "Strategy A" and the constraints of the test suite. *)
Lemma C9_input_strategy_gains_fields :
  let A := {| name := "Strategy A"; apy := Fin 12; risk := Fin 0.2; liquidity := Fin 80;
              riskAdjustedReturn := None; score := None |} in
  let c := {| maxRisk := Some (Fin 0.3); minYield := Some (Fin 10);
              maxAllocationPerStrategy := Some (Fin 0.4);
              totalCapital := Some (Fin 100000) |} in
  let h : store := {[ 0%nat := A ]} in
  let h' := fst (optimizeYieldStrategy h [0%nat] c) in
  h' !! 0%nat = Some (set_scores A)
  /\ h' !! 0%nat <> h !! 0%nat
  /\ (riskAdjustedReturn <$> h' !! 0%nat) = Some (Some (Fin (12 / 0.2)))
  /\ (riskAdjustedReturn <$> h !! 0%nat) = Some None.
Proof.
  intros A c h h'.
  assert (Hvalid : validStrategies h (Fin 10) (Fin 0.3) [0%nat] = [0%nat]).
  { unfold validStrategies. cbn [List.filter]. subst h. rewrite lookup_singleton_eq.
    unfold meets_constraints, A. cbn [apy risk ge le]. real_cases. reflexivity. }
  assert (Hh' : h' !! 0%nat = Some (set_scores A)).
  { subst h'. rewrite optimizeYieldStrategy_store. cbn [param minYield maxRisk c].
    rewrite Hvalid. rewrite score_strategies_lookup.
    destruct (in_dec Nat.eq_dec 0%nat [0%nat]) as [_ | Hn]; [| exfalso; apply Hn; left; reflexivity].
    subst h. rewrite lookup_singleton_eq. reflexivity. }
  assert (Hh : h !! 0%nat = Some A) by (subst h; apply lookup_singleton_eq).
  rewrite Hh', Hh. repeat split.
  - discriminate.
  - cbn. real_cases. cbn. real_cases. reflexivity.
Qed.

(** *** optimizeYieldStrategy: the allocations *)

Lemma Forall_omap_lookup (P : Strategy -> Prop) (h : store) (l : list loc) :
  (forall x s, In x l -> h !! x = Some s -> P s) ->
  Forall P (omap (fun x => h !! x) l).
Proof.
  induction l as [| a l IH]; intros H; cbn.
  - constructor.
  - destruct (h !! a) as [s |] eqn:E.
    + constructor; [apply (H a); [left; reflexivity | exact E] |].
      apply IH. intros x s' Hx. apply H. right. exact Hx.
    + apply IH. intros x s' Hx. apply H. right. exact Hx.
Qed.

(** A minimum with a real that exceeds a real is itself a real. *)
Lemma min_fin_above (a : num) (y c : R) :
  gt (min a (Fin y)) (Fin c) = true ->
  exists x, min a (Fin y) = Fin x /\ x <= y /\ c < x.
Proof.
  destruct a as [x | | |]; cbn; try discriminate.
  - destruct (Rltb y x) eqn:E; cbn; intros H; apply Rltb_true in H.
    + exists y. repeat split; lra.
    + apply Rltb_false in E. exists x. repeat split; lra.
  - intros H. apply Rltb_true in H. exists y. repeat split; lra.
Qed.

(** The strategies and constraints of the test suite: only "Strategy A"
    passes the filter, and it receives 30 percent of the capital. *)
Example optimizeYieldStrategy_test_suite :
  let A := {| name := "Strategy A"; apy := Fin 12; risk := Fin 0.2; liquidity := Fin 80;
              riskAdjustedReturn := None; score := None |} in
  let B := {| name := "Strategy B"; apy := Fin 18; risk := Fin 0.4; liquidity := Fin 60;
              riskAdjustedReturn := None; score := None |} in
  let C := {| name := "Strategy C"; apy := Fin 8; risk := Fin 0.1; liquidity := Fin 95;
              riskAdjustedReturn := None; score := None |} in
  let c := {| maxRisk := Some (Fin 0.3); minYield := Some (Fin 10);
              maxAllocationPerStrategy := Some (Fin 0.4);
              totalCapital := Some (Fin 100000) |} in
  let h : store := <[ 0%nat := A ]> (<[ 1%nat := B ]> (<[ 2%nat := C ]> ∅)) in
  map (fun a => (strategy a, allocation a, allocation_risk a))
      (allocations_of (snd (optimizeYieldStrategy h [0; 1; 2]%nat c)))
  = [("Strategy A"%string, Fin 30000, Fin 0.2)].
Proof.
  intros A B C c h.
  assert (H0 : h !! 0%nat = Some A) by (subst h; simplify_map_eq; reflexivity).
  assert (H1 : h !! 1%nat = Some B) by (subst h; simplify_map_eq; reflexivity).
  assert (H2 : h !! 2%nat = Some C) by (subst h; simplify_map_eq; reflexivity).
  assert (Hvalid : validStrategies h (Fin 10) (Fin 0.3) [0; 1; 2]%nat = [0%nat]).
  { unfold validStrategies. cbn [List.filter]. rewrite H0, H1, H2.
    unfold meets_constraints, A, B, C. cbn [apy risk ge le]. real_cases. reflexivity. }
  unfold optimizeYieldStrategy. cbn [param minYield maxRisk maxAllocationPerStrategy
    totalCapital c]. rewrite Hvalid.
  cbn [snd allocations_of sort_by_score fold_right insert_by_score omap list_omap].
  rewrite score_strategies_lookup.
  destruct (in_dec Nat.eq_dec 0%nat [0%nat]) as [_ | Hn]; [| exfalso; apply Hn; left; reflexivity].
  rewrite H0. cbn [fmap option_fmap option_map allocate allocations remainingCapital].
  unfold allocate_step. repeat (progress (cbn; real_cases)).
  repeat f_equal; lra.
Qed.
End BaseYieldCalculatorProperties.

(** ** BaseRiskAssessment *)

Module BaseRiskAssessmentProperties.
Import Number NumberProperties BaseRiskAssessment Notions.
Open Scope R_scope.

(** Pairs the table does not list have the correlation 0.3, in either order. *)
Example getAssetCorrelation_examples :
  getAssetCorrelation "ETH" "BTC" = Fin 0.7
  /\ getAssetCorrelation "BTC" "ETH" = Fin 0.7
  /\ getAssetCorrelation "ETH" "DAI" = Fin 0.3.
Proof.
  unfold getAssetCorrelation. cbv [String.append].
  repeat split; cbn; real_cases; reflexivity.
Qed.

(** In the first loop the weight of a position is its value over the total of
    the positions up to and including it. *)
Lemma variance_step_running_total (total variance : num) (p : Position) :
  variance_step (total, variance) p
  = (add total (mul (amount p) (price p)),
     add variance
         (pow2 (mul (div (mul (amount p) (price p)) (add total (mul (amount p) (price p))))
                    (or_default (volatility p) (Fin 0.3))))).
Proof. reflexivity. Qed.

(** C2 (the code departs from the claim).  Two positions of value 1 each,
    without a volatility, of a pair the table does not list: the weights are
    1/2 and 1/2 and the variance of the claim is 0.0585; the code weighs the
    first position by 1, its value over the running total, and computes
    0.126. *)
Theorem C2_variance_uses_running_total :
  let positions :=
    [ {| asset := "ETH"; amount := Fin 1; price := Fin 1; volatility := None |};
      {| asset := "DAI"; amount := Fin 1; price := Fin 1; volatility := None |} ] in
  portfolio_value_and_variance positions = (Fin 2, Fin 0.126)
  /\ spec_variance positions = Fin 0.0585
  /\ fold_left variance_step positions (Fin 0, Fin 0) = (Fin 2, Fin (0.09 + 0.0225))
  /\ portfolio_value_and_variance positions <> (Fin 2, spec_variance positions).
Proof.
  intros positions.
  assert (Hcode : portfolio_value_and_variance positions = (Fin 2, Fin 0.126)).
  { unfold portfolio_value_and_variance, positions. cbn.
    unfold variance_step, correlation_term, getAssetCorrelation, pow2.
    cbv [String.append]. cbn.
    real_cases. cbn. real_cases. f_equal; apply Fin_eq; lra. }
  assert (Hspec : spec_variance positions = Fin 0.0585).
  { unfold spec_variance, positions. cbn.
    unfold spec_weight, spec_sigma, spec_total_value, getAssetCorrelation, pow2.
    cbv [String.append]. cbn. real_cases. cbn. real_cases. apply Fin_eq. lra. }
  assert (Hloop : fold_left variance_step positions (Fin 0, Fin 0)
                  = (Fin 2, Fin (0.09 + 0.0225))).
  { unfold positions. cbn. unfold variance_step, pow2. cbn.
    real_cases. cbn. real_cases. f_equal; apply Fin_eq; lra. }
  rewrite Hcode, Hspec, Hloop. repeat split.
  intros H. injection H as H. lra.
Qed.
End BaseRiskAssessmentProperties.

(** ** calculateMaxDrawdown on series of positive prices *)

Module DrawdownProperties.
Import Number NumberProperties BaseYieldCalculator Notions.
Open Scope R_scope.

Lemma before_snoc (pre : list R) (p a b : R) :
  before (pre ++ [p]) a b -> before pre a b \/ (In a pre /\ b = p).
Proof.
  intros (i & j & Hij & Hi & Hj).
  assert (Hjlen : (j < length (pre ++ [p]))%nat) by (apply nth_error_Some; congruence).
  rewrite length_app in Hjlen. cbn in Hjlen.
  assert (Hi' : nth_error pre i = Some a).
  { rewrite nth_error_app1 in Hi by lia. exact Hi. }
  destruct (Nat.eq_dec j (length pre)) as [-> | Hne].
  - right. split.
    + eapply nth_error_In; eassumption.
    + rewrite nth_error_app2 in Hj by lia. rewrite Nat.sub_diag in Hj. cbn in Hj. congruence.
  - left. exists i, j. rewrite nth_error_app1 in Hj by lia. auto.
Qed.

Lemma before_app_l (pre rest : list R) (a b : R) :
  before pre a b -> before (pre ++ rest) a b.
Proof.
  intros (i & j & Hij & Hi & Hj). exists i, j.
  assert (j < length pre)%nat by (apply nth_error_Some; congruence).
  rewrite !nth_error_app1 by lia. auto.
Qed.

Lemma nth_error_snoc_old {A : Type} (pre : list A) (p : A) (i : nat) (a : A) :
  nth_error pre i = Some a -> nth_error (pre ++ [p]) i = Some a.
Proof.
  intros H. rewrite nth_error_app1; [exact H |]. apply nth_error_Some. congruence.
Qed.

Lemma nth_error_snoc_new {A : Type} (pre : list A) (p : A) :
  nth_error (pre ++ [p]) (length pre) = Some p.
Proof. rewrite nth_error_app2 by lia. rewrite Nat.sub_diag. reflexivity. Qed.

Lemma decline_le (a b M : R) : 0 < a -> a <= M -> 0 < b -> decline a b <= decline M b.
Proof.
  intros Ha HM Hb. unfold decline.
  replace ((a - b) / a) with (1 - b / a) by (field; lra).
  replace ((M - b) / M) with (1 - b / M) by (field; lra).
  assert (b / M <= b / a); [| lra].
  unfold Rdiv. apply Rmult_le_compat_l; [lra |]. apply Rinv_le_contravar; lra.
Qed.

Lemma decline_range (M p : R) : 0 < M -> 0 < p -> p <= M -> 0 <= decline M p < 1.
Proof.
  intros HM Hp Hle. unfold decline. split.
  - apply Rmult_le_pos; [lra |]. left. apply Rinv_0_lt_compat. exact HM.
  - apply (Rmult_lt_reg_r M); [exact HM |]. field_simplify; lra.
Qed.

Lemma decline_neg (a p : R) : 0 < a -> a < p -> decline a p < 0.
Proof.
  intros Ha Hp. unfold decline.
  apply (Rmult_lt_reg_r a); [exact Ha |]. field_simplify; lra.
Qed.

(** One step of the scan keeps the invariant. *)
Lemma drawdown_step_scanned (pre : list R) (st : drawdown_scan) (p : R) :
  Forall (fun x => 0 < x) pre -> 0 < p -> scanned pre st ->
  scanned (pre ++ [p]) (drawdown_step st (length pre) (Fin p)).
Proof.
  intros Hpos Hp (M & d & HM & Hd & HM0 & Hcur & Hmax & Hrange & Hdom & Hat).
  assert (Hin : forall a, In a pre -> 0 < a).
  { intros a Ha. rewrite List.Forall_forall in Hpos. apply Hpos. exact Ha. }
  assert (Hat' :
    (d = 0 /\ drawdownStart st = 0%nat /\ drawdownEnd st = 0%nat) \/
    (0 < d /\ (drawdownStart st < drawdownEnd st)%nat /\
     exists a b, nth_error (pre ++ [p]) (drawdownStart st) = Some a /\
                 nth_error (pre ++ [p]) (drawdownEnd st) = Some b /\ decline a b = d)).
  { destruct Hat as [H0 | (H0 & Hlt & a & b & Ha & Hb & Hab)]; [left; exact H0 |].
    right. split; [exact H0 |]. split; [exact Hlt |].
    exists a, b. auto using nth_error_snoc_old. }
  unfold drawdown_step. rewrite HM.
  destruct (gt (Fin p) (Fin M)) eqn:Hgt; cbn in Hgt.
  - apply Rltb_true in Hgt.
    exists p, d. cbn [peak maxDrawdown currentDrawdownStart drawdownStart drawdownEnd].
    split; [reflexivity |]. split; [exact Hd |]. split; [exact Hp |].
    split; [apply nth_error_snoc_new |].
    split.
    { intros a Ha. apply in_app_or in Ha. destruct Ha as [Ha | [<- | []]]; [| lra].
      specialize (Hmax a Ha). lra. }
    split; [exact Hrange |].
    split; [| exact Hat'].
    intros a b Hab. apply before_snoc in Hab. destruct Hab as [Hab | [Ha ->]].
    + apply Hdom. exact Hab.
    + pose proof (decline_neg a p (Hin a Ha)) as Hneg.
      specialize (Hmax a Ha). lra.
  - apply Rltb_false in Hgt.
    assert (Hdiv : div (sub (Fin M) (Fin p)) (Fin M) = Fin (decline M p)).
    { cbn [sub neg add]. rewrite div_fin by lra. reflexivity. }
    rewrite Hdiv, Hd.
    pose proof (decline_range M p HM0 Hp Hgt) as Hdr.
    assert (Hnew : forall a, In a pre -> decline a p <= decline M p).
    { intros a Ha. apply decline_le; auto. }
    assert (Hmax' : forall a, In a (pre ++ [p]) -> a <= M).
    { intros a Ha. apply in_app_or in Ha. destruct Ha as [Ha | [<- | []]]; auto. }
    destruct (gt (Fin (decline M p)) (Fin d)) eqn:Hgt'; cbn in Hgt'.
    + apply Rltb_true in Hgt'.
      exists M, (decline M p).
      cbn [peak maxDrawdown currentDrawdownStart drawdownStart drawdownEnd].
      split; [reflexivity |]. split; [reflexivity |]. split; [exact HM0 |].
      split; [apply nth_error_snoc_old; exact Hcur |].
      split; [exact Hmax' |]. split; [exact Hdr |].
      split.
      * intros a b Hab. apply before_snoc in Hab. destruct Hab as [Hab | [Ha ->]].
        -- specialize (Hdom a b Hab). lra.
        -- apply Hnew. exact Ha.
      * right. split; [lra |]. split.
        -- apply nth_error_Some. congruence.
        -- exists M, p. split; [apply nth_error_snoc_old; exact Hcur |].
           split; [apply nth_error_snoc_new | reflexivity].
    + apply Rltb_false in Hgt'.
      exists M, d.
      split; [exact HM |]. split; [exact Hd |]. split; [exact HM0 |].
      split; [apply nth_error_snoc_old; exact Hcur |].
      split; [exact Hmax' |]. split; [exact Hrange |].
      split; [| exact Hat'].
      intros a b Hab. apply before_snoc in Hab. destruct Hab as [Hab | [Ha ->]].
      * apply Hdom. exact Hab.
      * specialize (Hnew a Ha). lra.
Qed.

Lemma drawdown_loop_scanned (rest pre : list R) (st : drawdown_scan) :
  Forall (fun x => 0 < x) pre -> Forall (fun x => 0 < x) rest -> scanned pre st ->
  scanned (pre ++ rest) (drawdown_loop st (length pre) (map Fin rest)).
Proof.
  revert pre st. induction rest as [| p rest IH]; intros pre st Hpre Hrest Hst.
  - rewrite app_nil_r. exact Hst.
  - inversion Hrest as [| ? ? Hp Hrest']; subst.
    cbn [map drawdown_loop].
    replace (pre ++ p :: rest)%list with ((pre ++ [p]) ++ rest)%list
      by (rewrite <- app_assoc; reflexivity).
    replace (S (length pre)) with (length (pre ++ [p])%list) by (rewrite length_app; cbn; lia).
    apply IH.
    + apply Forall_app. split; [exact Hpre | constructor; [exact Hp | constructor]].
    + exact Hrest'.
    + apply drawdown_step_scanned; assumption.
Qed.

Lemma scanned_initial (x0 : R) :
  0 < x0 ->
  scanned [x0] {| peak := Fin x0; maxDrawdown := Fin 0; drawdownStart := 0;
                  drawdownEnd := 0; currentDrawdownStart := 0 |}.
Proof.
  intros H0. exists x0, 0. cbn.
  split; [reflexivity |]. split; [reflexivity |]. split; [exact H0 |].
  split; [reflexivity |].
  split; [intros a [<- | []]; lra |].
  split; [lra |].
  split; [| left; auto].
  intros a b (i & j & Hij & Hi & Hj).
  assert (j < length [x0])%nat by (apply nth_error_Some; congruence).
  cbn in *. lia.
Qed.

(** The scan of a series of two or more positive prices. *)
Lemma calculateMaxDrawdown_scanned (xs : list R) :
  (2 <= length xs)%nat -> Forall (fun x => 0 < x) xs ->
  exists st,
    scanned xs st
    /\ calculateMaxDrawdown (Some (map Fin xs)) = drawdown_result (map Fin xs) st.
Proof.
  intros Hlen Hpos.
  destruct xs as [| x0 [| x1 rest]]; cbn in Hlen; try lia.
  inversion Hpos as [| ? ? H0 Hrest]; subst.
  eexists. split; [| reflexivity].
  apply (drawdown_loop_scanned (x1 :: rest) [x0]).
  - constructor; [exact H0 | constructor].
  - exact Hrest.
  - apply scanned_initial. exact H0.
Qed.

Lemma highest_exists (pre : list R) : pre <> [] -> exists M, highest pre M.
Proof.
  induction pre as [| x pre IH]; [congruence |]. intros _.
  destruct pre as [| y pre].
  - exists x. split; [left; reflexivity |]. intros a [<- | []]. lra.
  - destruct (IH ltac:(discriminate)) as (M & HM & Hmax).
    destruct (Rle_dec x M) as [Hx | Hx].
    + exists M. split; [right; exact HM |]. intros a [<- | Ha]; [exact Hx | apply Hmax; exact Ha].
    + exists x. split; [left; reflexivity |].
      intros a [<- | Ha]; [lra |]. specialize (Hmax a Ha). lra.
Qed.

Lemma before_split (xs : list R) (a b : R) :
  before xs a b -> exists pre post, xs = (pre ++ b :: post)%list /\ In a pre.
Proof.
  intros (i & j & Hij & Hi & Hj).
  destruct (nth_error_split xs j Hj) as (pre & post & -> & Hlen).
  exists pre, post. split; [reflexivity |].
  rewrite nth_error_app1 in Hi by lia. eapply nth_error_In. exact Hi.
Qed.

Lemma split_before (pre post : list R) (a b : R) :
  In a pre -> before (pre ++ b :: post) a b.
Proof.
  intros Ha. destruct (In_nth_error _ _ Ha) as [i Hi].
  assert (Hlt : (i < length pre)%nat) by (apply nth_error_Some; congruence).
  exists i, (length pre). split; [exact Hlt |]. split.
  - rewrite nth_error_app1 by exact Hlt. exact Hi.
  - rewrite nth_error_app2 by lia. rewrite Nat.sub_diag. reflexivity.
Qed.

(** The maximum drawdown reported for a series of positive prices is the
    greatest of the declines the scan computes, each from the running peak
    (the highest price read so far) [M] to the price [p] read next, as
    [(M - p) / M] when [p] is not a new peak: it lies in [[0, 1]], none of
    these declines exceeds it, and it is 0 or one of them; the recovery text
    says whether it is above 0. *)
Theorem maxDrawdown_greatest_decline (xs : list R) :
  (2 <= length xs)%nat -> Forall (fun x => 0 < x) xs ->
  exists d,
    dd_maxDrawdown (calculateMaxDrawdown (Some (map Fin xs)))
    = VText (Cat (Fixed 2 (Fin (d * 100))) (Lit "%"))
    /\ 0 <= d <= 1
    /\ (forall pre p post M,
          xs = (pre ++ p :: post)%list -> highest pre M -> p <= M -> decline M p <= d)
    /\ (d = 0 \/ exists pre p post M,
                   xs = (pre ++ p :: post)%list /\ highest pre M /\ p <= M /\ decline M p = d)
    /\ recovery (calculateMaxDrawdown (Some (map Fin xs)))
       = (if Rlt_dec 0 d then "Monitoring required" else "No significant drawdown")%string.
Proof.
  intros Hlen Hpos.
  destruct (calculateMaxDrawdown_scanned xs Hlen Hpos) as (st & Hst & ->).
  destruct Hst as (M & d & HM & Hd & HM0 & Hcur & Hmax & Hrange & Hdom & Hat).
  exists d. cbn [drawdown_result dd_maxDrawdown recovery]. rewrite Hd.
  split; [reflexivity |]. split; [lra |]. split; [| split].
  - intros pre p post M' -> [HinM _] _. apply Hdom. apply split_before. exact HinM.
  - destruct Hat as [[H0 _] | (H0 & Hlt & a & b & Ha & Hb & Hab)]; [left; exact H0 |].
    right.
    assert (Hbefore : before xs a b) by (exists (drawdownStart st), (drawdownEnd st); auto).
    destruct (before_split xs a b Hbefore) as (pre & post & Hxs & Hina).
    destruct (highest_exists pre) as (M' & HinM & HmaxM).
    { intros ->. destruct Hina. }
    assert (Hpos' : forall x, In x xs -> 0 < x) by (apply List.Forall_forall; exact Hpos).
    assert (Ha0 : 0 < a).
    { apply Hpos'. rewrite Hxs. apply in_or_app. left. exact Hina. }
    assert (Hb0 : 0 < b).
    { apply Hpos'. rewrite Hxs. apply in_or_app. right. left. reflexivity. }
    assert (Hup : decline a b <= decline M' b).
    { apply decline_le; [exact Ha0 | apply HmaxM; exact Hina | exact Hb0]. }
    assert (Hdown : decline M' b <= d).
    { apply Hdom. rewrite Hxs. apply split_before. exact HinM. }
    assert (HaM : a <= M') by (apply HmaxM; exact Hina).
    assert (Hba : b < a).
    { unfold decline in Hab. destruct (Rlt_dec b a) as [Hlt' | Hge]; [exact Hlt' |].
      exfalso. assert (Hnonpos : (a - b) / a <= 0).
      { apply Rmult_le_reg_r with a; [exact Ha0 |].
        replace ((a - b) / a * a) with (a - b) by (field; lra). lra. }
      lra. }
    exists pre, b, post, M'. split; [exact Hxs |]. split; [split; assumption |].
    split; lra.
  - cbn. unfold Rltb. destruct (Rlt_dec 0 d); reflexivity.
Qed.

Lemma maxDrawdown_greatest_decline_witness :
  exists d,
    dd_maxDrawdown (calculateMaxDrawdown (Some (map Fin [100; 50; 200; 150])))
    = VText (Cat (Fixed 2 (Fin (d * 100))) (Lit "%"))
    /\ 0 <= d <= 1
    /\ (forall pre p post M,
          [100; 50; 200; 150] = (pre ++ p :: post)%list -> highest pre M -> p <= M ->
          decline M p <= d)
    /\ (d = 0 \/ exists pre p post M,
                   [100; 50; 200; 150] = (pre ++ p :: post)%list /\ highest pre M /\ p <= M
                   /\ decline M p = d)
    /\ recovery (calculateMaxDrawdown (Some (map Fin [100; 50; 200; 150])))
       = (if Rlt_dec 0 d then "Monitoring required" else "No significant drawdown")%string.
Proof.
  apply (maxDrawdown_greatest_decline [100; 50; 200; 150]).
  - cbn. lia.
  - repeat constructor; lra.
Defined.

(** The peak value reported for a series of positive prices is the highest
    price of the whole series, also when the deepest drawdown started from
    an earlier, lower peak. *)
Theorem peakValue_is_maximum (xs : list R) :
  (2 <= length xs)%nat -> Forall (fun x => 0 < x) xs ->
  exists M,
    peakValue (calculateMaxDrawdown (Some (map Fin xs))) = Some (Fixed 2 (Fin M))
    /\ In M xs /\ forall a, In a xs -> a <= M.
Proof.
  intros Hlen Hpos.
  destruct (calculateMaxDrawdown_scanned xs Hlen Hpos) as (st & Hst & ->).
  destruct Hst as (M & d & HM & Hd & HM0 & Hcur & Hmax & Hrange & Hdom & Hat).
  exists M. cbn [drawdown_result peakValue]. rewrite HM.
  split; [reflexivity |]. split; [| exact Hmax].
  eapply nth_error_In. exact Hcur.
Qed.

Lemma peakValue_is_maximum_witness :
  exists M,
    peakValue (calculateMaxDrawdown (Some (map Fin [100; 50; 200; 150])))
    = Some (Fixed 2 (Fin M))
    /\ In M [100; 50; 200; 150] /\ forall a, In a [100; 50; 200; 150] -> a <= M.
Proof.
  apply (peakValue_is_maximum [100; 50; 200; 150]).
  - cbn. lia.
  - repeat constructor; lra.
Defined.

(** The indices of the scan, for every series of JavaScript numbers. *)
Lemma drawdown_step_indices (st : drawdown_scan) (n : nat) (p : num) :
  (currentDrawdownStart st < n)%nat ->
  (drawdownStart st <= drawdownEnd st)%nat -> (drawdownEnd st < n)%nat ->
  (currentDrawdownStart (drawdown_step st n p) < S n)%nat
  /\ (drawdownStart (drawdown_step st n p) <= drawdownEnd (drawdown_step st n p))%nat
  /\ (drawdownEnd (drawdown_step st n p) < S n)%nat.
Proof.
  intros Hc Hse He. unfold drawdown_step.
  destruct (gt p (peak st)); cbn; [lia |].
  destruct (gt _ (maxDrawdown st)); cbn; lia.
Qed.

Lemma drawdown_loop_indices (rest : list num) (st : drawdown_scan) (n : nat) :
  (currentDrawdownStart st < n)%nat ->
  (drawdownStart st <= drawdownEnd st)%nat -> (drawdownEnd st < n)%nat ->
  (drawdownStart (drawdown_loop st n rest) <= drawdownEnd (drawdown_loop st n rest))%nat
  /\ (drawdownEnd (drawdown_loop st n rest) < n + length rest)%nat.
Proof.
  revert st n. induction rest as [| p rest IH]; intros st n Hc Hse He; cbn [drawdown_loop length].
  - lia.
  - destruct (drawdown_step_indices st n p Hc Hse He) as (Hc' & Hse' & He').
    destruct (IH _ _ Hc' Hse' He') as [H1 H2]. split; [exact H1 | lia].
Qed.

(** For every series of two or more JavaScript numbers (infinite values
    and [NaN] included) the trough is an element of the series, never the
    fallback text, and the drawdown period is a number of steps between 0
    and the last index. *)
Theorem troughValue_is_a_price (prices : list num) :
  (2 <= length prices)%nat ->
  exists p j,
    nth_error prices j = Some p
    /\ troughValue (calculateMaxDrawdown (Some prices)) = Some (Fixed 2 p)
    /\ (0 <= drawdownPeriod (calculateMaxDrawdown (Some prices)) <= Z.of_nat j)%Z.
Proof.
  intros Hlen.
  destruct prices as [| x0 [| x1 rest]]; cbn in Hlen; try lia.
  change (calculateMaxDrawdown (Some (x0 :: x1 :: rest)))
    with (drawdown_result (x0 :: x1 :: rest)
            (drawdown_loop
               {| peak := x0; maxDrawdown := Fin 0; drawdownStart := 0; drawdownEnd := 0;
                  currentDrawdownStart := 0 |} 1 (x1 :: rest))).
  set (st := drawdown_loop _ 1 (x1 :: rest)).
  cbn [drawdown_result troughValue drawdownPeriod].
  destruct (drawdown_loop_indices (x1 :: rest)
              {| peak := x0; maxDrawdown := Fin 0; drawdownStart := 0; drawdownEnd := 0;
                 currentDrawdownStart := 0 |} 1) as [Hse He];
    [cbn; lia | cbn; lia | cbn; lia |].
  fold st in Hse, He.
  destruct (nth_error (x0 :: x1 :: rest) (drawdownEnd st)) as [p |] eqn:E.
  - exists p, (drawdownEnd st). split; [exact E |]. split; [reflexivity | lia].
  - apply nth_error_None in E. cbn [length] in *. lia.
Qed.

Lemma troughValue_is_a_price_witness :
  exists p j,
    nth_error [Fin 100; NaN; PInf; Fin 3] j = Some p
    /\ troughValue (calculateMaxDrawdown (Some [Fin 100; NaN; PInf; Fin 3]))
       = Some (Fixed 2 p)
    /\ (0 <= drawdownPeriod (calculateMaxDrawdown (Some [Fin 100; NaN; PInf; Fin 3]))
        <= Z.of_nat j)%Z.
Proof.
  apply (troughValue_is_a_price [Fin 100; NaN; PInf; Fin 3]). cbn. lia.
Defined.
End DrawdownProperties.

(** ** optimizeYieldStrategy: the amounts allocated *)

Module OptimizerProperties.
Import Number NumberProperties BaseYieldCalculator Notions.
Open Scope R_scope.

Lemma min_fin_bounds (a b : num) (x : R) :
  min a b = Fin x -> le (Fin x) a = true /\ le (Fin x) b = true.
Proof.
  destruct a as [u | | |], b as [v | | |]; cbn; try discriminate;
    repeat match goal with
           | |- context [Rltb ?p ?q] => destruct (Rltb p q) eqn:?
           end;
    intros H; inversion H; subst; clear H; cbn;
    repeat match goal with
           | H : Rltb _ _ = true |- _ => apply Rltb_true in H
           | H : Rltb _ _ = false |- _ => apply Rltb_false in H
           end;
    split; try reflexivity; apply Rleb_true; lra.
Qed.

(** A finite minimum of the chain of [Math.min] calls is at most the
    second bound, whatever that bound is. *)
Lemma min_chain_le (r : R) (X : num) (c v x : R) :
  min (min (min (Fin r) X) (Fin c)) (Fin v) = Fin x -> le (Fin x) X = true.
Proof.
  destruct X as [w | | |]; cbn;
    repeat (match goal with
            | |- context [Rltb ?p ?q] => destruct (Rltb p q) eqn:?
            end; cbn);
    intros H; inversion H; subst; clear H; try reflexivity;
    repeat match goal with
           | H : Rltb _ _ = true |- _ => apply Rltb_true in H
           | H : Rltb _ _ = false |- _ => apply Rltb_false in H
           end;
    apply Rleb_true; lra.
Qed.

Lemma pow_07_pos (n : nat) : 0 < 0.7 ^ n.
Proof. apply pow_lt. lra. Qed.

Lemma allocate_step_keeps_cash (t : R) (m : num) (st : allocating) (s : Strategy) :
  0 < t -> keeps_cash t m st -> keeps_cash t m (allocate_step (Fin t) m st s).
Proof.
  intros Ht (r & Hr & Hrange & Hall). unfold allocate_step. rewrite Hr.
  change (mul (Fin r) (Fin 0.3)) with (Fin (r * 0.3)).
  destruct (gt (min _ (Fin (r * 0.3))) (Fin 1000)) eqn:E.
  - destruct (BaseYieldCalculatorProperties.min_fin_above _ _ _ E) as (x & Hx & Hle & Hgt).
    rewrite Hx.
    assert (Hr0 : 0 < r).
    { pose proof (pow_07_pos (length (allocations st))) as Hp.
      assert (0 < 0.7 ^ length (allocations st) * t) by (apply Rmult_lt_0_compat; lra). lra. }
    exists (r - x). cbn [remainingCapital allocations].
    split; [reflexivity |]. split.
    + rewrite length_app. cbn [length]. rewrite Nat.add_1_r. cbn [pow].
      set (P := 0.7 ^ length (allocations st)) in *.
      replace (0.7 * P * t) with (0.7 * (P * t)) by ring. lra.
    + apply Forall_app. split; [exact Hall |]. constructor; [| constructor].
      exists x. cbn [allocation]. split; [reflexivity |]. split; [lra |].
      change (mul (Fin t) (Fin 0.8)) with (Fin (t * 0.8)) in Hx.
      exact (min_chain_le _ _ _ _ _ Hx).
  - exists r. auto.
Qed.

Lemma allocate_keeps_cash (t : R) (m : num) (valid : list Strategy) (st : allocating) :
  0 < t -> keeps_cash t m st -> keeps_cash t m (allocate (Fin t) m valid st).
Proof.
  intros Ht. revert st. induction valid as [| s valid IH]; intros st H; cbn [allocate].
  - exact H.
  - destruct (le (remainingCapital st) (Fin 0)); [exact H |].
    apply IH. apply allocate_step_keeps_cash; assumption.
Qed.

Lemma keeps_cash_initial (t : R) (m : num) :
  keeps_cash t m {| allocations := []; remainingCapital := Fin t; totalAllocatedRisk := Fin 0 |}.
Proof.
  exists t. cbn. split; [reflexivity |]. split; [lra | constructor].
Qed.

Lemma allocate_nothing (t : R) (m : num) (valid : list Strategy) (st : allocating) :
  t <= 0 -> remainingCapital st = Fin t -> allocate (Fin t) m valid st = st.
Proof.
  intros Ht Hr. destruct valid as [| s valid]; cbn [allocate]; [reflexivity |].
  rewrite Hr. cbn. apply Rleb_true in Ht. rewrite Ht. reflexivity.
Qed.

(** The state of the allocation loop when [optimizeYieldStrategy] returns
    allocations. *)
Lemma optimizeYieldStrategy_allocate (h : store) (strategies : list loc) (c : Constraints) :
  match snd (optimizeYieldStrategy h strategies c) with
  | NoStrategies _ => True
  | Optimized allocs metrics =>
      exists valid,
        let T := param (totalCapital c) (Fin 100000) in
        let st := allocate T (param (maxAllocationPerStrategy c) (Fin 0.4)) valid
                    {| allocations := []; remainingCapital := T;
                       totalAllocatedRisk := Fin 0 |} in
        allocs = allocations st /\ metrics = portfolio_metrics T st
  end.
Proof.
  unfold optimizeYieldStrategy.
  destruct (validStrategies h _ _ strategies); cbn [snd]; [exact I |].
  eexists. split; reflexivity.
Qed.

(** Every amount [optimizeYieldStrategy] allocates from a finite total
    capital [t] is above 1000, at most 30% of [t] and at most
    [t * maxAllocationPerStrategy]; a capital of 10000/3 or less is never
    allocated at all. *)
Theorem allocations_bounded (h : store) (strategies : list loc) (c : Constraints) (t : R) :
  param (totalCapital c) (Fin 100000) = Fin t ->
  Forall (bounded_allocation t (param (maxAllocationPerStrategy c) (Fin 0.4)))
         (allocations_of (snd (optimizeYieldStrategy h strategies c)))
  /\ (t <= 10000 / 3 -> allocations_of (snd (optimizeYieldStrategy h strategies c)) = []).
Proof.
  intros HT.
  assert (H : Forall (bounded_allocation t (param (maxAllocationPerStrategy c) (Fin 0.4)))
                     (allocations_of (snd (optimizeYieldStrategy h strategies c)))).
  { pose proof (optimizeYieldStrategy_allocate h strategies c) as Hrun.
    destruct (snd (optimizeYieldStrategy h strategies c)) as [e | allocs metrics];
      cbn [allocations_of]; [constructor |].
    destruct Hrun as (valid & -> & _). rewrite HT.
    destruct (Rlt_dec 0 t) as [Ht | Ht].
    - destruct (allocate_keeps_cash t (param (maxAllocationPerStrategy c) (Fin 0.4)) valid _
                  Ht (keeps_cash_initial t _)) as (r & _ & _ & Hall).
      exact Hall.
    - rewrite allocate_nothing; [constructor | lra | reflexivity]. }
  split; [exact H |].
  intros Hsmall.
  destruct (allocations_of (snd (optimizeYieldStrategy h strategies c))) as [| a rest];
    [reflexivity |].
  inversion H as [| ? ? (x & _ & Hx & _) _]; subst. lra.
Qed.

Lemma allocations_bounded_witness :
  Forall (bounded_allocation 100000 (Fin 0.4))
         (allocations_of
            (snd (optimizeYieldStrategy
                    {[ 0%nat := {| name := "Strategy A"; apy := Fin 12; risk := Fin 0.2;
                                   liquidity := Fin 80; riskAdjustedReturn := None;
                                   score := None |} ]}
                    [0%nat]
                    {| maxRisk := None; minYield := None;
                       maxAllocationPerStrategy := None; totalCapital := None |})))
  /\ (100000 <= 10000 / 3 ->
      allocations_of
        (snd (optimizeYieldStrategy
                {[ 0%nat := {| name := "Strategy A"; apy := Fin 12; risk := Fin 0.2;
                               liquidity := Fin 80; riskAdjustedReturn := None;
                               score := None |} ]}
                [0%nat]
                {| maxRisk := None; minYield := None;
                   maxAllocationPerStrategy := None; totalCapital := None |})) = []).
Proof.
  apply (allocations_bounded
           {[ 0%nat := {| name := "Strategy A"; apy := Fin 12; risk := Fin 0.2;
                          liquidity := Fin 80; riskAdjustedReturn := None;
                          score := None |} ]}
           [0%nat]
           {| maxRisk := None; minYield := None;
              maxAllocationPerStrategy := None; totalCapital := None |} 100000).
  reflexivity.
Defined.

(** Once something is allocated, more than 2333 remains: the amount taken
    is above 1000 and at most 30% of what remained. *)
Lemma allocate_step_leaves_cash (t : R) (m : num) (st : allocating) (s : Strategy) :
  keeps_cash t m st ->
  (allocations st <> [] -> exists r, remainingCapital st = Fin r /\ 2333 < r) ->
  allocations (allocate_step (Fin t) m st s) <> [] ->
  exists r, remainingCapital (allocate_step (Fin t) m st s) = Fin r /\ 2333 < r.
Proof.
  intros (r & Hr & _ & _) Hleft. unfold allocate_step. rewrite Hr.
  change (mul (Fin r) (Fin 0.3)) with (Fin (r * 0.3)).
  destruct (gt (min _ (Fin (r * 0.3))) (Fin 1000)) eqn:E.
  - destruct (BaseYieldCalculatorProperties.min_fin_above _ _ _ E) as (x & Hx & Hle & Hgt).
    rewrite Hx. intros _. exists (r - x). cbn [remainingCapital].
    split; [reflexivity | lra].
  - intros Hne. destruct (Hleft Hne) as (r' & Hr' & Hbig). exists r'.
    split; [congruence | exact Hbig].
Qed.

Lemma allocate_leaves_cash (t : R) (m : num) (valid : list Strategy) (st : allocating) :
  0 < t -> keeps_cash t m st ->
  (allocations st <> [] -> exists r, remainingCapital st = Fin r /\ 2333 < r) ->
  allocations (allocate (Fin t) m valid st) <> [] ->
  exists r, remainingCapital (allocate (Fin t) m valid st) = Fin r /\ 2333 < r.
Proof.
  intros Ht. revert st. induction valid as [| s valid IH]; intros st Hk Hleft; cbn [allocate].
  - exact Hleft.
  - destruct (le (remainingCapital st) (Fin 0)); [exact Hleft |].
    apply IH.
    + apply allocate_step_keeps_cash; assumption.
    + apply allocate_step_leaves_cash; assumption.
Qed.

(** With a finite total capital [t] above zero the optimizer never
    allocates everything: each allocation takes at most 30% of what remains
    (as the program computes it), so the cash that remains is above zero,
    exceeds [0.69^n * t] after [n] allocations and 2333 once anything is
    allocated; the total allocated that is reported is the capital minus
    that cash. *)
Theorem remaining_cash_positive (h : store) (strategies : list loc) (c : Constraints) (t : R) :
  param (totalCapital c) (Fin 100000) = Fin t -> 0 < t ->
  match snd (optimizeYieldStrategy h strategies c) with
  | NoStrategies _ => True
  | Optimized allocs metrics =>
      exists r,
        remainingCash metrics = Fixed 2 (Fin r)
        /\ totalAllocated metrics = Fixed 2 (Fin (t - r))
        /\ 0 < r <= t
        /\ 0.69 ^ length allocs * t <= r
        /\ (allocs <> [] -> 2333 < r)
  end.
Proof.
  intros HT Ht.
  pose proof (optimizeYieldStrategy_allocate h strategies c) as Hrun.
  destruct (snd (optimizeYieldStrategy h strategies c)) as [e | allocs metrics]; [exact I |].
  destruct Hrun as (valid & -> & ->). rewrite HT.
  set (m := param (maxAllocationPerStrategy c) (Fin 0.4)).
  set (st0 := {| allocations := []; remainingCapital := Fin t; totalAllocatedRisk := Fin 0 |}).
  destruct (allocate_keeps_cash t m valid st0 Ht (keeps_cash_initial t m))
    as (r & Hr & Hrange & _).
  exists r. unfold portfolio_metrics. cbn [remainingCash totalAllocated]. rewrite Hr.
  split; [reflexivity |].
  split; [cbn; unfold Rminus; reflexivity |].
  pose proof (pow_07_pos (length (allocations (allocate (Fin t) m valid st0)))) as Hp.
  assert (H69 : 0.69 ^ length (allocations (allocate (Fin t) m valid st0))
                <= 0.7 ^ length (allocations (allocate (Fin t) m valid st0))).
  { apply pow_incr. lra. }
  split; [split; [| lra] |].
  { assert (0 < 0.7 ^ length (allocations (allocate (Fin t) m valid st0)) * t)
      by (apply Rmult_lt_0_compat; lra). lra. }
  split.
  - apply Rle_trans with (0.7 ^ length (allocations (allocate (Fin t) m valid st0)) * t);
      [| lra].
    apply Rmult_le_compat_r; [lra | exact H69].
  - intros Hne.
    destruct (allocate_leaves_cash t m valid st0 Ht (keeps_cash_initial t m)) as (r' & Hr' & Hbig).
    + intros Hx. exfalso. apply Hx. reflexivity.
    + exact Hne.
    + rewrite Hr in Hr'. inversion Hr'; subst. exact Hbig.
Qed.

Lemma remaining_cash_positive_witness :
  match snd (optimizeYieldStrategy
               {[ 0%nat := {| name := "Strategy A"; apy := Fin 12; risk := Fin 0.2;
                              liquidity := Fin 80; riskAdjustedReturn := None;
                              score := None |} ]}
               [0%nat]
               {| maxRisk := None; minYield := None;
                  maxAllocationPerStrategy := None; totalCapital := None |}) with
  | NoStrategies _ => True
  | Optimized allocs metrics =>
      exists r,
        remainingCash metrics = Fixed 2 (Fin r)
        /\ totalAllocated metrics = Fixed 2 (Fin (100000 - r))
        /\ 0 < r <= 100000
        /\ 0.69 ^ length allocs * 100000 <= r
        /\ (allocs <> [] -> 2333 < r)
  end.
Proof.
  apply (remaining_cash_positive
           {[ 0%nat := {| name := "Strategy A"; apy := Fin 12; risk := Fin 0.2;
                          liquidity := Fin 80; riskAdjustedReturn := None;
                          score := None |} ]}
           [0%nat]
           {| maxRisk := None; minYield := None;
              maxAllocationPerStrategy := None; totalCapital := None |} 100000).
  - reflexivity.
  - lra.
Defined.

Lemma candidate_monotone (t : R) (m : num) (r' r x' x : R) :
  r' <= r -> candidate t m r' = Fin x' -> candidate t m r = Fin x -> x' <= x.
Proof.
  unfold candidate. intros Hr.
  destruct (mul (Fin t) m) as [w | | |]; cbn;
    repeat (match goal with
            | |- context [Rltb ?p ?q] => destruct (Rltb p q) eqn:?
            end; cbn);
    intros H1 H2; inversion H1; inversion H2; subst; clear H1 H2;
    repeat match goal with
           | H : Rltb _ _ = true |- _ => apply Rltb_true in H
           | H : Rltb _ _ = false |- _ => apply Rltb_false in H
           end;
    lra.
Qed.

Lemma allocate_step_down (t : R) (m : num) (st : allocating) (s : Strategy) :
  allocating_down t m st -> allocating_down t m (allocate_step (Fin t) m st s).
Proof.
  intros (r & Hr & Hr0 & Hold & Hord). unfold allocate_step. rewrite Hr.
  fold (candidate t m r).
  destruct (gt (candidate t m r) (Fin 1000)) eqn:E; [| exists r; auto].
  assert (Hc : exists x, candidate t m r = Fin x /\ x <= r * 0.3 /\ 1000 < x).
  { unfold candidate in *. change (mul (Fin r) (Fin 0.3)) with (Fin (r * 0.3)) in *.
    apply BaseYieldCalculatorProperties.min_fin_above. exact E. }
  destruct Hc as (x & Hx & Hle & Hgt). rewrite Hx.
  exists (r - x). cbn [remainingCapital allocations].
  split; [reflexivity |]. split; [lra |]. split.
  - intros a r' x' Ha Hr' Hx'. apply in_app_or in Ha. destruct Ha as [Ha | [<- | []]].
    + apply (Hold a r' x' Ha); [lra | exact Hx'].
    + exists x. cbn [allocation]. split; [reflexivity |].
      apply (candidate_monotone t m r' r x' x); [lra | exact Hx' | exact Hx].
  - intros i j a b Hij Hi Hj.
    match type of Hj with
    | nth_error ?l _ = _ =>
        assert (Hjlen : (j < length l)%nat) by (apply nth_error_Some; rewrite Hj; discriminate)
    end.
    rewrite length_app in Hjlen. cbn [length] in Hjlen.
    rewrite nth_error_app1 in Hi by lia.
    destruct (Nat.eq_dec j (length (allocations st))) as [-> | Hne].
    + rewrite nth_error_app2 in Hj by lia. rewrite Nat.sub_diag in Hj. cbn in Hj.
      inversion Hj; subst b; clear Hj. cbn [allocation].
      destruct (Hold a r x (nth_error_In _ _ Hi) (Rle_refl r) Hx) as (xa & -> & Hxa).
      cbn. apply Rleb_true. exact Hxa.
    + rewrite nth_error_app1 in Hj by lia. exact (Hord i j a b Hij Hi Hj).
Qed.

Lemma allocate_down (t : R) (m : num) (valid : list Strategy) (st : allocating) :
  allocating_down t m st -> allocating_down t m (allocate (Fin t) m valid st).
Proof.
  revert st. induction valid as [| s valid IH]; intros st H; cbn [allocate].
  - exact H.
  - destruct (le (remainingCapital st) (Fin 0)); [exact H |].
    apply IH. apply allocate_step_down. exact H.
Qed.

(** The amounts are listed in non-increasing order: as the strategies are
    served by descending score, a strategy never receives more than one
    ranked before it.  Holds for every finite total capital. *)
Theorem allocations_non_increasing (h : store) (strategies : list loc) (c : Constraints)
    (t : R) :
  param (totalCapital c) (Fin 100000) = Fin t ->
  non_increasing (allocations_of (snd (optimizeYieldStrategy h strategies c))).
Proof.
  intros HT.
  pose proof (optimizeYieldStrategy_allocate h strategies c) as Hrun.
  destruct (snd (optimizeYieldStrategy h strategies c)) as [e | allocs metrics];
    cbn [allocations_of].
  - intros i j a b _ Hi _. destruct i; discriminate.
  - destruct Hrun as (valid & -> & _). rewrite HT.
    destruct (Rlt_dec 0 t) as [Ht | Ht].
    + assert (H0 : allocating_down t (param (maxAllocationPerStrategy c) (Fin 0.4))
                     {| allocations := []; remainingCapital := Fin t;
                        totalAllocatedRisk := Fin 0 |}).
      { exists t. cbn. split; [reflexivity |]. split; [exact Ht |]. split.
        - intros a r' x' [].
        - intros i j a b _ Hi _. destruct i; discriminate. }
      destruct (allocate_down t _ valid _ H0) as (r & _ & _ & _ & Hord). exact Hord.
    + rewrite allocate_nothing; [| lra | reflexivity].
      intros i j a b _ Hi _. destruct i; discriminate.
Qed.

Lemma allocations_non_increasing_witness :
  non_increasing
    (allocations_of
       (snd (optimizeYieldStrategy
               {[ 0%nat := {| name := "Strategy A"; apy := Fin 12; risk := Fin 0.2;
                              liquidity := Fin 80; riskAdjustedReturn := None;
                              score := None |} ]}
               [0%nat; 0%nat]
               {| maxRisk := None; minYield := None;
                  maxAllocationPerStrategy := None; totalCapital := None |}))).
Proof.
  apply (allocations_non_increasing
           {[ 0%nat := {| name := "Strategy A"; apy := Fin 12; risk := Fin 0.2;
                          liquidity := Fin 80; riskAdjustedReturn := None;
                          score := None |} ]}
           [0%nat; 0%nat]
           {| maxRisk := None; minYield := None;
              maxAllocationPerStrategy := None; totalCapital := None |} 100000).
  reflexivity.
Defined.

(** *** The order in which the strategies are served *)

Lemma insert_by_score_perm (h : store) (a : loc) (l : list loc) :
  insert_by_score h a l ≡ₚ a :: l.
Proof.
  induction l as [| b l IH]; cbn [insert_by_score]; [reflexivity |].
  destruct (gt (by_score h a b) (Fin 0)); [| reflexivity].
  rewrite IH. apply Permutation_swap.
Qed.

Lemma sort_by_score_perm (h : store) (l : list loc) : sort_by_score h l ≡ₚ l.
Proof.
  unfold sort_by_score. induction l as [| a l IH]; cbn [fold_right]; [reflexivity |].
  rewrite insert_by_score_perm, IH. reflexivity.
Qed.



Lemma allocate_names (T m : num) (valid : list Strategy) (st : allocating) :
  exists l,
    map strategy (allocations (allocate T m valid st)) = (map strategy (allocations st) ++ l)%list
    /\ sublist l (map name valid).
Proof.
  revert st. induction valid as [| s valid IH]; intros st; cbn [allocate map].
  - exists []. rewrite app_nil_r. split; [reflexivity | constructor].
  - destruct (le (remainingCapital st) (Fin 0)).
    + exists []. rewrite app_nil_r. split; [reflexivity | apply sublist_nil_l].
    + destruct (IH (allocate_step T m st s)) as (l & Hl & Hsub). rewrite Hl.
      unfold allocate_step.
      destruct (gt (min _ (mul (remainingCapital st) (Fin 0.3))) (Fin 1000)).
      * exists (name s :: l). cbn [allocations]. rewrite map_app. cbn [map strategy].
        rewrite <- app_assoc. split; [reflexivity | apply sublist_skip; exact Hsub].
      * exists l. split; [reflexivity | apply sublist_cons; exact Hsub].
Qed.

Lemma score_strategies_name (h : store) (valid : list loc) (l : loc) :
  name <$> score_strategies h valid !! l = name <$> h !! l.
Proof.
  rewrite BaseYieldCalculatorProperties.score_strategies_lookup.
  destruct (in_dec Nat.eq_dec l valid); [| reflexivity].
  destruct (h !! l); reflexivity.
Qed.

Lemma omap_names (h : store) (l : list loc) :
  map name (omap (fun x => h !! x) l) = omap (fun x => name <$> h !! x) l.
Proof.
  induction l as [| a l IH]; [reflexivity |].
  cbn. destruct (h !! a); cbn; [rewrite IH |]; auto.
Qed.

Lemma omap_length_le {A B : Type} (f : A -> option B) (l : list A) :
  (length (omap f l) <= length l)%nat.
Proof.
  induction l as [| a l IH]; [reflexivity |].
  cbn. destruct (f a); cbn; lia.
Qed.

Lemma omap_ext_in {A B : Type} (f g : A -> option B) (l : list A) :
  (forall x, f x = g x) -> omap f l = omap g l.
Proof.
  intros H. induction l as [| a l IH]; [reflexivity |].
  cbn. rewrite H, IH. reflexivity.
Qed.

Lemma allocate_served (h : store) (valid : list loc) (T m : num) :
  sublist (map strategy
             (allocations
                (allocate T m
                   (omap (fun l => score_strategies h valid !! l)
                         (sort_by_score (score_strategies h valid) valid))
                   {| allocations := []; remainingCapital := T;
                      totalAllocatedRisk := Fin 0 |})))
          (omap (fun l => name <$> h !! l) (sort_by_score (score_strategies h valid) valid)).
Proof.
  destruct (allocate_names T m
              (omap (fun l => score_strategies h valid !! l)
                    (sort_by_score (score_strategies h valid) valid))
              {| allocations := []; remainingCapital := T; totalAllocatedRisk := Fin 0 |})
    as (l & Hl & Hsub).
  rewrite Hl. cbn [allocations map app].
  rewrite omap_names in Hsub.
  rewrite (omap_ext_in _ (fun x => name <$> h !! x)) in Hsub; [exact Hsub |].
  intros x. apply score_strategies_name.
Qed.

(** The strategies the loop serves: a rearrangement of the filtered array,
    of which the named allocations follow the order. *)
Lemma optimizeYieldStrategy_served (h : store) (strategies : list loc) (c : Constraints) :
  sublist (map strategy (allocations_of (snd (optimizeYieldStrategy h strategies c))))
          (omap (fun l => name <$> h !! l)
                (sort_by_score
                   (fst (optimizeYieldStrategy h strategies c))
                   (validStrategies h (param (minYield c) (Fin 5))
                      (param (maxRisk c) (Fin 0.3)) strategies))).
Proof.
  rewrite BaseYieldCalculatorProperties.optimizeYieldStrategy_store.
  unfold optimizeYieldStrategy.
  set (valid := validStrategies h _ _ strategies).
  destruct valid as [| v valid'] eqn:E; cbn [snd allocations_of map].
  - apply sublist_nil_l.
  - apply allocate_served.
Qed.

(** Only strategies that pass the filter receive an allocation, and each
    entry of the filtered array receives at most one: the strategy names of
    the allocations are, in order, names of a rearrangement of the filtered
    array (for every input, also with scores that are not numbers). *)
Theorem one_allocation_per_valid_strategy (h : store) (strategies : list loc)
    (c : Constraints) :
  exists served : list loc,
    served ≡ₚ validStrategies h (param (minYield c) (Fin 5)) (param (maxRisk c) (Fin 0.3))
                strategies
    /\ sublist (map strategy (allocations_of (snd (optimizeYieldStrategy h strategies c))))
               (omap (fun l => name <$> h !! l) served)
    /\ (length (allocations_of (snd (optimizeYieldStrategy h strategies c)))
        <= length strategies)%nat.
Proof.
  eexists. split; [apply sort_by_score_perm |].
  pose proof (optimizeYieldStrategy_served h strategies c) as Hs.
  split; [exact Hs |].
  apply sublist_length in Hs. rewrite length_map in Hs.
  etransitivity; [exact Hs |].
  etransitivity; [apply omap_length_le |].
  rewrite sort_by_score_perm. unfold validStrategies. apply List.filter_length_le.
Qed.




End OptimizerProperties.

(** ** Liquidity-pool, farming and risk figures of BaseYieldCalculator *)

Module YieldAnalyticsProperties.
Import Number NumberProperties BaseYieldCalculator Notions.
Open Scope R_scope.

(** *** calculateLPYield *)

Lemma own_property_None {A : Type} (table : list (string * A)) (key : string) :
  own_property table key = None <-> ~ In key (map fst table).
Proof.
  induction table as [| [k v] table IH]; cbn.
  - tauto.
  - destruct (String.eqb k key) eqn:E.
    + apply String.eqb_eq in E. split; [discriminate | intros H; exfalso; apply H; auto].
    + apply String.eqb_neq in E. rewrite IH. tauto.
Qed.

Lemma existsb_eqb_In (key : string) (keys : list string) :
  existsb (String.eqb key) keys = true <-> In key keys.
Proof.
  rewrite existsb_exists. split.
  - intros (x & Hx & E). apply String.eqb_eq in E. subst. exact Hx.
  - intros H. exists key. split; [exact H | apply String.eqb_refl].
Qed.

Lemma mul_nan_r (a : num) : mul a NaN = NaN.
Proof. destruct a; reflexivity. Qed.

(** [calculateLPYield] raises ['Unsupported protocol'] exactly for the names
    that are neither a key of the protocol table nor a property every object
    inherits.  For an inherited name such as ['constructor'] or ['toString']
    the lookup yields an object without fee data, nothing is raised, and
    the earnings and the APY are [NaN]. *)
Theorem calculateLPYield_unsupported (principal dailyVolume poolTVL : num) (protocol : string) :
  (calculateLPYield principal dailyVolume protocol poolTVL = Throw (Error "Unsupported protocol")
   <-> ~ In protocol (map fst protocols ++ object_prototype_keys))
  /\ (In protocol object_prototype_keys ->
      exists r,
        calculateLPYield principal dailyVolume protocol poolTVL = Normal r
        /\ lp_annualEarnings r = NaN /\ lp_apy r = Fixed 2 NaN).
Proof.
  unfold calculateLPYield, protocol_data. split.
  - rewrite in_app_iff.
    destruct (own_property protocols protocol) as [data |] eqn:Eown.
    + split; [discriminate |]. intros H. exfalso. apply H. left.
      destruct (in_dec string_dec protocol (map fst protocols)) as [Hin | Hn]; [exact Hin |].
      apply own_property_None in Hn. congruence.
    + apply own_property_None in Eown.
      destruct (existsb (String.eqb protocol) object_prototype_keys) eqn:Ex.
      * apply existsb_eqb_In in Ex. split; [discriminate | tauto].
      * split; [| reflexivity]. intros _ [H | H]; [tauto |].
        apply existsb_eqb_In in H. congruence.
  - intros Hin.
    assert (Hown : own_property protocols protocol = None).
    { apply own_property_None. intros H. cbn in H, Hin.
      repeat match goal with
             | H : _ \/ _ |- _ => destruct H
             | H : False |- _ => destruct H
             end; subst; discriminate. }
    rewrite Hown. apply existsb_eqb_In in Hin. rewrite Hin.
    eexists. split; [reflexivity |]. cbn [lp_annualEarnings lp_apy fee baseMultiplier].
    rewrite !mul_nan_r. cbn. split; reflexivity.
Qed.

(** *** calculateSharpeRatio *)

(** With a finite volatility above zero the rating is decided by the
    excess return [e = returns - riskFreeRate] against multiples of the
    volatility [v]: Excellent above [2 v], Good above [v], Fair above
    [v / 2], Poor otherwise; and the interpretation text always belongs to
    the rating (the two lowest texts to Poor). *)
Theorem calculateSharpeRatio_rating (returns riskFree v : R) :
  0 < v ->
  let r := calculateSharpeRatio (Fin returns) (Some (Fin riskFree)) (Fin v) in
  let e := returns - riskFree in
  (rating r = "Excellent" <-> 2 * v < e)
  /\ (rating r = "Good" <-> v < e <= 2 * v)
  /\ (rating r = "Fair" <-> v / 2 < e <= v)
  /\ (rating r = "Poor" <-> e <= v / 2)
  /\ (interpretation r = "Outstanding risk-adjusted returns" <-> rating r = "Excellent")
  /\ (interpretation r = "Good risk-adjusted returns" <-> rating r = "Good")
  /\ (interpretation r = "Acceptable risk-adjusted returns" <-> rating r = "Fair").
Proof.
  intros Hv r e. subst r e. unfold calculateSharpeRatio, getSharpeInterpretation.
  cbn [rating interpretation param sub neg add].
  rewrite div_fin by lra. cbn [gt lt].
  assert (H2 : 2 < (returns + - riskFree) / v <-> 2 * v < returns - riskFree).
  { split; intros H.
    - apply (Rmult_lt_compat_r v) in H; [| exact Hv]. field_simplify in H; lra.
    - apply (Rmult_lt_reg_r v); [exact Hv |]. field_simplify; lra. }
  assert (H1 : 1 < (returns + - riskFree) / v <-> v < returns - riskFree).
  { split; intros H.
    - apply (Rmult_lt_compat_r v) in H; [| exact Hv]. field_simplify in H; lra.
    - apply (Rmult_lt_reg_r v); [exact Hv |]. field_simplify; lra. }
  assert (H05 : 0.5 < (returns + - riskFree) / v <-> v / 2 < returns - riskFree).
  { split; intros H.
    - apply (Rmult_lt_compat_r v) in H; [| exact Hv]. field_simplify in H; lra.
    - apply (Rmult_lt_reg_r v); [exact Hv |]. field_simplify; lra. }
  destruct (Rltb 2 _) eqn:E2; [apply Rltb_true in E2 | apply Rltb_false in E2];
    [| destruct (Rltb 1 _) eqn:E1; [apply Rltb_true in E1 | apply Rltb_false in E1];
       [| destruct (Rltb 0.5 _) eqn:E05;
          [apply Rltb_true in E05 | apply Rltb_false in E05];
          [| destruct (Rltb 0 _)]]];
    repeat apply conj; intros; try discriminate; try reflexivity; try lra;
    exfalso; lra.
Qed.

Lemma calculateSharpeRatio_rating_witness :
  (rating (calculateSharpeRatio (Fin 15) (Some (Fin 2)) (Fin 10)) = "Excellent"
   <-> 2 * 10 < 15 - 2)
  /\ (rating (calculateSharpeRatio (Fin 15) (Some (Fin 2)) (Fin 10)) = "Good"
      <-> 10 < 15 - 2 <= 2 * 10)
  /\ (rating (calculateSharpeRatio (Fin 15) (Some (Fin 2)) (Fin 10)) = "Fair"
      <-> 10 / 2 < 15 - 2 <= 10)
  /\ (rating (calculateSharpeRatio (Fin 15) (Some (Fin 2)) (Fin 10)) = "Poor"
      <-> 15 - 2 <= 10 / 2)
  /\ (interpretation (calculateSharpeRatio (Fin 15) (Some (Fin 2)) (Fin 10))
      = "Outstanding risk-adjusted returns"
      <-> rating (calculateSharpeRatio (Fin 15) (Some (Fin 2)) (Fin 10)) = "Excellent")
  /\ (interpretation (calculateSharpeRatio (Fin 15) (Some (Fin 2)) (Fin 10))
      = "Good risk-adjusted returns"
      <-> rating (calculateSharpeRatio (Fin 15) (Some (Fin 2)) (Fin 10)) = "Good")
  /\ (interpretation (calculateSharpeRatio (Fin 15) (Some (Fin 2)) (Fin 10))
      = "Acceptable risk-adjusted returns"
      <-> rating (calculateSharpeRatio (Fin 15) (Some (Fin 2)) (Fin 10)) = "Fair").
Proof.
  apply (calculateSharpeRatio_rating 15 2 10). lra.
Defined.

(** *** calculateImpermanentLoss *)

Lemma loss_factor_range (r : R) :
  0 < r ->
  -1 < 2 * R_sqrt.sqrt r / (1 + r) + - 1 <= 0
  /\ (2 * R_sqrt.sqrt r / (1 + r) + - 1 = 0 <-> r = 1).
Proof.
  intros Hr.
  pose proof (sqrt_lt_R0 r Hr) as Hs.
  pose proof (sqrt_sqrt r (Rlt_le _ _ Hr)) as Hss.
  remember (R_sqrt.sqrt r) as q eqn:Eq.
  assert (Hsq : 0 <= (q - 1) * (q - 1)).
  { pose proof (Rle_0_sqr (q - 1)) as H. unfold Rsqr in H. exact H. }
  assert (Hdiv : 2 * q / (1 + r) * (1 + r) = 2 * q) by (field; lra).
  assert (Hpos : 0 < 2 * q / (1 + r)).
  { apply Rmult_lt_0_compat; [lra |]. apply Rinv_0_lt_compat. lra. }
  assert (Hle : 2 * q / (1 + r) <= 1).
  { apply (Rmult_le_reg_r (1 + r)); [lra |]. rewrite Hdiv. nra. }
  split; [lra |]. split.
  - intros H0. assert (H1 : 2 * q / (1 + r) = 1) by lra.
    rewrite H1 in Hdiv. assert (q = 1) by nra. subst r. nra.
  - intros ->. assert (Hq : q = 1) by (rewrite Eq; apply sqrt_1). rewrite Hq. lra.
Qed.

(** For finite prices above zero whose ratio [current / initial] does not
    exceed [1e100], the signed impermanent loss [L] lies in [[-1, 0]] (the
    position never gains against holding), the loss percentage is [-100 L],
    between 0 and 100, and rebalancing is recommended exactly when that
    percentage is above 5. *)
Theorem calculateImpermanentLoss_range (initial current : R) :
  0 < initial -> 0 < current -> current <= huge * initial ->
  exists L,
    impermanentLoss (calculateImpermanentLoss (Fin initial) (Fin current))
    = Fixed 2 (Fin (L * 100))
    /\ lossPercentage (calculateImpermanentLoss (Fin initial) (Fin current))
       = Fixed 2 (Fin (- L * 100))
    /\ -1 <= L <= 0
    /\ 0 <= - L * 100 <= 100
    /\ recommendation (calculateImpermanentLoss (Fin initial) (Fin current))
       = (if Rlt_dec 5 (- L * 100) then "Consider rebalancing" else "Position stable")%string.
Proof.
  intros Hi Hc _.
  assert (Hr : 0 < current / initial) by (apply Rdiv_lt_0_compat; assumption).
  destruct (loss_factor_range _ Hr) as [Hrange _].
  exists (2 * R_sqrt.sqrt (current / initial) / (1 + current / initial) + - (1)).
  unfold calculateImpermanentLoss. cbn [impermanentLoss lossPercentage recommendation].
  rewrite (div_fin current initial) by lra.
  rewrite sqrt_fin by lra. cbn [mul add sub neg].
  rewrite div_fin by lra. unfold Number.sub. cbn [add neg mul abs].
  set (L := 2 * R_sqrt.sqrt (current / initial) / (1 + current / initial) + - (1)) in *.
  assert (HL : -1 < L <= 0) by exact Hrange.
  assert (Habs : Rabs (L * 100) = - L * 100) by (rewrite Rabs_left1 by nra; ring).
  rewrite Habs.
  split; [reflexivity |]. split; [reflexivity |]. split; [lra |]. split; [lra |].
  cbn [gt lt]. unfold Rltb. destruct (Rlt_dec 5 (- L * 100)); reflexivity.
Qed.

Lemma huge_large : 1000000 <= huge.
Proof. unfold huge. apply IZR_le. apply Z.leb_le. reflexivity. Qed.

Lemma calculateImpermanentLoss_range_witness :
  exists L,
    impermanentLoss (calculateImpermanentLoss (Fin 2500) (Fin 10000))
    = Fixed 2 (Fin (L * 100))
    /\ lossPercentage (calculateImpermanentLoss (Fin 2500) (Fin 10000))
       = Fixed 2 (Fin (- L * 100))
    /\ -1 <= L <= 0
    /\ 0 <= - L * 100 <= 100
    /\ recommendation (calculateImpermanentLoss (Fin 2500) (Fin 10000))
       = (if Rlt_dec 5 (- L * 100) then "Consider rebalancing" else "Position stable")%string.
Proof.
  apply (calculateImpermanentLoss_range 2500 10000); try lra.
  pose proof huge_large. nra.
Defined.

(** *** calculateVaR *)

Lemma zScore_bounds (c : num) : exists z, zScore c = Fin z /\ 1.645 <= z.
Proof.
  unfold zScore. destruct (strict_eq c (Fin 0.95)); [eexists; split; [reflexivity | lra] |].
  destruct (strict_eq c (Fin 0.99)); eexists; split; try reflexivity; lra.
Qed.

Lemma var_step_valued (T V s : R) (p : Position) :
  0 <= T -> valued p -> sigma p s ->
  exists T' V',
    var_step (Fin T, Fin V) p = (Fin T', Fin V')
    /\ 0 < T' /\ V <= V' /\ (T = 0 -> V' = V + s * s).
Proof.
  intros HT (a & b & Ha & Hb & Hv) Hs. unfold var_step, sigma in *.
  cbn [fst snd]. rewrite Ha, Hb, Hs. cbn [mul add pow2].
  rewrite div_fin by lra. cbn [mul add].
  eexists _, _. split; [reflexivity |]. split; [lra |]. split.
  - assert (0 <= s * s * (a * b / (T + a * b) * (a * b / (T + a * b)))); [| lra].
    apply Rmult_le_pos; apply Rle_0_sqr.
  - intros ->. rewrite Rplus_0_l. unfold Rdiv. rewrite Rinv_r by lra. ring.
Qed.

Lemma var_fold_valued (rest : list Position) (T V : R) :
  0 < T -> Forall valued rest -> Forall (fun p => exists s, sigma p s) rest ->
  exists T' V',
    fold_left var_step rest (Fin T, Fin V) = (Fin T', Fin V') /\ 0 < T' /\ V <= V'.
Proof.
  revert T V. induction rest as [| p rest IH]; intros T V HT Hval Hsig; cbn [fold_left].
  - exists T, V. split; [reflexivity |]. split; lra.
  - inversion Hval as [| ? ? Hp Hval']; inversion Hsig as [| ? ? [s Hs] Hsig']; subst.
    destruct (var_step_valued T V s p (Rlt_le _ _ HT) Hp Hs) as (T1 & V1 & E & HT1 & HV1 & _).
    rewrite E.
    destruct (IH T1 V1 HT1 Hval' Hsig') as (T2 & V2 & E2 & HT2 & HV2).
    exists T2, V2. split; [exact E2 |]. split; lra.
Qed.

Lemma moderate_valued (p : Position) : moderate p -> valued p.
Proof.
  intros (a & b & Ha & Hb & Hlo & _). exists a, b. split; [exact Ha |]. split; [exact Hb |].
  assert (0 < / huge); [| lra].
  apply Rinv_0_lt_compat. pose proof huge_large. lra.
Qed.

(** The weight of a position is taken against the running total, so the
    first position counts in full: for a portfolio of positions with finite
    values between [1e-100] and [1e100] and volatilities of magnitude at
    most [1e100], whenever the volatility of the first position has a
    magnitude of 0.031 or more (as with the default of 0.3) the risk level
    is 'High', whatever the other positions, the confidence level and the
    time horizon are. *)
Theorem calculateVaR_first_position_decides (first : Position) (rest : list Position)
    (s1 : R) (confidence horizon : option num) :
  Forall moderate (first :: rest) ->
  Forall sigma_moderate rest ->
  sigma first s1 -> 0.031 <= Rabs s1 <= huge ->
  exists r,
    calculateVaR {| positions := Some (first :: rest) |} confidence horizon = Normal r
    /\ riskLevel r = "High".
Proof.
  intros Hmod Hsig Hs1 [Hbig _].
  assert (Hval : Forall valued (first :: rest)).
  { eapply List.Forall_impl; [| exact Hmod]. exact moderate_valued. }
  assert (Hsig' : Forall (fun p => exists s, sigma p s) rest).
  { eapply List.Forall_impl; [| exact Hsig]. intros p (s & Hs & _). exists s. exact Hs. }
  inversion Hval as [| ? ? Hfirst Hrest]; subst.
  unfold calculateVaR. eexists. split; [reflexivity |]. cbn [riskLevel].
  unfold positions_or_empty. cbn [positions fold_left].
  destruct (var_step_valued 0 0 s1 first (Rle_refl 0) Hfirst Hs1)
    as (T1 & V1 & E1 & HT1 & _ & HV1).
  specialize (HV1 eq_refl). rewrite E1.
  destruct (var_fold_valued rest T1 V1 HT1 Hrest Hsig') as (T & V & E & HT & HV).
  rewrite E. cbn [fst snd].
  assert (HV0 : 0 <= V).
  { pose proof (Rle_0_sqr s1) as H. unfold Rsqr in H. lra. }
  rewrite sqrt_fin by exact HV0.
  assert (Hsqrt : Rabs s1 <= R_sqrt.sqrt V).
  { rewrite <- sqrt_Rsqr_abs. apply sqrt_le_1_alt. unfold Rsqr. lra. }
  destruct (zScore_bounds (param confidence (Fin 0.95))) as (z & Hz & Hzlo).
  rewrite Hz. cbn [mul]. rewrite div_fin by lra. cbn [gt lt].
  assert (Hratio : 0.05 < T * R_sqrt.sqrt V * z / T).
  { replace (T * R_sqrt.sqrt V * z / T) with (R_sqrt.sqrt V * z) by (field; lra).
    pose proof (Rabs_pos s1). nra. }
  apply Rltb_true in Hratio. rewrite Hratio. reflexivity.
Qed.

Lemma calculateVaR_first_position_decides_witness :
  exists r,
    calculateVaR
      {| positions :=
           Some [ {| asset := "USDC"; amount := Fin 1; price := Fin 1; volatility := None |};
                  {| asset := "DAI"; amount := Fin 1000000; price := Fin 1;
                     volatility := Some (Fin 0.001) |} ] |}
      None None = Normal r
    /\ riskLevel r = "High".
Proof.
  pose proof huge_large as Hh.
  assert (Hinv : / huge <= 1).
  { rewrite <- Rinv_1. apply Rinv_le_contravar; lra. }
  apply (calculateVaR_first_position_decides
           {| asset := "USDC"; amount := Fin 1; price := Fin 1; volatility := None |}
           [ {| asset := "DAI"; amount := Fin 1000000; price := Fin 1;
                volatility := Some (Fin 0.001) |} ]
           0.3 None None).
  - repeat constructor; eexists _, _; cbn; repeat split; lra.
  - repeat constructor. exists 0.001. unfold sigma. cbn. real_cases.
    split; [reflexivity |]. rewrite Rabs_pos_eq; lra.
  - reflexivity.
  - rewrite Rabs_pos_eq; lra.
Defined.
End YieldAnalyticsProperties.

(** ** BaseRiskAssessment: correlations, concentration and value at risk *)

Module RiskAssessmentProperties.
Import Number NumberProperties BaseRiskAssessment Notions.
Open Scope R_scope.

(** *** getAssetCorrelation *)

Lemma property_correlations (key : string) :
  property correlations key = None
  \/ (key = "ETH-BTC"%string /\ property correlations key = Some (Fin 0.7))
  \/ (key = "USDC-USDT"%string /\ property correlations key = Some (Fin 0.95))
  \/ (key = "ETH-USDC"%string /\ property correlations key = Some (Fin 0.1))
  \/ (key = "BTC-USDC"%string /\ property correlations key = Some (Fin 0.05)).
Proof.
  unfold correlations. cbn [property].
  destruct (String.eqb "ETH-BTC" key) eqn:E1;
    [apply String.eqb_eq in E1; subst; right; left; split; reflexivity |].
  destruct (String.eqb "USDC-USDT" key) eqn:E2;
    [apply String.eqb_eq in E2; subst; right; right; left; split; reflexivity |].
  destruct (String.eqb "ETH-USDC" key) eqn:E3;
    [apply String.eqb_eq in E3; subst; right; right; right; left; split; reflexivity |].
  destruct (String.eqb "BTC-USDC" key) eqn:E4;
    [apply String.eqb_eq in E4; subst; right; right; right; right; split; reflexivity |].
  left. reflexivity.
Qed.

Lemma or_default_fin (x : R) (d : num) : x <> 0 -> or_default (Some (Fin x)) d = Fin x.
Proof.
  intros Hx. cbn. apply Reqb_false in Hx. rewrite Hx. reflexivity.
Qed.

(** Every correlation is one of the four table values or the default 0.3. *)
Lemma getAssetCorrelation_value (asset1 asset2 : string) :
  exists c, getAssetCorrelation asset1 asset2 = Fin c /\ 0.05 <= c <= 0.95.
Proof.
  unfold getAssetCorrelation.
  destruct (property_correlations (asset1 ++ "-" ++ asset2))
    as [-> | [[_ ->] | [[_ ->] | [[_ ->] | [_ ->]]]]];
    try (rewrite or_default_fin by lra; eexists; split; [reflexivity | lra]).
  cbn [or_default].
  destruct (property_correlations (asset2 ++ "-" ++ asset1))
    as [-> | [[_ ->] | [[_ ->] | [[_ ->] | [_ ->]]]]];
    try (rewrite or_default_fin by lra; eexists; split; [reflexivity | lra]).
  cbn [or_default]. eexists; split; [reflexivity | lra].
Qed.

Lemma hyphen_free_append (a b : string) :
  hyphen_free (String.append a (String "-" b)) = false.
Proof.
  induction a as [| c a IH]; [reflexivity |].
  change (String.append (String c a) (String "-" b))
    with (String c (String.append a (String "-" b))).
  cbn [hyphen_free]. rewrite IH. apply andb_false_r.
Qed.

(** A key [x-y] built from names without hyphen splits in one way only. *)
Lemma key_inj (x y a b : string) :
  hyphen_free x = true -> hyphen_free y = true ->
  String.append a (String "-" b) = String.append x (String "-" y) ->
  a = x /\ b = y.
Proof.
  revert a. induction x as [| c x IH]; intros a Hx Hy H.
  - destruct a as [| c' a].
    + change (String "-" b = String "-" y) in H. inversion H. auto.
    + change (String c' (String.append a (String "-" b)) = String "-" y) in H.
      inversion H as [[Hc Hrest]]. rewrite <- Hrest in Hy.
      rewrite hyphen_free_append in Hy. discriminate.
  - cbn [hyphen_free] in Hx. apply andb_prop in Hx. destruct Hx as [Hc Hx].
    destruct a as [| c' a].
    + change (String "-" b = String c (String.append x (String "-" y))) in H.
      inversion H as [[Hc' Hrest]]. rewrite <- Hc' in Hc. cbn in Hc. discriminate.
    + change (String c' (String.append a (String "-" b))
              = String c (String.append x (String "-" y))) in H.
      inversion H as [[Hc' Hrest]]. destruct (IH a Hx Hy Hrest) as [-> ->]. auto.
Qed.

Lemma property_reverse (asset1 asset2 : string) (v : num) :
  property correlations (asset1 ++ "-" ++ asset2) = Some v ->
  property correlations (asset2 ++ "-" ++ asset1) = None.
Proof.
  intros H.
  destruct (property_correlations (asset1 ++ "-" ++ asset2))
    as [E | [[E _] | [[E _] | [[E _] | [E _]]]]]; [congruence | | | |].
  - destruct (key_inj "ETH" "BTC" asset1 asset2 eq_refl eq_refl E) as [-> ->]. reflexivity.
  - destruct (key_inj "USDC" "USDT" asset1 asset2 eq_refl eq_refl E) as [-> ->]. reflexivity.
  - destruct (key_inj "ETH" "USDC" asset1 asset2 eq_refl eq_refl E) as [-> ->]. reflexivity.
  - destruct (key_inj "BTC" "USDC" asset1 asset2 eq_refl eq_refl E) as [-> ->]. reflexivity.
Qed.

(** The correlation of two assets does not depend on their order, and it
    is always a finite number between 0.05 and 0.95 (a table value or the
    default 0.3), whatever the asset names are. *)
Theorem getAssetCorrelation_symmetric (asset1 asset2 : string) :
  getAssetCorrelation asset1 asset2 = getAssetCorrelation asset2 asset1
  /\ exists c, getAssetCorrelation asset1 asset2 = Fin c /\ 0.05 <= c <= 0.95.
Proof.
  split; [| apply getAssetCorrelation_value].
  unfold getAssetCorrelation.
  destruct (property correlations (asset1 ++ "-" ++ asset2)) as [v |] eqn:E1.
  - rewrite (property_reverse _ _ _ E1). cbn [or_default].
    destruct (truthy v); reflexivity.
  - destruct (property correlations (asset2 ++ "-" ++ asset1)) as [w |] eqn:E2.
    + cbn [or_default]. destruct (truthy w); reflexivity.
    + reflexivity.
Qed.

(** *** calculateConcentrationRisk *)

Lemma valued_value (p : Position) :
  valued p -> mul (amount p) (price p) = Fin (value_of p) /\ 0 < value_of p.
Proof.
  intros (a & b & Ha & Hb & Hv). unfold value_of. rewrite Ha, Hb. cbn. auto.
Qed.

Lemma sum_of_cons (x : R) (xs : list R) : sum_of (x :: xs) = x + sum_of xs.
Proof. reflexivity. Qed.

Lemma sum_of_squares_cons (x : R) (xs : list R) :
  sum_of_squares (x :: xs) = x * x + sum_of_squares xs.
Proof. reflexivity. Qed.

Lemma sum_of_pos (xs : list R) : Forall (fun x => 0 < x) xs -> 0 <= sum_of xs.
Proof.
  induction 1 as [| x xs Hx _ IH]; [cbn; lra |].
  rewrite sum_of_cons. lra.
Qed.

Lemma sum_of_squares_le (xs : list R) :
  Forall (fun x => 0 < x) xs -> sum_of_squares xs <= sum_of xs * sum_of xs.
Proof.
  induction 1 as [| x xs Hx Hxs IH]; [cbn; lra |].
  rewrite sum_of_cons, sum_of_squares_cons.
  pose proof (sum_of_pos xs Hxs). nra.
Qed.

Lemma sum_of_squares_mean (xs : list R) (m : R) :
  0 <= sum_of_squares xs - 2 * m * sum_of xs + INR (length xs) * (m * m).
Proof.
  induction xs as [| x xs IH]; [cbn; lra |].
  change (length (x :: xs)) with (S (length xs)). rewrite S_INR.
  rewrite sum_of_cons, sum_of_squares_cons.
  pose proof (Rle_0_sqr (x - m)) as Hsq. unfold Rsqr in Hsq. nra.
Qed.

Lemma sum_of_squares_ge (xs : list R) :
  xs <> [] -> sum_of xs * sum_of xs / INR (length xs) <= sum_of_squares xs.
Proof.
  intros Hne.
  assert (Hn : 0 < INR (length xs)).
  { destruct xs; [contradiction |]. apply lt_0_INR. cbn. lia. }
  pose proof (sum_of_squares_mean xs (sum_of xs / INR (length xs))) as H.
  replace (sum_of_squares xs - 2 * (sum_of xs / INR (length xs)) * sum_of xs
           + INR (length xs) * (sum_of xs / INR (length xs) * (sum_of xs / INR (length xs))))
    with (sum_of_squares xs - sum_of xs * sum_of xs / INR (length xs)) in H
    by (field; lra).
  lra.
Qed.

Lemma total_value_fold (ps : list Position) (acc : R) :
  Forall valued ps ->
  fold_left (fun sum pos => add sum (mul (amount pos) (price pos))) ps (Fin acc)
  = Fin (acc + sum_of (map value_of ps)).
Proof.
  revert acc. induction ps as [| p ps IH]; intros acc H; cbn [fold_left map].
  - cbn. apply Fin_eq. lra.
  - inversion H as [| ? ? Hp Hps]; subst.
    destruct (valued_value p Hp) as [-> _]. cbn [add]. rewrite IH by exact Hps.
    apply Fin_eq. rewrite sum_of_cons. lra.
Qed.

Lemma herfindahl_fold (ps : list Position) (total acc : R) :
  total <> 0 -> Forall valued ps ->
  fold_left (fun herfindahlIndex position =>
               add herfindahlIndex
                   (mul (div (mul (amount position) (price position)) (Fin total))
                        (div (mul (amount position) (price position)) (Fin total))))
            ps (Fin acc)
  = Fin (acc + sum_of_squares (map value_of ps) / (total * total)).
Proof.
  intros Ht. revert acc. induction ps as [| p ps IH]; intros acc H; cbn [fold_left map].
  - cbn. apply Fin_eq. unfold Rdiv. lra.
  - inversion H as [| ? ? Hp Hps]; subst.
    destruct (valued_value p Hp) as [-> _]. rewrite div_fin by exact Ht. cbn [add mul].
    rewrite IH by exact Hps. apply Fin_eq. rewrite sum_of_squares_cons. field. exact Ht.
Qed.

Lemma values_positive (ps : list Position) :
  Forall valued ps -> Forall (fun x => 0 < x) (map value_of ps).
Proof.
  induction 1 as [| p ps Hp _ IH]; cbn; constructor; [| exact IH].
  apply valued_value. exact Hp.
Qed.

(** For a portfolio of one or more positions with finite values between
    [1e-100] and [1e100] the concentration score (the Herfindahl index of
    the weights) is above 0 and at most 1.  A rating of 'Low' needs at least
    four positions, and a single position always scores 1 and is rated
    'High' with the advice to diversify. *)
Theorem calculateConcentrationRisk_range (ps : list Position) :
  ps <> [] -> Forall moderate ps ->
  exists H,
    score (calculateConcentrationRisk {| positions := Some ps |}) = Fin H
    /\ 0 < H <= 1
    /\ (level (calculateConcentrationRisk {| positions := Some ps |}) = "Low"
        -> (4 <= length ps)%nat)
    /\ (length ps = 1%nat ->
        H = 1
        /\ level (calculateConcentrationRisk {| positions := Some ps |}) = "High"
        /\ recommendation (calculateConcentrationRisk {| positions := Some ps |})
           = "Diversify portfolio").
Proof.
  intros Hne Hmod.
  assert (Hval : Forall valued ps).
  { eapply List.Forall_impl; [| exact Hmod].
    exact YieldAnalyticsProperties.moderate_valued. }
  pose proof (values_positive ps Hval) as Hpos.
  set (xs := map value_of ps) in *.
  assert (Hlen : length xs = length ps) by (unfold xs; apply length_map).
  assert (Hxs : xs <> []) by (destruct ps; [contradiction | discriminate]).
  assert (Hn : 0 < INR (length ps)).
  { destruct ps; [contradiction |]. apply lt_0_INR. cbn. lia. }
  assert (HS : 0 < sum_of xs).
  { destruct xs as [| x xs']; [contradiction |]. inversion Hpos; subst.
    pose proof (sum_of_pos xs' ltac:(assumption)). rewrite sum_of_cons. lra. }
  pose proof (sum_of_squares_le xs Hpos) as Hle.
  pose proof (sum_of_squares_ge xs Hxs) as Hge. rewrite Hlen in Hge.
  set (H := sum_of_squares xs / (sum_of xs * sum_of xs)).
  assert (Hscore : score (calculateConcentrationRisk {| positions := Some ps |}) = Fin H).
  { unfold calculateConcentrationRisk, positions_or_empty. cbn [positions score].
    rewrite (total_value_fold ps 0 Hval). fold xs. rewrite Rplus_0_l.
    rewrite (herfindahl_fold ps (sum_of xs) 0) by (try lra; exact Hval).
    fold xs. apply Fin_eq. unfold H. lra. }
  assert (HSS : 0 < sum_of xs * sum_of xs) by nra.
  assert (Hhi : H <= 1).
  { unfold H. apply (Rmult_le_reg_r (sum_of xs * sum_of xs)); [exact HSS |].
    field_simplify; lra. }
  assert (Hlo : / INR (length ps) <= H).
  { unfold H. apply (Rmult_le_reg_r (sum_of xs * sum_of xs)); [exact HSS |].
    replace (sum_of_squares xs / (sum_of xs * sum_of xs) * (sum_of xs * sum_of xs))
      with (sum_of_squares xs) by (field; lra).
    unfold Rdiv in Hge. lra. }
  assert (Hlo0 : 0 < H).
  { pose proof (Rinv_0_lt_compat _ Hn). lra. }
  assert (Hlevel : forall l, level (calculateConcentrationRisk {| positions := Some ps |}) = l ->
                   l = if Rlt_dec 0.5 H then "High"%string
                       else if Rlt_dec 0.25 H then "Medium"%string else "Low"%string).
  { intros l <-. revert Hscore. unfold calculateConcentrationRisk. cbn [score level].
    intros ->. cbn [gt lt]. unfold Rltb.
    destruct (Rlt_dec 0.5 H); [reflexivity |]. destruct (Rlt_dec 0.25 H); reflexivity. }
  exists H. split; [exact Hscore |]. split; [split; assumption |]. split.
  - intros Hlow. apply Hlevel in Hlow.
    destruct (Rlt_dec 0.5 H); [discriminate |]. destruct (Rlt_dec 0.25 H); [discriminate |].
    destruct (le_lt_dec 4 (length ps)) as [H4 | H4]; [exact H4 |]. exfalso.
    assert (Hn3 : INR (length ps) <= 3).
    { replace 3 with (INR 3) by (cbn; lra). apply le_INR. lia. }
    assert (/ 3 <= / INR (length ps)) by (apply Rinv_le_contravar; lra).
    lra.
  - intros H1. rewrite H1 in Hlo. cbn in Hlo. rewrite Rinv_1 in Hlo.
    assert (HH : H = 1) by lra. split; [exact HH |].
    revert Hscore. unfold calculateConcentrationRisk. cbn [score level recommendation].
    intros ->. rewrite HH. cbn [gt lt]. unfold Rltb.
    destruct (Rlt_dec 0.5 1); [split; reflexivity | lra].
Qed.

(** Four equal positions, the smallest portfolio rated 'Low'. *)
Lemma calculateConcentrationRisk_range_witness :
  let ps := [ {| asset := "ETH"; amount := Fin 2; price := Fin 2500; volatility := None |};
              {| asset := "BTC"; amount := Fin 5000; price := Fin 1; volatility := None |};
              {| asset := "USDC"; amount := Fin 5000; price := Fin 1; volatility := None |};
              {| asset := "USDT"; amount := Fin 5000; price := Fin 1; volatility := None |} ] in
  (exists H,
     score (calculateConcentrationRisk {| positions := Some ps |}) = Fin H
     /\ 0 < H <= 1
     /\ (level (calculateConcentrationRisk {| positions := Some ps |}) = "Low"
         -> (4 <= length ps)%nat)
     /\ (length ps = 1%nat ->
         H = 1
         /\ level (calculateConcentrationRisk {| positions := Some ps |}) = "High"
         /\ recommendation (calculateConcentrationRisk {| positions := Some ps |})
            = "Diversify portfolio"))
  /\ level (calculateConcentrationRisk {| positions := Some ps |}) = "Low".
Proof.
  intros ps. split.
  - pose proof YieldAnalyticsProperties.huge_large as Hh.
    assert (Hinv : / huge <= 1).
    { rewrite <- Rinv_1. apply Rinv_le_contravar; lra. }
    apply (calculateConcentrationRisk_range ps).
    + discriminate.
    + repeat constructor; eexists _, _; cbn; repeat split; lra.
  - unfold calculateConcentrationRisk, positions_or_empty, ps. cbn.
    real_cases. cbn. real_cases. reflexivity.
Defined.

(** *** calculatePortfolioVaR *)

Lemma variance_step_valued (T V : R) (p : Position) :
  0 <= T -> valued p -> sigma_nonneg p ->
  exists T' V', variance_step (Fin T, Fin V) p = (Fin T', Fin V') /\ 0 < T' /\ V <= V'.
Proof.
  intros HT Hp (s & Hs & _). destruct (valued_value p Hp) as [Hv Hv0].
  unfold variance_step, sigma in *. cbn [fst snd]. rewrite Hv, Hs. cbn [add].
  rewrite div_fin by lra. cbn [mul pow2 add].
  eexists _, _. split; [reflexivity |]. split; [lra |].
  pose proof (Rle_0_sqr (value_of p / (T + value_of p) * s)) as H. unfold Rsqr in H. lra.
Qed.

Lemma variance_fold_valued (ps : list Position) (T V : R) :
  0 <= T -> Forall valued ps -> Forall sigma_nonneg ps ->
  exists T' V',
    fold_left variance_step ps (Fin T, Fin V) = (Fin T', Fin V')
    /\ 0 <= T' /\ (ps <> [] -> 0 < T') /\ V <= V'.
Proof.
  revert T V. induction ps as [| p ps IH]; intros T V HT Hval Hsig; cbn [fold_left].
  - exists T, V. split; [reflexivity |]. split; [exact HT |]. split; [congruence | lra].
  - inversion Hval as [| ? ? Hp Hval']; inversion Hsig as [| ? ? Hs Hsig']; subst.
    destruct (variance_step_valued T V p HT Hp Hs) as (T1 & V1 & E & HT1 & HV1).
    rewrite E.
    destruct (IH T1 V1 (Rlt_le _ _ HT1) Hval' Hsig') as (T2 & V2 & E2 & HT2 & HT2' & HV2).
    exists T2, V2. split; [exact E2 |]. split; [exact HT2 |]. split; [| lra].
    intros _. destruct ps as [| q ps]; [| apply HT2'; discriminate].
    cbn in E2. inversion E2; subst. exact HT1.
Qed.

Lemma correlation_term_valued (T : R) (pi pj : Position) :
  0 < T -> valued pi -> valued pj -> sigma_nonneg pi -> sigma_nonneg pj ->
  exists x, correlation_term (Fin T) pi pj = Fin x /\ 0 <= x.
Proof.
  intros HT Hi Hj (si & Hsi & Hsi0) (sj & Hsj & Hsj0).
  destruct (valued_value pi Hi) as [Hvi Hvi0]. destruct (valued_value pj Hj) as [Hvj Hvj0].
  destruct (getAssetCorrelation_value (asset pi) (asset pj)) as (c & Hc & Hc0).
  unfold correlation_term, sigma in *. rewrite Hvi, Hvj, Hsi, Hsj, Hc.
  rewrite !div_fin by lra. cbn [mul].
  eexists. split; [reflexivity |].
  assert (0 <= value_of pi / T) by (apply Rmult_le_pos; [lra | left; apply Rinv_0_lt_compat; lra]).
  assert (0 <= value_of pj / T) by (apply Rmult_le_pos; [lra | left; apply Rinv_0_lt_compat; lra]).
  apply Rmult_le_pos; [| lra]. apply Rmult_le_pos; [| exact Hsj0].
  apply Rmult_le_pos; [| exact Hsi0]. apply Rmult_le_pos; [| assumption].
  apply Rmult_le_pos; [lra | assumption].
Qed.

Lemma correlation_row_valued (T : R) (pi : Position) (rest : list Position) (V : R) :
  0 < T -> valued pi -> sigma_nonneg pi -> Forall valued rest -> Forall sigma_nonneg rest ->
  exists V',
    fold_left (fun acc pj => add acc (correlation_term (Fin T) pi pj)) rest (Fin V) = Fin V'
    /\ V <= V'.
Proof.
  intros HT Hi Hsi. revert V.
  induction rest as [| pj rest IH]; intros V Hval Hsig; cbn [fold_left].
  - exists V. split; [reflexivity | lra].
  - inversion Hval as [| ? ? Hj Hval']; inversion Hsig as [| ? ? Hsj Hsig']; subst.
    destruct (correlation_term_valued T pi pj HT Hi Hj Hsi Hsj) as (x & -> & Hx).
    cbn [add]. destruct (IH (V + x) Hval' Hsig') as (V' & E & HV').
    exists V'. split; [exact E | lra].
Qed.

Lemma correlation_effects_valued (T : R) (ps : list Position) (V : R) :
  0 < T -> Forall valued ps -> Forall sigma_nonneg ps ->
  exists V', correlation_effects (Fin T) ps (Fin V) = Fin V' /\ V <= V'.
Proof.
  intros HT. revert V.
  induction ps as [| pi rest IH]; intros V Hval Hsig; cbn [correlation_effects].
  - exists V. split; [reflexivity | lra].
  - inversion Hval as [| ? ? Hi Hval']; inversion Hsig as [| ? ? Hsi Hsig']; subst.
    destruct (correlation_row_valued T pi rest V HT Hi Hsi Hval' Hsig') as (V1 & -> & HV1).
    destruct (IH V1 Hval' Hsig') as (V2 & E & HV2).
    exists V2. split; [exact E | lra].
Qed.

Lemma portfolio_value_and_variance_valued (ps : list Position) :
  Forall valued ps -> Forall sigma_nonneg ps ->
  exists T V, portfolio_value_and_variance ps = (Fin T, Fin V) /\ 0 <= T /\ 0 <= V.
Proof.
  intros Hval Hsig. unfold portfolio_value_and_variance.
  destruct (variance_fold_valued ps 0 0 (Rle_refl 0) Hval Hsig)
    as (T & V & E & HT & HT' & HV).
  rewrite E. cbn [fst snd].
  destruct ps as [| p ps].
  - cbn in E. inversion E; subst. exists 0, 0. cbn. split; [reflexivity | lra].
  - specialize (HT' ltac:(discriminate)).
    destruct (correlation_effects_valued T (p :: ps) V HT' Hval Hsig) as (V' & -> & HV').
    exists T, V'. split; [reflexivity | lra].
Qed.

(** For a portfolio of positions with finite values between [1e-100] and
    [1e100] and volatilities between 0 and [1e100], and a time horizon
    between 0 and [1e100], the three amounts at risk are finite, not
    negative and ordered by confidence: the 90% amount is at most the 95%
    amount, which is at most the 99% amount. *)
Theorem calculatePortfolioVaR_ordered (ps : list Position) (horizon : R) :
  Forall moderate ps -> Forall sigma_nonneg ps -> Forall sigma_moderate ps ->
  0 <= horizon <= huge ->
  exists x90 x95 x99,
    var_amounts (var (calculatePortfolioVaR {| positions := Some ps |} (Some (Fin horizon))))
    = [ ("90%"%string, Fixed 2 (Fin x90)); ("95%"%string, Fixed 2 (Fin x95));
        ("99%"%string, Fixed 2 (Fin x99)) ]
    /\ 0 <= x90 <= x95 /\ x95 <= x99.
Proof.
  intros Hmod Hsig _ [Hh _].
  assert (Hval : Forall valued ps).
  { eapply List.Forall_impl; [| exact Hmod].
    exact YieldAnalyticsProperties.moderate_valued. }
  destruct (portfolio_value_and_variance_valued ps Hval Hsig) as (T & V & E & HT & HV).
  unfold calculatePortfolioVaR, positions_or_empty. cbn [positions var param].
  rewrite E. cbn [fst snd].
  rewrite (sqrt_fin V HV), (sqrt_fin 365) by lra. rewrite (sqrt_fin horizon Hh).
  assert (H365 : 0 < R_sqrt.sqrt 365) by (apply sqrt_lt_R0; lra).
  rewrite div_fin by lra. cbn [mul].
  unfold var_amounts, zScores. cbn [map fst snd var_amount mul].
  eexists _, _, _. split; [reflexivity |].
  pose proof (sqrt_pos V) as HsV. pose proof (sqrt_pos horizon) as Hsh.
  assert (Hy : 0 <= T * (R_sqrt.sqrt V / R_sqrt.sqrt 365 * R_sqrt.sqrt horizon)).
  { apply Rmult_le_pos; [exact HT |]. apply Rmult_le_pos; [| exact Hsh].
    apply Rmult_le_pos; [exact HsV |]. left. apply Rinv_0_lt_compat. exact H365. }
  set (y := T * (R_sqrt.sqrt V / R_sqrt.sqrt 365 * R_sqrt.sqrt horizon)) in *.
  nra.
Qed.

Lemma calculatePortfolioVaR_ordered_witness :
  exists x90 x95 x99,
    var_amounts
      (var (calculatePortfolioVaR
              {| positions :=
                   Some [ {| asset := "ETH"; amount := Fin 2; price := Fin 2500;
                             volatility := Some (Fin 0.6) |};
                          {| asset := "USDC"; amount := Fin 5000; price := Fin 1;
                             volatility := None |} ] |}
              (Some (Fin 7))))
    = [ ("90%"%string, Fixed 2 (Fin x90)); ("95%"%string, Fixed 2 (Fin x95));
        ("99%"%string, Fixed 2 (Fin x99)) ]
    /\ 0 <= x90 <= x95 /\ x95 <= x99.
Proof.
  pose proof YieldAnalyticsProperties.huge_large as Hh.
  assert (Hinv : / huge <= 1).
  { rewrite <- Rinv_1. apply Rinv_le_contravar; lra. }
  apply (calculatePortfolioVaR_ordered
           [ {| asset := "ETH"; amount := Fin 2; price := Fin 2500;
                volatility := Some (Fin 0.6) |};
             {| asset := "USDC"; amount := Fin 5000; price := Fin 1;
                volatility := None |} ] 7).
  - repeat constructor; eexists _, _; cbn; repeat split; lra.
  - repeat constructor.
    + exists 0.6. unfold sigma. cbn. real_cases. split; [reflexivity | lra].
    + exists 0.3. unfold sigma. cbn. split; [reflexivity | lra].
  - repeat constructor.
    + exists 0.6. unfold sigma. cbn. real_cases.
      split; [reflexivity |]. rewrite Rabs_pos_eq; lra.
    + exists 0.3. unfold sigma. cbn. split; [reflexivity |]. rewrite Rabs_pos_eq; lra.
  - lra.
Defined.
End RiskAssessmentProperties.

(** ** YieldCalculator: ranges and monotonicity *)

Module CompoundingProperties.
Import BigNumber YieldCalculator CompoundingSearch Enclosure.
Open Scope Q_scope.

(** *** calculateOptimalCompounding *)

Lemma getCompoundingStrategy_known (f : positive) :
  In f frequencies -> getCompoundingStrategy f <> "Custom frequency"%string.
Proof.
  intros [<- | [<- | [<- | [<- | [<- | []]]]]]; discriminate.
Qed.

(** For every APR, gas cost and principal the call returns: the frequency
    is one of 1, 4, 12, 52 and 365 (so the strategy text is never the
    fallback), and the net yield reported is never negative.  It is 0
    exactly when no candidate has a net yield above zero; otherwise it is
    the net yield of the returned frequency and no candidate exceeds it. *)
Theorem calculateOptimalCompounding_range (apr gasCost principal : Q) :
  exists r,
    calculateOptimalCompounding apr gasCost principal = Normal r
    /\ In (optimalFrequency r) frequencies
    /\ recommendedStrategy r <> "Custom frequency"%string
    /\ 0 <= maxNetYield r
    /\ (maxNetYield r == 0
        <-> forall f, In f frequencies -> net_value apr gasCost principal f <= 0)
    /\ (0 < maxNetYield r ->
        maxNetYield r = net_value apr gasCost principal (optimalFrequency r)
        /\ forall f, In f frequencies -> net_value apr gasCost principal f <= maxNetYield r).
Proof.
  rewrite YieldCalculatorProperties.calculateOptimalCompounding_value.
  eexists. split; [reflexivity |].
  cbn [optimalFrequency maxNetYield recommendedStrategy].
  pose proof (YieldCalculatorProperties.search_found
                (net_value apr gasCost principal) frequencies) as F.
  remember (search (net_value apr gasCost principal) frequencies (1%positive, 0)) as st eqn:E.
  clear E.
  assert (Hin : In (fst st) frequencies).
  { destruct F as [[-> _] | (l1 & l2 & Hl & _)]; [left; reflexivity |].
    rewrite Hl. apply in_or_app. right. left. reflexivity. }
  split; [exact Hin |]. split; [apply getCompoundingStrategy_known; exact Hin |].
  destruct F as [[-> Hall] | (l1 & l2 & Hl & Hsnd & Hpos & Hbefore & Hafter)]; cbn [fst snd].
  - split; [apply Qle_refl |]. split.
    + split; [intros _; exact Hall | intros _; reflexivity].
    + intros H. exfalso. exact (Qlt_irrefl 0 H).
  - rewrite Hsnd. split; [apply Qlt_le_weak; exact Hpos |]. split.
    + split.
      * intros H0. exfalso. rewrite H0 in Hpos. exact (Qlt_irrefl 0 Hpos).
      * intros Hall. exfalso.
        apply (Qlt_irrefl 0). apply Qlt_le_trans with (net_value apr gasCost principal (fst st));
          [exact Hpos | apply Hall; exact Hin].
    + intros _. split; [reflexivity |].
      intros f Hf. rewrite Hl in Hf. apply in_app_or in Hf.
      destruct Hf as [Hf | [<- | Hf]].
      * apply Qlt_le_weak. apply Hbefore. exact Hf.
      * apply Qle_refl.
      * apply Hafter. exact Hf.
Qed.

(** *** calculateAPY *)

(** Rounding half up of a magnitude is monotone. *)
Lemma half_up_div_le (n1 n2 d1 d2 : Z) :
  (0 <= n1)%Z -> (0 < d1)%Z -> (0 < d2)%Z -> (n1 * d2 <= n2 * d1)%Z ->
  ((2 * n1 + d1) / (2 * d1) <= (2 * n2 + d2) / (2 * d2))%Z.
Proof.
  intros Hn1 Hd1 Hd2 Hle.
  apply Z.div_le_lower_bound; [lia |].
  pose proof (Z.mul_div_le (2 * n1 + d1) (2 * d1) ltac:(lia)) as Hk.
  set (k := ((2 * n1 + d1) / (2 * d1))%Z) in *.
  assert (H : (2 * d1 * k * d2 <= (2 * n2 + d2) * d1)%Z) by nia.
  nia.
Qed.

Lemma half_up_div_nonneg (n d : Z) : (0 <= n)%Z -> (0 < d)%Z -> (0 <= (2 * n + d) / (2 * d))%Z.
Proof. intros Hn Hd. apply Z.div_pos; lia. Qed.

Lemma round_half_up_monotone (dp : positive) (x y : Q) :
  x <= y -> round_half_up dp x <= round_half_up dp y.
Proof.
  destruct x as [N1 d1], y as [N2 d2]. unfold Qle, round_half_up. cbn [Qnum Qden].
  intros Hle.
  set (s := Zpos (10 ^ dp)).
  assert (Hs : (0 < s)%Z) by (unfold s; lia).
  apply Z.mul_le_mono_nonneg_r; [lia |].
  pose proof (half_up_div_nonneg (Z.abs N1 * s) (Zpos d1) ltac:(lia) ltac:(lia)) as H1.
  pose proof (half_up_div_nonneg (Z.abs N2 * s) (Zpos d2) ltac:(lia) ltac:(lia)) as H2.
  destruct (Z.lt_trichotomy N1 0) as [Hneg | [Hzero | Hpos]].
  - rewrite (Z.sgn_neg N1 Hneg).
    destruct (Z.lt_ge_cases N2 0) as [Hneg2 | Hnn2].
    + rewrite (Z.sgn_neg N2 Hneg2).
      assert (Hm : ((2 * (Z.abs N2 * s) + Zpos d2) / (2 * Zpos d2)
                    <= (2 * (Z.abs N1 * s) + Zpos d1) / (2 * Zpos d1))%Z).
      { apply half_up_div_le; try lia. nia. }
      lia.
    + assert (0 <= Z.sgn N2)%Z by (apply Z.sgn_nonneg; exact Hnn2). nia.
  - subst N1. cbn [Z.sgn Z.mul].
    assert (Hnn2 : (0 <= N2)%Z) by nia.
    assert (0 <= Z.sgn N2)%Z by (apply Z.sgn_nonneg; exact Hnn2). nia.
  - rewrite (Z.sgn_pos N1 Hpos).
    assert (Hpos2 : (0 < N2)%Z) by nia.
    rewrite (Z.sgn_pos N2 Hpos2).
    assert (Hm : ((2 * (Z.abs N1 * s) + Zpos d1) / (2 * Zpos d1)
                  <= (2 * (Z.abs N2 * s) + Zpos d2) / (2 * Zpos d2))%Z).
    { apply half_up_div_le; try lia. nia. }
    lia.
Qed.

Lemma dividedBy_monotone (x y : Q) (n : positive) :
  x <= y -> dividedBy x (inject_Z (Zpos n)) <= dividedBy y (inject_Z (Zpos n)).
Proof.
  intros H. unfold dividedBy. apply round_half_up_monotone.
  unfold Qdiv. apply Qmult_le_compat_r; [exact H |].
  apply Qlt_le_weak. apply Qinv_lt_0_compat. apply YieldCalculatorProperties.ofPos_positive.
Qed.

Lemma dividedBy_nonneg (x : Q) (n : positive) : 0 <= x -> 0 <= dividedBy x (inject_Z (Zpos n)).
Proof.
  intros H. apply Qle_trans with (dividedBy 0 (inject_Z (Zpos n))).
  - unfold dividedBy, round_half_up, Qdiv, Qmult, Qinv, inject_Z, Qle. cbn. lia.
  - apply dividedBy_monotone. exact H.
Qed.

Lemma pow_monotone (x y : Q) (n : positive) : 0 <= x -> x <= y -> 0 <= pow x n /\ pow x n <= pow y n.
Proof.
  intros Hx Hxy. unfold pow, Qpower_positive.
  induction n as [n IH | n IH |]; cbn [Ring_theory.pow_pos].
  - destruct IH as [H0 Hle].
    set (p := Ring_theory.pow_pos Qmult x n) in *.
    set (q := Ring_theory.pow_pos Qmult y n) in *.
    assert (Hpp : 0 <= p * p) by (apply Qmult_le_0_compat; assumption).
    split; [apply Qmult_le_0_compat; assumption |].
    apply Qmult_le_compat_nonneg; split; try assumption.
    apply Qmult_le_compat_nonneg; split; assumption.
  - destruct IH as [H0 Hle].
    split; [apply Qmult_le_0_compat; assumption |].
    apply Qmult_le_compat_nonneg; split; assumption.
  - split; assumption.
Qed.

Lemma pow_ge_1 (x : Q) (n : positive) : 1 <= x -> 1 <= pow x n.
Proof.
  intros Hx. destruct (pow_monotone 1 x n) as [_ H]; [discriminate | exact Hx |].
  unfold pow in *. rewrite Qpower_positive_1 in H. exact H.
Qed.

(** For a fixed compounding frequency the APY is monotone in the APR on
    APRs that are not negative, and it is never negative there: the
    roundings of the two divisions do not disturb the order. *)
Theorem calculateAPY_monotone (apr1 apr2 : Q) (compoundFrequency : positive) :
  0 <= apr1 -> apr1 <= apr2 ->
  exists apy1 apy2,
    calculateAPY apr1 compoundFrequency = Normal apy1
    /\ calculateAPY apr2 compoundFrequency = Normal apy2
    /\ 0 <= apy1 /\ apy1 <= apy2.
Proof.
  intros H0 Hle. unfold calculateAPY. eexists _, _. split; [reflexivity |].
  split; [reflexivity |].
  unfold multipliedBy, minus, plus, ofPos.
  set (r1 := dividedBy (dividedBy apr1 100) (inject_Z (Zpos compoundFrequency))).
  set (r2 := dividedBy (dividedBy apr2 100) (inject_Z (Zpos compoundFrequency))).
  assert (Hr1 : 0 <= r1).
  { apply dividedBy_nonneg. apply (dividedBy_nonneg apr1 100). exact H0. }
  assert (Hr : r1 <= r2).
  { apply dividedBy_monotone. apply (dividedBy_monotone apr1 apr2 100). exact Hle. }
  assert (Hb1 : 1 <= r1 + 1).
  { rewrite <- (Qplus_0_l 1) at 1. apply Qplus_le_compat; [exact Hr1 | apply Qle_refl]. }
  assert (Hb : r1 + 1 <= r2 + 1) by (apply Qplus_le_compat; [exact Hr | apply Qle_refl]).
  pose proof (pow_ge_1 (r1 + 1) compoundFrequency Hb1) as Hp1.
  destruct (pow_monotone (r1 + 1) (r2 + 1) compoundFrequency) as [_ Hp];
    [apply Qle_trans with 1; [discriminate | exact Hb1] | exact Hb |].
  split.
  - apply Qmult_le_0_compat; [| discriminate].
    unfold Qminus. rewrite <- (Qplus_opp_r 1). apply Qplus_le_compat; [exact Hp1 | apply Qle_refl].
  - apply Qmult_le_compat_r; [| discriminate].
    unfold Qminus. apply Qplus_le_compat; [exact Hp | apply Qle_refl].
Qed.

Lemma calculateAPY_monotone_witness :
  exists apy1 apy2,
    calculateAPY 5 12 = Normal apy1
    /\ calculateAPY 12 12 = Normal apy2
    /\ 0 <= apy1 /\ apy1 <= apy2.
Proof.
  apply (calculateAPY_monotone 5 12 12); discriminate.
Defined.

(** *** calculatePoolYield *)

(** The annual fees are the daily fees, rounded to 20 decimals, times 365:
    they differ from [tradingVolume * poolFees] by at most 365 half units of
    the last decimal.  The fee APY is a decimal exactly when the total value
    of the pool is not zero, and then it is within 100 half units of
    [100 * annualFees / totalValue]. *)
Theorem calculatePoolYield_fees (poolData : PoolData) :
  let r := calculatePoolYield poolData in
  let fees := tradingVolume poolData * poolFees poolData in
  fees - 365 * half_ulp <= annualFees r
  /\ annualFees r <= fees + 365 * half_ulp
  /\ (feeAPY r = None <-> totalValue r == 0)
  /\ (forall apy, feeAPY r = Some apy ->
      100 * (annualFees r / totalValue r) - 100 * half_ulp <= apy
      /\ apy <= 100 * (annualFees r / totalValue r) + 100 * half_ulp).
Proof.
  cbv zeta. unfold calculatePoolYield. cbn [annualFees feeAPY totalValue].
  unfold multipliedBy, plus.
  remember (tradingVolume poolData * poolFees poolData) as fees eqn:Efees. clear Efees.
  remember (token0Amount poolData * token0Price poolData
            + token1Amount poolData * token1Price poolData) as total eqn:Etotal.
  clear Etotal.
  destruct (YieldCalculatorProperties.dividedBy_enclosure fees 365) as [Hl Hu].
  remember (dividedBy fees 365) as d eqn:Ed. clear Ed.
  assert (H365 : fees / 365 * 365 == fees) by (field; discriminate).
  remember (fees / 365) as q eqn:Eq. clear Eq.
  remember half_ulp as h eqn:Eh.
  split; [lra |]. split; [lra |].
  unfold isZero. destruct (Qeq_bool total 0) eqn:E.
  - apply Qeq_bool_iff in E. split; [split; [intros _; exact E | reflexivity] |].
    intros apy H. discriminate.
  - split.
    + split; [discriminate |]. intros H. apply Qeq_bool_iff in H. congruence.
    + intros apy H. inversion H; subst apy; clear H.
      destruct (YieldCalculatorProperties.dividedBy_enclosure (d * 365) total) as [Hl' Hu'].
      rewrite <- Eh in Hl', Hu'.
      remember (d * 365 / total) as w eqn:Ew. clear Ew.
      remember (dividedBy (d * 365) total) as v eqn:Ev. clear Ev.
      split; lra.
Qed.
End CompoundingProperties.

(** ** BaseErrorHandler *)

Module ErrorHandlerProperties.
Import Number NumberProperties ErrorHandler.
Open Scope string_scope.

(** *** validateInput *)

Lemma flat_map_nil {A B : Type} (f : A -> list B) (l : list A) :
  flat_map f l = [] <-> forall a, In a l -> f a = [].
Proof.
  induction l as [| x l IH]; cbn.
  - split; [intros _ a [] | reflexivity].
  - split.
    + intros H. apply app_eq_nil in H. destruct H as [Hx Hl].
      intros a [<- | Ha]; [exact Hx | apply IH; assumption].
    + intros H. rewrite (H x (or_introl eq_refl)). cbn. apply IH.
      intros a Ha. apply H. right. exact Ha.
Qed.

Lemma validateInput_Valid (string_to_number : string -> num) (params : string -> js_value)
    (schema : list (string * Rules)) :
  validateInput string_to_number params schema = Valid
  <-> forall field rules, In (field, rules) schema ->
        field_errors string_to_number field rules (params field) = [].
Proof.
  unfold validateInput.
  destruct (flat_map _ schema) as [| e errors] eqn:E.
  - split; [| reflexivity]. intros _ field rules Hin.
    apply (proj1 (flat_map_nil _ schema) E (field, rules) Hin).
  - split; [discriminate |]. intros H. exfalso.
    assert (Hnil : flat_map
                     (fun entry => field_errors string_to_number (fst entry) (snd entry)
                                     (params (fst entry))) schema = []).
    { apply flat_map_nil. intros [field rules] Hin. apply H. exact Hin. }
    congruence.
Qed.

(** What a call that returns has established for a field of the schema:
    a required field is present; a present field has the type the rule
    names; for a rule of type 'number' the value is not below [min] nor
    above [max] in the sense of the comparison operators; for a rule of
    type 'string' the length is not below [minLength] nor above
    [maxLength]; and a custom validator has returned [true]. *)
Theorem validateInput_sound (string_to_number : string -> num) (params : string -> js_value)
    (schema : list (string * Rules)) (field : string) (rules : Rules) :
  validateInput string_to_number params schema = Valid ->
  In (field, rules) schema ->
  (required rules = true -> params field <> Undefined /\ params field <> Null)
  /\ (params field <> Undefined -> params field <> Null ->
      (forall t, type rules = Some t -> t <> "" -> typeof (params field) = t)
      /\ (type rules = Some "number" ->
          exists x, params field = NumberValue x
                    /\ (forall m, min rules = Some m -> lt x m = false)
                    /\ (forall m, max rules = Some m -> gt x m = false))
      /\ (type rules = Some "string" ->
          exists s, params field = StringValue s
                    /\ (forall n, minLength rules = Some n ->
                                  lt (Fin (INR (String.length s))) n = false)
                    /\ (forall n, maxLength rules = Some n ->
                                  gt (Fin (INR (String.length s))) n = false))
      /\ (forall f, validate rules = Some f -> f (params field) = Accepted)).
Proof.
  intros Hvalid Hin.
  pose proof (proj1 (validateInput_Valid _ _ _) Hvalid field rules Hin) as H.
  clear Hvalid Hin. unfold field_errors in H.
  split.
  - intros Hreq. rewrite Hreq in H. destruct (params field); split; discriminate.
  - intros Hu Hn.
    assert (Hparts :
      type_errors field rules (params field) = []
      /\ range_errors string_to_number field rules (params field) = []
      /\ length_errors field rules (params field) = []
      /\ custom_errors field rules (params field) = []).
    { destruct (params field) eqn:E; try congruence;
        apply app_eq_nil in H; destruct H as [H1 H];
        apply app_eq_nil in H; destruct H as [H2 H];
        apply app_eq_nil in H; destruct H as [H3 H4]; auto. }
    clear H. destruct Hparts as (Htype & Hrange & Hlen & Hcustom).
    unfold type_errors in Htype. unfold range_errors in Hrange.
    unfold length_errors in Hlen. unfold custom_errors in Hcustom.
    assert (Htypeof : forall t, type rules = Some t -> t <> "" -> typeof (params field) = t).
    { intros t Ht Hne. rewrite Ht in Htype.
      destruct (String.eqb t "") eqn:E1; [apply String.eqb_eq in E1; contradiction |].
      destruct (String.eqb (typeof (params field)) t) eqn:E2;
        [apply String.eqb_eq in E2; exact E2 | discriminate]. }
    split; [exact Htypeof |]. split; [| split].
    + intros Ht. specialize (Htypeof _ Ht ltac:(discriminate)).
      destruct (params field) as [| | x | s | b] eqn:E; try discriminate.
      exists x. split; [reflexivity |].
      unfold type_is in Hrange. rewrite Ht, String.eqb_refl in Hrange. cbn [to_number] in Hrange.
      apply app_eq_nil in Hrange. destruct Hrange as [Hmin Hmax].
      split; intros m Hm; [rewrite Hm in Hmin | rewrite Hm in Hmax].
      * destruct (lt x m); [discriminate | reflexivity].
      * destruct (gt x m); [discriminate | reflexivity].
    + intros Ht. specialize (Htypeof _ Ht ltac:(discriminate)).
      destruct (params field) as [| | x | s | b] eqn:E; try discriminate.
      exists s. split; [reflexivity |].
      unfold type_is in Hlen. rewrite Ht, String.eqb_refl in Hlen. cbn [length_of] in Hlen.
      apply app_eq_nil in Hlen. destruct Hlen as [Hmin Hmax].
      split; intros n Hn'; [rewrite Hn' in Hmin | rewrite Hn' in Hmax].
      * destruct (lt _ n); [discriminate | reflexivity].
      * destruct (gt _ n); [discriminate | reflexivity].
    + intros f Hf. rewrite Hf in Hcustom.
      destruct (f (params field)); [reflexivity | discriminate].
Qed.

Lemma validateInput_sound_witness :
  (required {| required := true; type := Some "number"; min := Some (Fin 0);
               max := Some (Fin 100); minLength := None; maxLength := None;
               validate := None |} = true ->
   NumberValue (Fin 5) <> Undefined /\ NumberValue (Fin 5) <> Null)
  /\ (NumberValue (Fin 5) <> Undefined -> NumberValue (Fin 5) <> Null ->
      (forall t, Some "number" = Some t -> t <> "" -> typeof (NumberValue (Fin 5)) = t)
      /\ (Some "number" = Some "number" ->
          exists x, NumberValue (Fin 5) = NumberValue x
                    /\ (forall m, Some (Fin 0) = Some m -> lt x m = false)
                    /\ (forall m, Some (Fin 100) = Some m -> gt x m = false))
      /\ (Some "number" = Some "string" ->
          exists s, NumberValue (Fin 5) = StringValue s
                    /\ (forall n, None = Some n ->
                                  lt (Fin (INR (String.length s))) n = false)
                    /\ (forall n, None = Some n ->
                                  gt (Fin (INR (String.length s))) n = false))
      /\ (forall f, None = Some f -> f (NumberValue (Fin 5)) = Accepted)).
Proof.
  apply (validateInput_sound
           (fun _ => NaN)
           (fun _ => NumberValue (Fin 5))
           [("amount",
             {| required := true; type := Some "number"; min := Some (Fin 0);
                max := Some (Fin 100); minLength := None; maxLength := None;
                validate := None |})]
           "amount").
  - unfold validateInput, field_errors, type_errors, range_errors, length_errors,
      custom_errors, type_is. cbn. real_cases. reflexivity.
  - left. reflexivity.
Defined.

(** A required field that is absent or null always makes the call raise,
    whatever the other fields hold, and the error for it is among those
    reported. *)
Theorem validateInput_required (string_to_number : string -> num)
    (params : string -> js_value) (schema : list (string * Rules)) (field : string)
    (rules : Rules) :
  In (field, rules) schema -> required rules = true ->
  params field = Undefined \/ params field = Null ->
  exists errors,
    validateInput string_to_number params schema = Invalid errors
    /\ In (Required field) errors.
Proof.
  intros Hin Hreq Habsent. unfold validateInput.
  assert (Herr : In (Required field)
                    (flat_map (fun entry => field_errors string_to_number (fst entry)
                                              (snd entry) (params (fst entry))) schema)).
  { apply in_flat_map. exists (field, rules). split; [exact Hin |].
    cbn [fst snd]. unfold field_errors.
    destruct Habsent as [-> | ->]; rewrite Hreq; left; reflexivity. }
  destruct (flat_map _ schema) as [| e errors]; [destruct Herr |].
  exists (e :: errors). split; [reflexivity | exact Herr].
Qed.

Lemma validateInput_required_witness :
  exists errors,
    validateInput (fun _ => NaN) (fun _ => Undefined)
      [("amount",
        {| required := true; type := Some "number"; min := Some (Fin 0);
           max := None; minLength := None; maxLength := None; validate := None |})]
    = Invalid errors
    /\ In (Required "amount") errors.
Proof.
  apply (validateInput_required (fun _ => NaN) (fun _ => Undefined)
           [("amount",
             {| required := true; type := Some "number"; min := Some (Fin 0);
                max := None; minLength := None; maxLength := None; validate := None |})]
           "amount"
           {| required := true; type := Some "number"; min := Some (Fin 0);
              max := None; minLength := None; maxLength := None; validate := None |}).
  - left. reflexivity.
  - reflexivity.
  - left. reflexivity.
Defined.

Lemma lt_nan_l (a : num) : lt NaN a = false.
Proof. destruct a; reflexivity. Qed.

(** The range rules do not reject [NaN]: a schema whose fields are all of
    type 'number' without custom validator accepts parameters that are all
    [NaN], whatever [required], [min] and [max] say. *)
Theorem validateInput_accepts_NaN (string_to_number : string -> num)
    (params : string -> js_value) (schema : list (string * Rules)) :
  (forall field rules, In (field, rules) schema ->
     params field = NumberValue NaN /\ type rules = Some "number" /\ validate rules = None) ->
  validateInput string_to_number params schema = Valid.
Proof.
  intros H. apply validateInput_Valid. intros field rules Hin.
  destruct (H field rules Hin) as (Hv & Ht & Hc). rewrite Hv.
  unfold field_errors, type_errors, range_errors, length_errors, custom_errors, type_is.
  rewrite Ht, Hc. cbn [typeof to_number]. rewrite String.eqb_refl.
  assert (Hr : forall a, lt a NaN = false) by (intros a; destruct a; reflexivity).
  unfold gt. destruct (min rules), (max rules); rewrite ?lt_nan_l, ?Hr; reflexivity.
Qed.

Lemma validateInput_accepts_NaN_witness :
  validateInput (fun _ => NaN) (fun _ => NumberValue NaN)
    [("amount",
      {| required := true; type := Some "number"; min := Some (Fin 0);
         max := Some (Fin 100); minLength := None; maxLength := None; validate := None |})]
  = Valid.
Proof.
  apply (validateInput_accepts_NaN (fun _ => NaN) (fun _ => NumberValue NaN)).
  intros field rules [H | []]. inversion H; subst. repeat split.
Defined.

(** Without a [type] rule the bounds are never looked at: a schema whose
    fields have no type and no custom validator accepts every parameter
    object that holds the required fields, whatever [min], [max],
    [minLength] and [maxLength] say. *)
Theorem validateInput_bounds_need_type (string_to_number : string -> num)
    (params : string -> js_value) (schema : list (string * Rules)) :
  (forall field rules, In (field, rules) schema ->
     type rules = None /\ validate rules = None
     /\ (required rules = true -> params field <> Undefined /\ params field <> Null)) ->
  validateInput string_to_number params schema = Valid.
Proof.
  intros H. apply validateInput_Valid. intros field rules Hin.
  destruct (H field rules Hin) as (Ht & Hc & Hreq).
  unfold field_errors, type_errors, range_errors, length_errors, custom_errors, type_is.
  rewrite Ht, Hc.
  destruct (params field); try reflexivity;
    destruct (required rules); try reflexivity;
    destruct (Hreq eq_refl) as [Hu Hn]; congruence.
Qed.

Lemma validateInput_bounds_need_type_witness :
  validateInput (fun _ => NaN) (fun _ => NumberValue (Fin (-5)))
    [("amount",
      {| required := true; type := None; min := Some (Fin 0);
         max := Some (Fin 100); minLength := None; maxLength := None; validate := None |})]
  = Valid.
Proof.
  apply (validateInput_bounds_need_type (fun _ => NaN) (fun _ => NumberValue (Fin (-5)))).
  intros field rules [H | []]. inversion H; subst. cbn.
  repeat split; discriminate.
Defined.

(** *** updateErrorMetrics *)

Lemma skipn_snoc_last {A : Type} (n : nat) (l : list A) (e : A) :
  (1 <= n)%nat ->
  skipn (length (skipn (length l - n) l ++ [e]) - n) (skipn (length l - n) l ++ [e])
  = skipn (length (l ++ [e]) - n) (l ++ [e]).
Proof.
  intros Hn. rewrite !length_app, length_skipn. cbn [length].
  destruct (le_lt_dec (length l) n) as [Hle | Hgt].
  - replace (length l - n)%nat with 0%nat by lia. cbn [skipn].
    rewrite Nat.sub_0_r. reflexivity.
  - replace (length l - (length l - n) + 1 - n)%nat with 1%nat by lia.
    replace (length l + 1 - n)%nat with (S (length l - n)) by lia.
    rewrite (skipn_app (S (length l - n)) l [e]).
    replace (S (length l - n) - length l)%nat with 0%nat by lia. cbn [skipn].
    assert (Hlen : length (skipn (length l - n) l) = n) by (rewrite length_skipn; lia).
    destruct (skipn (length l - n) l) as [| x rest] eqn:E; [cbn in Hlen; lia |].
    cbn [app skipn].
    assert (Hrest : skipn (S (length l - n)) l = rest).
    { replace (S (length l - n)) with (1 + (length l - n))%nat by lia.
      rewrite <- skipn_skipn. rewrite E. reflexivity. }
    rewrite Hrest. reflexivity.
Qed.

Lemma updateErrorMetrics_history (st : metrics) (errorInfo : ErrorInfo) :
  (length (errorHistory st) <= 100)%nat ->
  errorHistory (updateErrorMetrics st errorInfo)
  = skipn (length (errorHistory st ++ [errorInfo]) - 100) (errorHistory st ++ [errorInfo]).
Proof.
  intros Hlen. unfold updateErrorMetrics. cbn [errorHistory].
  rewrite length_app. cbn [length].
  destruct (100 <? length (errorHistory st) + 1)%nat eqn:E.
  - apply Nat.ltb_lt in E.
    replace (length (errorHistory st) + 1 - 100)%nat with 1%nat by lia.
    destruct (errorHistory st ++ [errorInfo])%list; reflexivity.
  - apply Nat.ltb_ge in E.
    replace (length (errorHistory st) + 1 - 100)%nat with 0%nat by lia. reflexivity.
Qed.

Lemma metrics_history (infos : list ErrorInfo) :
  errorHistory (fold_left updateErrorMetrics infos no_errors)
  = skipn (length infos - 100) infos.
Proof.
  induction infos as [| e infos IH] using rev_ind; [reflexivity |].
  rewrite fold_left_app. cbn [fold_left].
  rewrite updateErrorMetrics_history.
  - rewrite IH. apply skipn_snoc_last. lia.
  - rewrite IH. rewrite length_skipn. lia.
Qed.

(** After any sequence of errors handled by a new handler, the history
    holds the last 100 of them in order of arrival: its length, which
    [getErrorStats] reports as the total number of errors, is the number of
    errors handled capped at 100. *)
Theorem errorHistory_keeps_last_100 (infos : list ErrorInfo) :
  errorHistory (fold_left updateErrorMetrics infos no_errors)
  = skipn (length infos - 100) infos
  /\ length (errorHistory (fold_left updateErrorMetrics infos no_errors))
     = Nat.min (length infos) 100.
Proof.
  split; [apply metrics_history |].
  rewrite metrics_history, length_skipn. lia.
Qed.

Lemma metrics_counts (infos : list ErrorInfo) (st : metrics) (key : string) :
  default 0%nat (errorCounts (fold_left updateErrorMetrics infos st) !! key)
  = (default 0%nat (errorCounts st !! key)
     + length (List.filter (fun errorInfo => String.eqb (metrics_key errorInfo) key) infos))%nat.
Proof.
  revert st. induction infos as [| e infos IH]; intros st; cbn [fold_left List.filter].
  - cbn. lia.
  - rewrite IH. unfold updateErrorMetrics at 1. cbn [errorCounts].
    destruct (String.eqb (metrics_key e) key) eqn:E.
    + apply String.eqb_eq in E. subst key. rewrite lookup_insert_eq. cbn [default length].
      unfold Datatypes.id. lia.
    + apply String.eqb_neq in E. rewrite lookup_insert_ne by exact E. lia.
Qed.

(** The counter kept for a key [name_code] is the number of errors handled
    with that key, without any cap: once more than 100 errors were handled,
    the counters add up to more than the total the statistics report. *)
Theorem errorCounts_count_every_error (infos : list ErrorInfo) (key : string) :
  default 0%nat (errorCounts (fold_left updateErrorMetrics infos no_errors) !! key)
  = length (List.filter (fun errorInfo => String.eqb (metrics_key errorInfo) key) infos).
Proof.
  rewrite metrics_counts. unfold no_errors. cbn [errorCounts].
  rewrite lookup_empty. reflexivity.
Qed.

(** *** retryOperation *)

Section RetryProperties.
Context {A : Type}.
Variable operation : nat -> outcome A.
Variable retryCondition : thrown -> bool.
Variable baseDelay : num.
Variable exponentialBackoff : bool.
Variable maxRetries : Z.

Lemma retry_loop_spec (remaining attempt : nat) (slept0 : list num) :
  forall run,
    run = retry_loop operation retryCondition baseDelay exponentialBackoff maxRetries
            attempt remaining slept0 ->
    (attempt < calls run <= attempt + remaining + 1)%nat
    /\ slept run
       = (slept0 ++ map (delay baseDelay exponentialBackoff)
                        (seq attempt (calls run - 1 - attempt)))%list
    /\ (forall i, (attempt <= i < calls run - 1)%nat ->
                  exists message,
                    operation i = Rejected (Thrown message)
                    /\ retryCondition (Thrown message) = true)
    /\ match result run with
       | Returned v => operation (calls run - 1)%nat = Resolved v
       | RetryExhausted e n =>
           operation (calls run - 1)%nat = Rejected e
           /\ has_message e = true
           /\ n = (maxRetries + 1)%Z
           /\ (calls run = (attempt + remaining + 1)%nat \/ retryCondition e = false)
       | TypeError => operation (calls run - 1)%nat = Rejected Nullish
       end.
Proof.
  assert (Hstop : forall attempt remaining slept0 e,
             operation attempt = Rejected e ->
             (remaining = 0%nat \/ retryCondition e = false) ->
             let run := exhausted maxRetries attempt slept0 e in
             (attempt < calls run <= attempt + remaining + 1)%nat
             /\ slept run
                = (slept0 ++ map (delay baseDelay exponentialBackoff)
                                 (seq attempt (calls run - 1 - attempt)))%list
             /\ (forall i, (attempt <= i < calls run - 1)%nat ->
                           exists message,
                             operation i = Rejected (Thrown message)
                             /\ retryCondition (Thrown message) = true)
             /\ match result run with
                | Returned v => operation (calls run - 1)%nat = Resolved v
                | RetryExhausted e n =>
                    operation (calls run - 1)%nat = Rejected e
                    /\ has_message e = true
                    /\ n = (maxRetries + 1)%Z
                    /\ (calls run = (attempt + remaining + 1)%nat \/ retryCondition e = false)
                | TypeError => operation (calls run - 1)%nat = Rejected Nullish
                end).
  { clear. intros attempt remaining slept0 e E Hwhy run. subst run. unfold exhausted.
    cbn [calls slept result].
    replace (S attempt - 1 - attempt)%nat with 0%nat by lia.
    replace (S attempt - 1)%nat with attempt by lia.
    cbn [seq map]. rewrite app_nil_r.
    split; [lia |]. split; [reflexivity |]. split; [intros i Hi; lia |].
    destruct e as [| message]; cbn [has_message]; [exact E |].
    split; [exact E |]. split; [reflexivity |]. split; [reflexivity |].
    destruct Hwhy as [-> | Hc]; [left; lia | right; exact Hc]. }
  revert attempt slept0.
  induction remaining as [| remaining IH]; intros attempt slept0 run ->; cbn [retry_loop].
  - destruct (operation attempt) as [v | e] eqn:E.
    + cbn [calls slept result].
      replace (S attempt - 1 - attempt)%nat with 0%nat by lia.
      replace (S attempt - 1)%nat with attempt by lia.
      cbn [seq map]. rewrite app_nil_r.
      split; [lia |]. split; [reflexivity |]. split; [intros i Hi; lia | exact E].
    + apply Hstop; [exact E | left; reflexivity].
  - destruct (operation attempt) as [v | e] eqn:E.
    + cbn [calls slept result].
      replace (S attempt - 1 - attempt)%nat with 0%nat by lia.
      replace (S attempt - 1)%nat with attempt by lia.
      cbn [seq map]. rewrite app_nil_r.
      split; [lia |]. split; [reflexivity |]. split; [intros i Hi; lia | exact E].
    + destruct (retryCondition e) eqn:Ec; [| apply Hstop; [exact E | right; exact Ec]].
      destruct e as [| message]; cbn [has_message].
      * cbn [calls slept result].
        replace (S attempt - 1 - attempt)%nat with 0%nat by lia.
        replace (S attempt - 1)%nat with attempt by lia.
        cbn [seq map]. rewrite app_nil_r.
        split; [lia |]. split; [reflexivity |]. split; [intros i Hi; lia | exact E].
      * destruct (IH (S attempt)
                    (slept0 ++ [delay baseDelay exponentialBackoff attempt])%list
                    _ eq_refl)
          as (Hcalls & Hslept & Hbefore & Hend).
        set (run := retry_loop operation retryCondition baseDelay exponentialBackoff
                      maxRetries (S attempt) remaining _) in *.
        split; [lia |]. split.
        -- rewrite Hslept. rewrite <- app_assoc. cbn [app].
           replace (calls run - 1 - attempt)%nat with (S (calls run - 1 - S attempt)) by lia.
           reflexivity.
        -- split.
           ++ intros i Hi. destruct (Nat.eq_dec i attempt) as [-> | Hne].
              ** exists message. split; assumption.
              ** apply Hbefore. lia.
           ++ destruct (result run) as [v | e' n |]; [exact Hend | | exact Hend].
              destruct Hend as (H1 & H2 & H3 & H4).
              split; [exact H1 |]. split; [exact H2 |]. split; [exact H3 |].
              destruct H4 as [H4 | H4]; [left; lia | right; exact H4].
Qed.

(** The run up to the call that ends it: after [k] failures that carry a
    message and that the condition lets retry, a call that succeeds, or that
    fails with an error the condition refuses, or that is the last one
    allowed, or that fails with [undefined] or [null], ends the loop. *)
Lemma retry_loop_ends (k remaining attempt : nat) (slept0 : list num) :
  (k <= remaining)%nat ->
  (forall i, (i < k)%nat ->
             exists message,
               operation (attempt + i) = Rejected (Thrown message)
               /\ retryCondition (Thrown message) = true) ->
  (forall v, operation (attempt + k) = Resolved v ->
             retry_loop operation retryCondition baseDelay exponentialBackoff maxRetries
               attempt remaining slept0
             = {| calls := S (attempt + k);
                  slept := (slept0 ++ map (delay baseDelay exponentialBackoff)
                                          (seq attempt k))%list;
                  result := Returned v |})
  /\ (forall e, operation (attempt + k) = Rejected e ->
                retryCondition e = false \/ k = remaining ->
                retry_loop operation retryCondition baseDelay exponentialBackoff
                  maxRetries attempt remaining slept0
                = exhausted maxRetries (attempt + k)
                    (slept0 ++ map (delay baseDelay exponentialBackoff) (seq attempt k))%list e)
  /\ (operation (attempt + k) = Rejected Nullish ->
      retry_loop operation retryCondition baseDelay exponentialBackoff
        maxRetries attempt remaining slept0
      = {| calls := S (attempt + k);
           slept := (slept0 ++ map (delay baseDelay exponentialBackoff)
                                   (seq attempt k))%list;
           result := TypeError |}).
Proof.
  revert remaining attempt slept0.
  induction k as [| k IH]; intros remaining attempt slept0 Hk Hfail.
  - rewrite Nat.add_0_r. cbn [seq map]. rewrite app_nil_r. split; [| split].
    + intros v Hv. destruct remaining; cbn [retry_loop]; rewrite Hv; reflexivity.
    + intros e He Hstop. destruct remaining as [| remaining];
        cbn [retry_loop]; rewrite He; [reflexivity |].
      destruct Hstop as [Hc | Hc]; [rewrite Hc; reflexivity | discriminate].
    + intros He. destruct remaining as [| remaining]; cbn [retry_loop]; rewrite He;
        [reflexivity |].
      destruct (retryCondition Nullish); reflexivity.
  - destruct remaining as [| remaining]; [lia |].
    destruct (Hfail 0%nat ltac:(lia)) as (m0 & He0 & Hc0). rewrite Nat.add_0_r in He0.
    assert (Hfail' : forall i, (i < k)%nat ->
                       exists message,
                         operation (S attempt + i) = Rejected (Thrown message)
                         /\ retryCondition (Thrown message) = true).
    { intros i Hi. destruct (Hfail (S i) ltac:(lia)) as (m & He & Hc).
      exists m. split; [| exact Hc]. rewrite <- He. f_equal. lia. }
    destruct (IH remaining (S attempt)
                (slept0 ++ [delay baseDelay exponentialBackoff attempt])%list
                ltac:(lia) Hfail')
      as (Hok & Hbad & Hnull).
    replace (attempt + S k)%nat with (S attempt + k)%nat by lia.
    assert (Hstep : retry_loop operation retryCondition baseDelay exponentialBackoff
                      maxRetries attempt (S remaining) slept0
                    = retry_loop operation retryCondition baseDelay exponentialBackoff
                        maxRetries (S attempt) remaining
                        (slept0 ++ [delay baseDelay exponentialBackoff attempt])%list).
    { cbn [retry_loop]. rewrite He0, Hc0. reflexivity. }
    rewrite Hstep. cbn [seq map].
    replace (slept0 ++ delay baseDelay exponentialBackoff attempt
                       :: map (delay baseDelay exponentialBackoff) (seq (S attempt) k))%list
      with ((slept0 ++ [delay baseDelay exponentialBackoff attempt])
            ++ map (delay baseDelay exponentialBackoff) (seq (S attempt) k))%list
      by (rewrite <- app_assoc; reflexivity).
    split; [| split].
    + intros v Hv. apply Hok. exact Hv.
    + intros e He Hstop. apply Hbad; [exact He |].
      destruct Hstop as [Hc | Hc]; [left; exact Hc | right; lia].
    + exact Hnull.
Qed.
End RetryProperties.

(** Every run of [retryOperation] with an integer [maxRetries]: a negative
    [maxRetries] ends in a [TypeError] without any call (the last error is
    still undefined when its message is read).  Otherwise the operation is
    called at least once and at most [maxRetries + 1] times, the delays
    slept are those of the failed calls before the last, in order, every
    call but the last failed with an error that carries a message and that
    the condition lets retry, and the end is decided by the last call: its
    value; or the [RETRY_EXHAUSTED] error carrying its error, raised because
    the calls are used up or the condition refused the error; or, exactly
    when the last call rejected with [undefined] or [null], the [TypeError]
    of reading the message of that value. *)
Theorem retryOperation_runs {A : Type} (operation : nat -> outcome A)
    (retryCondition : thrown -> bool) (baseDelay : num) (exponentialBackoff : bool)
    (maxRetries : Z) :
  ((maxRetries < 0)%Z ->
   retryOperation operation retryCondition baseDelay exponentialBackoff maxRetries
   = {| calls := 0; slept := []; result := TypeError |})
  /\ ((0 <= maxRetries)%Z ->
      (1 <= calls (retryOperation operation retryCondition baseDelay exponentialBackoff
                     maxRetries))%nat
      /\ (Z.of_nat (calls (retryOperation operation retryCondition baseDelay
                             exponentialBackoff maxRetries)) <= maxRetries + 1)%Z
      /\ slept (retryOperation operation retryCondition baseDelay exponentialBackoff
                  maxRetries)
         = map (delay baseDelay exponentialBackoff)
               (seq 0 (calls (retryOperation operation retryCondition baseDelay
                                exponentialBackoff maxRetries) - 1)%nat)
      /\ (forall i,
            (i < calls (retryOperation operation retryCondition baseDelay
                          exponentialBackoff maxRetries) - 1)%nat ->
            exists message,
              operation i = Rejected (Thrown message)
              /\ retryCondition (Thrown message) = true)
      /\ match result (retryOperation operation retryCondition baseDelay
                         exponentialBackoff maxRetries) with
         | Returned v =>
             operation (calls (retryOperation operation retryCondition baseDelay
                                 exponentialBackoff maxRetries) - 1)%nat = Resolved v
         | RetryExhausted e n =>
             operation (calls (retryOperation operation retryCondition baseDelay
                                 exponentialBackoff maxRetries) - 1)%nat = Rejected e
             /\ has_message e = true
             /\ n = (maxRetries + 1)%Z
             /\ (Z.of_nat (calls (retryOperation operation retryCondition baseDelay
                                    exponentialBackoff maxRetries)) = (maxRetries + 1)%Z
                 \/ retryCondition e = false)
         | TypeError =>
             operation (calls (retryOperation operation retryCondition baseDelay
                                 exponentialBackoff maxRetries) - 1)%nat = Rejected Nullish
         end).
Proof.
  unfold retryOperation. split.
  - intros H. apply Z.ltb_lt in H. rewrite H. reflexivity.
  - intros H. assert (Hge : (maxRetries <? 0)%Z = false) by (apply Z.ltb_ge; exact H).
    rewrite Hge.
    destruct (retry_loop_spec operation retryCondition baseDelay exponentialBackoff
                maxRetries (Z.to_nat maxRetries) 0 [] _ eq_refl)
      as (Hcalls & Hslept & Hbefore & Hend).
    set (run := retry_loop operation retryCondition baseDelay exponentialBackoff maxRetries
                  0 (Z.to_nat maxRetries) []) in *.
    split; [lia |]. split; [lia |]. split.
    + rewrite Hslept. cbn [app]. rewrite Nat.sub_0_r. reflexivity.
    + split; [intros i Hi; apply Hbefore; lia |].
      destruct (result run) as [v | e n |]; [exact Hend | | exact Hend].
      destruct Hend as (H1 & H2 & H3 & H4).
      split; [exact H1 |]. split; [exact H2 |]. split; [exact H3 |].
      destruct H4 as [H4 | H4]; [left; lia | right; exact H4].
Qed.

Lemma retryOperation_runs_witness :
  (1 <= calls (retryOperation
                 (fun i => if (i <? 1)%nat then Rejected (Thrown "timeout")
                           else @Rejected nat Nullish)
                 (fun _ => true) (Fin 1000) true 3))%nat
  /\ match result (retryOperation
                     (fun i => if (i <? 1)%nat then Rejected (Thrown "timeout")
                               else @Rejected nat Nullish)
                     (fun _ => true) (Fin 1000) true 3) with
     | TypeError => True
     | _ => False
     end.
Proof.
  pose proof (retryOperation_runs
                (fun i => if (i <? 1)%nat then Rejected (Thrown "timeout")
                          else @Rejected nat Nullish)
                (fun _ => true) (Fin 1000) true 3) as [_ H].
  specialize (H ltac:(lia)). destruct H as (H1 & _).
  split; [exact H1 | exact I].
Defined.

(** When the operation first succeeds at call [k] (counted from 0) within
    the [maxRetries + 1] calls allowed, after failures that carry a message
    and that the condition lets retry, [retryOperation] returns the value of
    that call after exactly [k + 1] calls, having slept [baseDelay * 2^i]
    after the failed call [i] (or [baseDelay] each time without exponential
    backoff).  If instead call [k] rejects with [undefined] or [null], the
    run ends there in a [TypeError], whatever the condition says and however
    many calls are left. *)
Theorem retryOperation_first_success {A : Type} (operation : nat -> outcome A)
    (retryCondition : thrown -> bool) (baseDelay : num) (exponentialBackoff : bool)
    (maxRetries : Z) (k : nat) :
  (Z.of_nat k <= maxRetries)%Z ->
  (forall i, (i < k)%nat ->
             exists message,
               operation i = Rejected (Thrown message)
               /\ retryCondition (Thrown message) = true) ->
  (forall v, operation k = Resolved v ->
             retryOperation operation retryCondition baseDelay exponentialBackoff maxRetries
             = {| calls := S k;
                  slept := map (delay baseDelay exponentialBackoff) (seq 0 k);
                  result := Returned v |})
  /\ (operation k = Rejected Nullish ->
      retryOperation operation retryCondition baseDelay exponentialBackoff maxRetries
      = {| calls := S k;
           slept := map (delay baseDelay exponentialBackoff) (seq 0 k);
           result := TypeError |}).
Proof.
  intros Hk Hfail. unfold retryOperation.
  assert (Hge : (maxRetries <? 0)%Z = false) by (apply Z.ltb_ge; lia).
  rewrite Hge.
  destruct (retry_loop_ends operation retryCondition baseDelay exponentialBackoff maxRetries
              k (Z.to_nat maxRetries) 0 [] ltac:(lia) Hfail) as (Hok & _ & Hnull).
  split; [exact Hok | exact Hnull].
Qed.

Lemma retryOperation_first_success_witness :
  retryOperation
    (fun i => if (i <? 2)%nat then Rejected (Thrown "timeout") else Resolved 7%nat)
    (fun _ => true) (Fin 1000) true 3
  = {| calls := 3;
       slept := map (delay (Fin 1000) true) (seq 0 2);
       result := Returned 7%nat |}
  /\ retryOperation
       (fun i => if (i <? 2)%nat then Rejected (Thrown "timeout") else @Rejected nat Nullish)
       (fun _ => true) (Fin 1000) true 3
     = {| calls := 3;
          slept := map (delay (Fin 1000) true) (seq 0 2);
          result := TypeError |}.
Proof.
  split.
  - apply (retryOperation_first_success
             (fun i => if (i <? 2)%nat then Rejected (Thrown "timeout") else Resolved 7%nat)
             (fun _ => true) (Fin 1000) true 3 2).
    + lia.
    + intros i Hi. exists "timeout"%string.
      destruct i as [| [| i]]; [split; reflexivity | split; reflexivity | lia].
    + reflexivity.
  - apply (retryOperation_first_success
             (fun i => if (i <? 2)%nat then Rejected (Thrown "timeout")
                       else @Rejected nat Nullish)
             (fun _ => true) (Fin 1000) true 3 2).
    + lia.
    + intros i Hi. exists "timeout"%string.
      destruct i as [| [| i]]; [split; reflexivity | split; reflexivity | lia].
    + reflexivity.
Defined.

(** When the retry condition refuses the error of call [k], the loop stops
    after [k + 1] calls.  If the error carries a message, the error raised
    reports [maxRetries + 1] attempts all the same: a first failure that is
    not retryable is reported as ['Operation failed after maxRetries + 1
    attempts'] after a single call.  If the refused error is [undefined] or
    [null], building that text raises a [TypeError] instead. *)
Theorem retryOperation_refused_error {A : Type} (operation : nat -> outcome A)
    (retryCondition : thrown -> bool) (baseDelay : num) (exponentialBackoff : bool)
    (maxRetries : Z) (k : nat) (e : thrown) :
  (Z.of_nat k <= maxRetries)%Z ->
  (forall i, (i < k)%nat ->
             exists message,
               operation i = Rejected (Thrown message)
               /\ retryCondition (Thrown message) = true) ->
  operation k = Rejected e -> retryCondition e = false ->
  retryOperation operation retryCondition baseDelay exponentialBackoff maxRetries
  = {| calls := S k;
       slept := map (delay baseDelay exponentialBackoff) (seq 0 k);
       result := match e with
                 | Thrown _ => RetryExhausted e (maxRetries + 1)
                 | Nullish => TypeError
                 end |}.
Proof.
  intros Hk Hfail He Hc. unfold retryOperation.
  assert (Hge : (maxRetries <? 0)%Z = false) by (apply Z.ltb_ge; lia).
  rewrite Hge.
  destruct (retry_loop_ends operation retryCondition baseDelay exponentialBackoff maxRetries
              k (Z.to_nat maxRetries) 0 [] ltac:(lia) Hfail) as (_ & Hbad & _).
  cbn [Nat.add app] in Hbad. rewrite (Hbad e He (or_introl Hc)).
  unfold exhausted. destruct e; reflexivity.
Qed.

Lemma retryOperation_refused_error_witness :
  retryOperation (fun _ => @Rejected nat (Thrown "invalid input"))
    (fun _ => false) (Fin 1000) true 3
  = {| calls := 1;
       slept := map (delay (Fin 1000) true) (seq 0 0);
       result := RetryExhausted (Thrown "invalid input") (3 + 1) |}
  /\ retryOperation (fun _ => @Rejected nat Nullish) (fun _ => false) (Fin 1000) true 3
     = {| calls := 1;
          slept := map (delay (Fin 1000) true) (seq 0 0);
          result := TypeError |}.
Proof.
  split.
  - apply (retryOperation_refused_error
             (fun _ => @Rejected nat (Thrown "invalid input"))
             (fun _ => false) (Fin 1000) true 3 0 (Thrown "invalid input")).
    + lia.
    + intros i Hi. lia.
    + reflexivity.
    + reflexivity.
  - apply (retryOperation_refused_error
             (fun _ => @Rejected nat Nullish) (fun _ => false) (Fin 1000) true 3 0 Nullish).
    + lia.
    + intros i Hi. lia.
    + reflexivity.
    + reflexivity.
Defined.
End ErrorHandlerProperties.

(** ** BaseYieldCalculator in double arithmetic *)

Module DoubleYieldCalculatorProperties.
Import Number NumberProperties BaseYieldCalculator Notions.
Import Double.
Open Scope R_scope.

(** *** The standard model *)

Lemma inflating_standard_model (u lo hi : R) :
  0 <= u -> standard_model (inflating u) u lo hi.
Proof.
  intros Hu x _. exists (x * (1 + u)). split; [reflexivity |].
  replace (x * (1 + u) - x) with (u * x) by ring.
  rewrite !Rabs_mult. rewrite (Rabs_pos_eq u Hu), (Rabs_pos_eq (1 + u)) by lra.
  pose proof (Rabs_pos x). nra.
Qed.

Lemma u64_small : 0 < u64 <= / 1000000.
Proof.
  unfold u64. split.
  - apply Rinv_0_lt_compat. apply IZR_lt. reflexivity.
  - apply Rinv_le_contravar; [lra |]. apply IZR_le. apply Z.leb_le. reflexivity.
Qed.

(** A rounded result [y] of [x] with [|y - x| <= u |y|] keeps the sign of
    [x] and lies between [x / (1 + u)] and [x / (1 - u)]. *)
Lemma rounded_positive (u x y : R) :
  0 <= u < 1 -> 0 < x -> Rabs (y - x) <= u * Rabs y ->
  0 < y /\ y * (1 - u) <= x <= y * (1 + u).
Proof.
  intros Hu Hx H.
  destruct (Rle_dec 0 y) as [Hy | Hy].
  - rewrite (Rabs_pos_eq y Hy) in H.
    assert (Hd := Rabs_def2 (y - x) (u * y + 1)).
    pose proof (Rle_abs (y - x)). pose proof (Rle_abs (- (y - x))).
    rewrite Rabs_Ropp in *. split; [| split]; nra.
  - exfalso. assert (Hy' : y < 0) by lra.
    rewrite (Rabs_left y Hy') in H.
    pose proof (Rle_abs (- (y - x))) as H1. rewrite Rabs_Ropp in H1. nra.
Qed.


Lemma mul_round (round : R -> num) (x y : R) :
  Double.mul round (Fin x) (Fin y) = round (x * y).
Proof. reflexivity. Qed.



(** *** calculateAdvancedImpermanentLoss *)








(** *** optimizeYieldStrategy: the risk of the allocations *)

Lemma score_strategies_risk (round : R -> num) (valid : list loc) (h : store)
    (x : loc) (s : Strategy) :
  DoubleYieldCalculator.score_strategies round h valid !! x = Some s ->
  exists s0, h !! x = Some s0 /\ risk s = risk s0.
Proof.
  unfold DoubleYieldCalculator.score_strategies. revert h.
  induction valid as [| a valid IH]; intros h H; cbn [fold_left] in H.
  - exists s. auto.
  - destruct (IH _ H) as (s1 & H1 & Hr).
    destruct (decide (a = x)) as [-> | Hne].
    + rewrite lookup_alter_eq in H1. destruct (h !! x) as [s0 |]; [| discriminate].
      cbn in H1. inversion H1; subst. exists s0. split; [reflexivity | exact Hr].
    + rewrite lookup_alter_ne in H1 by exact Hne. exists s1. auto.
Qed.

Lemma in_insert_by_score (round : R -> num) (h : store) (a x : loc) (l : list loc) :
  In x (DoubleYieldCalculator.insert_by_score round h a l) <-> x = a \/ In x l.
Proof.
  induction l as [| b l IH]; cbn [DoubleYieldCalculator.insert_by_score].
  - simpl. intuition.
  - destruct (gt (DoubleYieldCalculator.by_score round h a b) (Fin 0));
      simpl; rewrite ?IH; intuition.
Qed.

Lemma in_sort_by_score (round : R -> num) (h : store) (x : loc) (l : list loc) :
  In x (DoubleYieldCalculator.sort_by_score round h l) <-> In x l.
Proof.
  unfold DoubleYieldCalculator.sort_by_score. induction l as [| a l IH]; simpl.
  - tauto.
  - rewrite in_insert_by_score, IH. intuition.
Qed.

Lemma length_insert_by_score (round : R -> num) (h : store) (a : loc) (l : list loc) :
  length (DoubleYieldCalculator.insert_by_score round h a l) = S (length l).
Proof.
  induction l as [| b l IH]; cbn [DoubleYieldCalculator.insert_by_score]; [reflexivity |].
  destruct (gt (DoubleYieldCalculator.by_score round h a b) (Fin 0)); cbn [length];
    [rewrite IH |]; reflexivity.
Qed.

Lemma length_sort_by_score (round : R -> num) (h : store) (l : list loc) :
  length (DoubleYieldCalculator.sort_by_score round h l) = length l.
Proof.
  unfold DoubleYieldCalculator.sort_by_score.
  induction l as [| a l IH]; cbn [fold_right length]; [reflexivity |].
  rewrite length_insert_by_score. fold (DoubleYieldCalculator.sort_by_score round h l).
  unfold DoubleYieldCalculator.sort_by_score. rewrite IH. reflexivity.
Qed.

(** Every strategy the allocation loop sees passed the risk filter. *)
Lemma sorted_strategies_risk (round : R -> num) (h : store) (minYield maxRisk : num)
    (strategies : list loc) :
  let valid := validStrategies h minYield maxRisk strategies in
  let h' := DoubleYieldCalculator.score_strategies round h valid in
  Forall (fun s => le (risk s) maxRisk = true)
         (omap (fun l => h' !! l) (DoubleYieldCalculator.sort_by_score round h' valid)).
Proof.
  intros valid h'. apply BaseYieldCalculatorProperties.Forall_omap_lookup.
  intros x s Hx Hs. apply in_sort_by_score in Hx.
  destruct (score_strategies_risk round valid h x s Hs) as (s0 & H0 & ->).
  unfold valid, validStrategies in Hx. apply filter_In in Hx. destruct Hx as [_ Hx].
  rewrite H0 in Hx. unfold meets_constraints in Hx. apply andb_true_iff in Hx. tauto.
Qed.

Lemma allocate_step_risk (round : R -> num) (T m maxRisk : num) (st : allocating)
    (s : Strategy) :
  le (risk s) maxRisk = true ->
  Forall (fun a => le (allocation_risk a) maxRisk = true) (allocations st) ->
  Forall (fun a => le (allocation_risk a) maxRisk = true)
         (allocations (DoubleYieldCalculator.allocate_step round T m st s)).
Proof.
  intros Hs Hst. unfold DoubleYieldCalculator.allocate_step.
  destruct (gt _ (Fin 1000)); [| exact Hst].
  cbn [allocations]. apply Forall_app. split; [exact Hst |].
  constructor; [exact Hs | constructor].
Qed.

Lemma allocate_risk (round : R -> num) (T m maxRisk : num) (valid : list Strategy)
    (st : allocating) :
  Forall (fun s => le (risk s) maxRisk = true) valid ->
  Forall (fun a => le (allocation_risk a) maxRisk = true) (allocations st) ->
  Forall (fun a => le (allocation_risk a) maxRisk = true)
         (allocations (DoubleYieldCalculator.allocate round T m valid st)).
Proof.
  revert st. induction valid as [| s valid IH]; intros st Hvalid Hst;
    cbn [DoubleYieldCalculator.allocate].
  - exact Hst.
  - destruct (le (remainingCapital st) (Fin 0)); [exact Hst |].
    inversion Hvalid as [| ? ? Hs Hrest]; subst.
    apply IH; [exact Hrest |]. apply allocate_step_risk; assumption.
Qed.

(** *** optimizeYieldStrategy: the sum of the allocations *)

(** A minimum above a real: neither argument is [NaN], and the minimum is
    at most each of them. *)
Lemma gt_min (a b : num) (c : R) :
  gt (min a b) (Fin c) = true ->
  gt a (Fin c) = true /\ le (min a b) a = true /\ le (min a b) b = true.
Proof.
  destruct a as [x | | |], b as [y | | |]; cbn; try discriminate;
    repeat match goal with
           | |- context [Rltb ?p ?q] => destruct (Rltb p q) eqn:?
           end; cbn;
    repeat match goal with
           | |- context [Rltb ?p ?q] => destruct (Rltb p q) eqn:?
           end;
    intros H; try discriminate;
    repeat match goal with
           | H : Rltb _ _ = true |- _ => apply Rltb_true in H
           | H : Rltb _ _ = false |- _ => apply Rltb_false in H
           end;
    repeat split; try reflexivity; try (apply Rleb_true; lra); try lra.
Qed.

Lemma le_fin_trans (a b : num) (r : R) :
  le a b = true -> le b (Fin r) = true -> le a (Fin r) = true.
Proof.
  destruct a as [x | | |], b as [y | | |]; cbn; try discriminate; try reflexivity.
  intros H1 H2. apply Rleb_true in H1. apply Rleb_true in H2. apply Rleb_true. lra.
Qed.

(** The amount the loop considers, when above 1000, is a finite number at
    most the capital that remains and at most the last argument of the
    minimum. *)
Lemma candidate_above (r : R) (A B C : num) :
  gt (min (min (min (Fin r) A) B) C) (Fin 1000) = true ->
  exists x, min (min (min (Fin r) A) B) C = Fin x /\ 1000 < x <= r
            /\ le (Fin x) C = true.
Proof.
  intros H.
  destruct (gt_min _ _ _ H) as (H1 & Hle1 & HleC).
  destruct (gt_min _ _ _ H1) as (H2 & Hle2 & _).
  destruct (gt_min _ _ _ H2) as (_ & Hle3 & _).
  assert (Hr : le (min (min (min (Fin r) A) B) C) (Fin r) = true).
  { eapply le_fin_trans; [exact Hle1 |]. eapply le_fin_trans; [exact Hle2 | exact Hle3]. }
  destruct (min (min (min (Fin r) A) B) C) as [x | | |]; cbn in H, Hr; try discriminate.
  apply Rltb_true in H. apply Rleb_true in Hr.
  exists x. split; [reflexivity |]. split; [lra | exact HleC].
Qed.

Lemma sum_of_app (xs ys : list R) : sum_of (xs ++ ys) = sum_of xs + sum_of ys.
Proof.
  unfold sum_of. induction xs as [| x xs IH]; cbn; [lra |].
  fold (sum_of (xs ++ ys)) in *. unfold sum_of in IH |- *. rewrite IH. lra.
Qed.

Section AllocationSum.
Variable round : R -> num.
Variables u lo hi t : R.
Hypothesis round_model : standard_model round u lo hi.
Hypothesis u_small : 0 <= u <= / 100.
Hypothesis lo_small : lo <= / 10.
Hypothesis t_range : 0 < t <= hi.
Hypothesis error_small : u * t <= 1000.

Lemma allocate_step_allocated_within (m : num) (st : allocating) (s : Strategy) :
  allocated_within u t st ->
  allocated_within u t (DoubleYieldCalculator.allocate_step round (Fin t) m st s).
Proof.
  intros (r & amounts & Hr & Hmap & Hrt & Hsum & Hleft).
  unfold DoubleYieldCalculator.allocate_step. rewrite Hr.
  destruct (gt _ (Fin 1000)) eqn:E; [| exists r, amounts; auto].
  destruct (candidate_above _ _ _ _ E) as (x & Hx & Hxr & HxC). rewrite Hx.
  assert (Hu : 0 <= u <= 0.01) by lra.
  assert (Hlo : lo <= 0.1) by lra.
  assert (Hw : 0 <= u < 1) by lra.
  (* the literal 0.3 *)
  destruct (round_model 0.3) as (c3 & Hc3 & Herr3).
  { rewrite Rabs_pos_eq by lra. lra. }
  destruct (rounded_positive u 0.3 c3 Hw ltac:(lra) Herr3) as (Hc3pos & Hc3lo & Hc3hi).
  assert (Hc3range : 0.29 <= c3 <= 0.31) by (split; nra).
  (* the product remainingCapital * 0.3 *)
  unfold Double.literal in HxC. rewrite Hc3, mul_round in HxC.
  destruct (round_model (r * c3)) as (cc & Hcc & Herrc).
  { rewrite Rabs_pos_eq by nra. split; nra. }
  destruct (rounded_positive u (r * c3) cc Hw ltac:(nra) Herrc) as (Hccpos & Hcclo & Hcchi).
  rewrite Hcc in HxC. cbn in HxC. apply Rleb_true in HxC.
  assert (Hx31 : x <= 0.32 * r) by nra.
  (* the subtraction *)
  assert (Hsub : Double.sub round (Fin r) (Fin x) = round (r - x)) by reflexivity.
  destruct (round_model (r - x)) as (y & Hy & Herry).
  { rewrite Rabs_pos_eq by nra. split; nra. }
  destruct (rounded_positive u (r - x) y Hw ltac:(nra) Herry) as (Hypos & Hylo & Hyhi).
  assert (Hyr : y <= r) by nra.
  exists y, (amounts ++ [x])%list. cbn [remainingCapital allocations].
  split; [rewrite Hsub; exact Hy |].
  split; [rewrite !map_app, Hmap; reflexivity |].
  split; [lra |].
  split.
  - rewrite sum_of_app, length_app, plus_INR. cbn [sum_of fold_right length INR].
    assert (y <= r - x + u * t) by nra. lra.
  - intros _. nra.
Qed.

Lemma allocate_allocated_within (m : num) (valid : list Strategy) (st : allocating) :
  allocated_within u t st ->
  allocated_within u t (DoubleYieldCalculator.allocate round (Fin t) m valid st).
Proof.
  revert st. induction valid as [| s valid IH]; intros st H;
    cbn [DoubleYieldCalculator.allocate].
  - exact H.
  - destruct (le (remainingCapital st) (Fin 0)); [exact H |].
    apply IH. apply allocate_step_allocated_within. exact H.
Qed.
End AllocationSum.

Lemma allocate_step_length (round : R -> num) (T m : num) (st : allocating) (s : Strategy) :
  (length (allocations (DoubleYieldCalculator.allocate_step round T m st s))
   <= S (length (allocations st)))%nat.
Proof.
  unfold DoubleYieldCalculator.allocate_step. destruct (gt _ (Fin 1000)); cbn [allocations].
  - rewrite length_app. cbn. lia.
  - lia.
Qed.

Lemma allocate_length (round : R -> num) (T m : num) (valid : list Strategy)
    (st : allocating) :
  (length (allocations (DoubleYieldCalculator.allocate round T m valid st))
   <= length (allocations st) + length valid)%nat.
Proof.
  revert st. induction valid as [| s valid IH]; intros st;
    cbn [DoubleYieldCalculator.allocate length].
  - lia.
  - destruct (le (remainingCapital st) (Fin 0)); [lia |].
    specialize (IH (DoubleYieldCalculator.allocate_step round T m st s)).
    pose proof (allocate_step_length round T m st s). lia.
Qed.

(** C1 (as amended).  In every arithmetic of the standard model with a
    relative rounding error [u] of at most 1/100 (for doubles, [2^-53]),
    for every store, array of strategies and constraints with a finite
    total capital [t] above zero: every allocation the optimizer returns
    has a risk of at most [maxRisk]; and when the number of strategies
    times [u * t] is at most 1000 (for doubles: when the number of
    strategies times the capital is at most 9e18), the allocated amounts
    sum, as real numbers, to at most the total capital.  Beyond that bound
    the roundings of [remainingCapital -= allocation] can add up to more
    than the cash that is left. *)
Theorem C1_allocations_within_constraints (round : R -> num) (u lo hi : R)
    (h : store) (strategies : list loc) (c : Constraints) (t : R) :
  standard_model round u lo hi -> 0 <= u <= / 100 -> lo <= / 10 ->
  param (totalCapital c) (Fin 100000) = Fin t -> 0 < t <= hi ->
  let allocs :=
    allocations_of (snd (DoubleYieldCalculator.optimizeYieldStrategy round h strategies c)) in
  Forall (fun a => le (allocation_risk a) (param (maxRisk c) (Double.literal round 0.3)) = true)
         allocs
  /\ (INR (length strategies) * (u * t) <= 1000 ->
      exists amounts, map allocation allocs = map Fin amounts /\ sum_of amounts <= t).
Proof.
  intros Hmodel Hu Hlo HT Ht allocs. subst allocs.
  unfold DoubleYieldCalculator.optimizeYieldStrategy. rewrite HT.
  pose proof (sorted_strategies_risk round h (param (minYield c) (Fin 5))
                (param (maxRisk c) (Double.literal round 0.3)) strategies) as Hrisk.
  cbv zeta in Hrisk.
  pose proof (List.filter_length_le
                (fun l => match h !! l with
                          | Some s => meets_constraints (param (minYield c) (Fin 5))
                                        (param (maxRisk c) (Double.literal round 0.3)) s
                          | None => false
                          end) strategies) as Hlen.
  fold (validStrategies h (param (minYield c) (Fin 5))
          (param (maxRisk c) (Double.literal round 0.3)) strategies) in Hlen.
  destruct (validStrategies h (param (minYield c) (Fin 5))
              (param (maxRisk c) (Double.literal round 0.3)) strategies)
    as [| l valid] eqn:Hvalid.
  - cbn [snd allocations_of]. split; [constructor |].
    intros _. exists []. split; [reflexivity |]. cbn. lra.
  - cbn [snd allocations_of]. split.
    + apply allocate_risk; [exact Hrisk | constructor].
    + intros Hsmall.
      set (m := param (maxAllocationPerStrategy c) (Double.literal round 0.4)).
      set (h' := DoubleYieldCalculator.score_strategies round h (l :: valid)) in *.
      set (served := omap (fun x => h' !! x)
                          (DoubleYieldCalculator.sort_by_score round h' (l :: valid))).
      set (st0 := {| allocations := []; remainingCapital := Fin t;
                     totalAllocatedRisk := Fin 0 |}).
      assert (Hn1 : 1 <= INR (length strategies)).
      { replace 1 with (INR 1) by reflexivity. apply le_INR. cbn [length] in Hlen. lia. }
      assert (Hut : 0 <= u * t) by nra.
      assert (Herr : u * t <= 1000) by nra.
      assert (Hinit : allocated_within u t st0).
      { exists t, []. cbn. repeat split; try lra. congruence. }
      destruct (allocate_allocated_within round u lo hi t Hmodel Hu Hlo Ht Herr m served st0 Hinit)
        as (r & amounts & _ & Hmap & Hrt & Hsum & Hleft).
      exists amounts. split; [exact Hmap |].
      destruct amounts as [| x amounts]; [cbn; lra |].
      specialize (Hleft ltac:(discriminate)).
      assert (Hcount : INR (length (x :: amounts)) <= INR (length strategies)).
      { apply le_INR.
        rewrite <- (length_map Fin), <- Hmap, length_map.
        pose proof (allocate_length round (Fin t) m served st0) as Hal.
        change (length (allocations st0)) with 0%nat in Hal.
        pose proof (OptimizerProperties.omap_length_le (fun x => h' !! x)
                      (DoubleYieldCalculator.sort_by_score round h' (l :: valid))) as Hom.
        rewrite length_sort_by_score in Hom. fold served in Hom. lia. }
      assert (INR (length (x :: amounts)) * (u * t) <= INR (length strategies) * (u * t))
        by (apply Rmult_le_compat_r; assumption).
      lra.
Qed.

Lemma C1_witness :
  let A := {| name := "Strategy A"; apy := Fin 12; risk := Fin 0.2; liquidity := Fin 80;
              riskAdjustedReturn := None; score := None |} in
  let B := {| name := "Strategy B"; apy := Fin 18; risk := Fin 0.4; liquidity := Fin 60;
              riskAdjustedReturn := None; score := None |} in
  let C := {| name := "Strategy C"; apy := Fin 8; risk := Fin 0.1; liquidity := Fin 95;
              riskAdjustedReturn := None; score := None |} in
  let c := {| maxRisk := Some (Fin 0.3); minYield := Some (Fin 10);
              maxAllocationPerStrategy := Some (Fin 0.4);
              totalCapital := Some (Fin 100000) |} in
  let h : store := <[ 0%nat := A ]> (<[ 1%nat := B ]> (<[ 2%nat := C ]> ∅)) in
  let allocs :=
    allocations_of
      (snd (DoubleYieldCalculator.optimizeYieldStrategy (inflating u64) h [0; 1; 2]%nat c)) in
  Forall (fun a => le (allocation_risk a) (Fin 0.3) = true) allocs
  /\ exists amounts, map allocation allocs = map Fin amounts /\ sum_of amounts <= 100000.
Proof.
  intros A B C c h.
  pose proof u64_small as Hu.
  destruct (C1_allocations_within_constraints (inflating u64) u64 (/ 10) 100000
              h [0; 1; 2]%nat c 100000) as [Hrisk Hsum].
  - apply inflating_standard_model. lra.
  - lra.
  - lra.
  - reflexivity.
  - lra.
  - split; [exact Hrisk |]. apply Hsum. cbn [length INR]. nra.
Defined.
End DoubleYieldCalculatorProperties.

(** ** The functions on doubles, run on given inputs *)

Module Binary64Properties.
Import Binary64.
#[local] Set Warnings "-inexact-float".
Open Scope float_scope.

(** With a total capital of 7e20 and 112 strategies that pass the filter,
    the optimizer makes 112 allocations, each within the risk limit, whose
    amounts sum to more than the total capital: the subtractions
    [remainingCapital -= allocation] are rounded to multiples of 131072 at
    this magnitude, and the roundings add up to more than the cash of
    about 3134 that is left. *)
Lemma C1_sum_exceeds_capital :
  let A := {| name := "Strategy A"; apy := 12; risk := 0.2; liquidity := 80; score := 0 |} in
  let c := {| maxRisk := 0.3; minYield := 10; maxAllocationPerStrategy := 0.4;
              totalCapital := 7e20 |} in
  exists st total,
    optimizeYieldStrategy (repeat A 112) c = Some st
    /\ length (allocations st) = 112%nat
    /\ forallb (fun a => allocation_risk a <=? maxRisk c) (allocations st) = true
    /\ exact (totalCapital c) = Some (inject_Z (7 * 10 ^ 20))
    /\ exact_sum (map allocation (allocations st)) = Some total
    /\ (inject_Z (7 * 10 ^ 20) + 3042 < total)%Q.
Proof.
  intros A c. eexists. eexists.
  split; [vm_compute; reflexivity |].
  split; [vm_compute; reflexivity |].
  split; [vm_compute; reflexivity |].
  split; [vm_compute; reflexivity |].
  split; [vm_compute; reflexivity |].
  vm_compute. reflexivity.
Qed.

(** The same optimizer run within the bound of the amended claim: with a
    total capital of 1e16 and 81 strategies (81 * 1e16 < 9e18) the 81
    amounts allocated sum to less than the total capital. *)
Example sum_within_capital :
  let A := {| name := "Strategy A"; apy := 12; risk := 0.2; liquidity := 80; score := 0 |} in
  let c := {| maxRisk := 0.3; minYield := 10; maxAllocationPerStrategy := 0.4;
              totalCapital := 1e16 |} in
  exists st total,
    optimizeYieldStrategy (repeat A 81) c = Some st
    /\ length (allocations st) = 81%nat
    /\ exact_sum (map allocation (allocations st)) = Some total
    /\ (total < inject_Z (10 ^ 16))%Q.
Proof.
  intros A c. eexists. eexists.
  split; [vm_compute; reflexivity |].
  split; [vm_compute; reflexivity |].
  split; [vm_compute; reflexivity |].
  vm_compute. reflexivity.
Qed.


(** Equal initial and current prices give a loss of exactly zero, whereas
    swapping the prices 1 and 1.0202017651244153 changes the percentage
    reported: 0.0050000000000105516, shown as '0.01', against
    0.004999999999977245, shown as '0.00'. *)
Example calculateImpermanentLoss_not_symmetric :
  lossPercentage (calculateImpermanentLoss 2500 2500) = 0
  /\ lossPercentage (calculateImpermanentLoss 0.1 0.1) = 0
  /\ lossPercentage (calculateImpermanentLoss 1 1.0202017651244153) = 0.0050000000000105516
  /\ lossPercentage (calculateImpermanentLoss 1.0202017651244153 1) = 0.004999999999977245
  /\ toFixed 2 (lossPercentage (calculateImpermanentLoss 1 1.0202017651244153))
     = Some (1 # 100)%Q
  /\ toFixed 2 (lossPercentage (calculateImpermanentLoss 1.0202017651244153 1))
     = Some (0 # 100)%Q.
Proof. repeat split; vm_compute; reflexivity. Qed.
End Binary64Properties.
